(** * FCFS scheduling simulator: a shallow embedding of
      [src/app/projects/fcfs/page.tsx] and the properties of its
      scheduling core.

    Conventions of the embedding.
    - A JavaScript [number] is an integer of [Z]: the form only ever stores
      [parseInt] of a string of digits, and the scheduler adds and
      subtracts such values.  The one quotient of the program (the two
      averages) is the quotient of IEEE 754 doubles: the exact quotient,
      a rational of [Q], rounded to the nearest double.
    - A JavaScript string is a [string], the bytes of its UTF-8 encoding;
      an array is a [list], [push] appends at the end.
    - [String.prototype.localeCompare] belongs to the platform, not to the
      repository: the development is parametric in it.
    - [Array.prototype.sort] is the stable sort that ECMAScript requires,
      embedded as a stable insertion sort. *)

From stdpp Require Import base numbers list sorting strings pretty gmap.
From Stdlib Require Import ZArith QArith Qabs Qround Qpower Lia Lqa.
From Stdlib Require Floats.SpecFloat.

Local Open Scope Z_scope.

(** ** Data model *)

(** The element type of the argument of [fcfs]:
    [{ pid: string; arrival: number; burst: number }]. *)
Module ValidProcess.
Record t : Type := mk { pid : string; arrival : Z; burst : Z }.
End ValidProcess.

(** [interface ProcessResult]; its optional field [remaining] is never
    assigned by the program and is left out. *)
Module ProcessResult.
Record t : Type := mk {
  pid : string;
  arrival : Z;
  burst : Z;
  completion : Z;
  waiting : Z;
  turnaround : Z
}.
End ProcessResult.

(** The object returned by [fcfs]: [{ timeline, results: done }]. *)
Module Out.
Record t : Type := mk {
  timeline : list string;
  results : list ProcessResult.t
}.
End Out.

(** The sentinel stored in the timeline for a unit without a process. *)
Definition IDLE : string := "IDLE".

(** ** [Array.prototype.sort] with a comparison function *)

Section Sort.
Context {A : Type} (compareFn : A → A → Z).

(** [x] goes before the first element it does not compare greater than,
    so it stays ahead of the elements it ties with. *)
Fixpoint insertSorted (x : A) (l : list A) : list A :=
  match l with
  | [] => [x]
  | y :: l' => if compareFn x y <=? 0 then x :: y :: l' else y :: insertSorted x l'
  end.

Fixpoint sort (l : list A) : list A :=
  match l with
  | [] => []
  | x :: l' => insertSorted x (sort l')
  end.
End Sort.

(** ** The scheduler *)

(** [for (let i = 0; i < n; i++) arr.push(x)] *)
Fixpoint pushTimes {A : Type} (n : nat) (x : A) (arr : list A) : list A :=
  match n with
  | O => arr
  | S n' => pushTimes n' x (arr ++ [x])
  end.

(** The variables the loop of [fcfs] updates. *)
Record LoopState : Type := mkLoop {
  time : Z;
  timeline : list string;
  done : list ProcessResult.t
}.

Section Scheduler.
Variable localeCompare : string → string → Z.

(** [(a, b) => a.arrival - b.arrival || a.pid.localeCompare(b.pid)] *)
Definition byArrivalThenPid (a b : ValidProcess.t) : Z :=
  if ValidProcess.arrival a - ValidProcess.arrival b =? 0
  then localeCompare (ValidProcess.pid a) (ValidProcess.pid b)
  else ValidProcess.arrival a - ValidProcess.arrival b.

(** [(p) => ({ ...p })] *)
Definition copy (p : ValidProcess.t) : ValidProcess.t :=
  ValidProcess.mk (ValidProcess.pid p) (ValidProcess.arrival p)
    (ValidProcess.burst p).

(** One turn of [for (const current of procs)]. *)
Definition fcfs_body (st : LoopState) (current : ValidProcess.t) : LoopState :=
  let arrival := ValidProcess.arrival current in
  let burst := ValidProcess.burst current in
  let '(timeline1, startTime) :=
    if arrival >? time st
    then (pushTimes (Z.to_nat (arrival - time st)) IDLE (timeline st), arrival)
    else (timeline st, time st) in
  let completionTime := startTime + burst in
  let timeline2 :=
    pushTimes (Z.to_nat burst) (ValidProcess.pid current) timeline1 in
  mkLoop completionTime timeline2
    (done st ++
     [ProcessResult.mk (ValidProcess.pid current) arrival burst
        completionTime
        (completionTime - arrival - burst)
        (completionTime - arrival)]).

Definition fcfs_loop (procs : list ValidProcess.t) (st : LoopState) : LoopState :=
  fold_left fcfs_body procs st.

Definition fcfs (processes : list ValidProcess.t) : Out.t :=
  let procs := sort byArrivalThenPid (map copy processes) in
  let st := fcfs_loop procs (mkLoop 0 [] []) in
  Out.mk (timeline st) (done st).
End Scheduler.

(** ** The timeline compressor *)

(** An element of [compressedTimeline]: [{ id: string; duration: number }]. *)
Record Block : Type := mkBlock { id : string; duration : Z }.

(** The callback of [timeline.reduce(..., [])]. *)
Definition compress_step (acc : list Block) (current : string) : list Block :=
  if decide (length acc = 0%nat) then acc ++ [mkBlock current 1]
  else
    match acc !! (length acc - 1)%nat with
    | Some b =>
        if decide (id b ≠ current) then acc ++ [mkBlock current 1]
        else <[(length acc - 1)%nat := mkBlock (id b) (duration b + 1)]> acc
    | None => acc (* not reached: the index is in range *)
    end.

(** [timeline ? timeline.reduce(...) : null] *)
Definition compressedTimeline (timeline : option (list string))
  : option (list Block) :=
  match timeline with
  | Some tl => Some (fold_left compress_step tl [])
  | None => None
  end.

(** The expansion the round-trip property speaks of: each block's [id]
    repeated [duration] times, in block order. *)
Definition expand (blocks : list Block) : list string :=
  flat_map (λ b, replicate (Z.to_nat (duration b)) (id b)) blocks.

(** ** The averages *)

(** [results.reduce((a, b) => a + b.waiting, 0)] and its sibling. *)
Definition totalWaiting (results : list ProcessResult.t) : Z :=
  fold_left (λ a b, a + ProcessResult.waiting b) results 0.

Definition totalTurnaround (results : list ProcessResult.t) : Z :=
  fold_left (λ a b, a + ProcessResult.turnaround b) results 0.

(** The operator [/] on numbers is the division of IEEE 754 doubles: the
    exact quotient rounded to the nearest double, a tie going to the double
    whose significand is even.  A double is [m * 2 ^ e] with [|m| < 2 ^ 53]
    and [-1074 <= e <= 971]. *)
Definition pow2 (e : Z) : Q := (2 ^ e)%Q.

(** For [q > 0], the exponent [k] with [2 ^ k <= q < 2 ^ (k + 1)]. *)
Definition floorLog2 (q : Q) : Z :=
  let k := Z.log2 (Qnum q) - Z.log2 (Zpos (Qden q)) in
  if Qle_bool (pow2 k) q then k else k - 1.

(** The nearest integer, the even one of the two when [q] is half way. *)
Definition roundHalfEven (q : Q) : Z :=
  let f := Qfloor q in
  match (q - inject_Z f ?= 1 # 2)%Q with
  | Lt => f
  | Gt => f + 1
  | Eq => if Z.even f then f else f + 1
  end.

(** The significand has 53 bits, fewer where the exponent would go below
    -1074.  A quotient of magnitude [2 ^ 1024] or more would be an infinity;
    the quotient of a sum of doubles by the length of an array is not. *)
Definition roundDouble (q : Q) : Q :=
  let e := Z.max (floorLog2 (Qabs q) - 52) (-1074) in
  (inject_Z (roundHalfEven (q / pow2 e)) * pow2 e)%Q.

(** [x / y], for a divisor other than 0. *)
Definition divide (x y : Z) : Q := roundDouble (inject_Z x / inject_Z y).

(** [avgW] and [avgT]: [0] unless [results] is set and not empty. *)
Definition avgW (results : option (list ProcessResult.t)) : Q :=
  match results with
  | Some rs =>
      if (0 <? Z.of_nat (length rs))
      then divide (totalWaiting rs) (Z.of_nat (length rs))
      else 0%Q
  | None => 0%Q
  end.

Definition avgT (results : option (list ProcessResult.t)) : Q :=
  match results with
  | Some rs =>
      if (0 <? Z.of_nat (length rs))
      then divide (totalTurnaround rs) (Z.of_nat (length rs))
      else 0%Q
  | None => 0%Q
  end.

(** ** The form and its validation *)

Definition MAX_TIME_UNIT : Z := 500.

(** A field of the form, [number | ""]. *)
Inductive field : Type :=
  | Blank            (* the empty string *)
  | Num (n : Z)
  | NaN.

(** [interface Process] *)
Module Process.
Record t : Type := mk { pid : string; arrival : field; burst : field }.
End Process.

(** The state of the component that [simulate] writes. *)
Module View.
Record t : Type := mk {
  results : option (list ProcessResult.t);
  timeline : option (list string);
  error : string
}.
End View.

Definition setError (msg : string) (v : View.t) : View.t :=
  View.mk (View.results v) (View.timeline v) msg.

Definition setResults (r : option (list ProcessResult.t)) (v : View.t) : View.t :=
  View.mk r (View.timeline v) (View.error v).

Definition setTimeline (tl : option (list string)) (v : View.t) : View.t :=
  View.mk (View.results v) tl (View.error v).

(** [String.prototype.trim] removes the WhiteSpace and LineTerminator code
    points of ECMAScript from both ends of a string.  A string is held as
    the bytes of its UTF-8 encoding, so such a code point is one, two or
    three bytes long. *)

(** U+0009 to U+000D (tab, line feed, vertical tab, form feed, carriage
    return) and U+0020 (space). *)
Definition whiteSpace1 (c1 : Ascii.ascii) : bool :=
  let b1 := Ascii.nat_of_ascii c1 in
  ((9 <=? b1) && (b1 <=? 13) || (b1 =? 32))%nat.

(** U+00A0 (no-break space), the bytes C2 A0. *)
Definition whiteSpace2 (c1 c2 : Ascii.ascii) : bool :=
  let b1 := Ascii.nat_of_ascii c1 in
  let b2 := Ascii.nat_of_ascii c2 in
  ((b1 =? 194) && (b2 =? 160))%nat.

(** U+1680 (E1 9A 80); U+2000 to U+200A, U+2028, U+2029 and U+202F
    (E2 80 80 to E2 80 8A, E2 80 A8, E2 80 A9, E2 80 AF); U+205F (E2 81 9F);
    U+3000 (E3 80 80); U+FEFF (EF BB BF). *)
Definition whiteSpace3 (c1 c2 c3 : Ascii.ascii) : bool :=
  let b1 := Ascii.nat_of_ascii c1 in
  let b2 := Ascii.nat_of_ascii c2 in
  let b3 := Ascii.nat_of_ascii c3 in
  ((b1 =? 225) && (b2 =? 154) && (b3 =? 128)
   || (b1 =? 226) && (b2 =? 128)
      && ((128 <=? b3) && (b3 <=? 138) || (b3 =? 168) || (b3 =? 169)
          || (b3 =? 175))
   || (b1 =? 226) && (b2 =? 129) && (b3 =? 159)
   || (b1 =? 227) && (b2 =? 128) && (b3 =? 128)
   || (b1 =? 239) && (b2 =? 187) && (b3 =? 191))%nat.

(** The string without the white space it starts with. *)
Fixpoint trimStart (s : string) : string :=
  match s with
  | EmptyString => EmptyString
  | String c1 s1 =>
      if whiteSpace1 c1 then trimStart s1
      else
        match s1 with
        | EmptyString => s
        | String c2 s2 =>
            if whiteSpace2 c1 c2 then trimStart s2
            else
              match s2 with
              | EmptyString => s
              | String c3 s3 =>
                  if whiteSpace3 c1 c2 c3 then trimStart s3 else s
              end
        end
  end.

(** The string is made of white space only. *)
Fixpoint allWhiteSpace (s : string) : bool :=
  match s with
  | EmptyString => true
  | String c1 s1 =>
      if whiteSpace1 c1 then allWhiteSpace s1
      else
        match s1 with
        | EmptyString => false
        | String c2 s2 =>
            if whiteSpace2 c1 c2 then allWhiteSpace s2
            else
              match s2 with
              | EmptyString => false
              | String c3 s3 =>
                  if whiteSpace3 c1 c2 c3 then allWhiteSpace s3 else false
              end
        end
  end.

(** The string without the white space it ends with: it is cut where
    nothing but white space follows. *)
Fixpoint trimEnd (s : string) : string :=
  match s with
  | EmptyString => EmptyString
  | String c s' =>
      if allWhiteSpace s then EmptyString else String c (trimEnd s')
  end.

Definition trim (s : string) : string := trimEnd (trimStart s).

(** The messages of [simulate]. *)
Definition msgEmptyPid : string := "PID cannot be empty for any process.".

Definition msgIncomplete (pid : string) : string :=
  "Process " +:+ pid +:+ ": Arrival Time and Burst Time must both be filled.".

Definition msgNotNumbers (pid : string) : string :=
  "Process " +:+ pid +:+ ": Arrival Time and Burst Time must be valid numbers.".

Definition msgRange (pid : string) : string :=
  "Process " +:+ pid +:+
  ": Arrival Time must be ≥ 0 and Burst Time must be ≥ 1.".

Definition msgTooLarge (pid : string) : string :=
  "Process " +:+ pid +:+ ": Value too large. Times must be ≤ " +:+
  pretty MAX_TIME_UNIT +:+ ".".

Definition msgNoProcess : string := "Please define at least one process.".

(** The loop [for (const p of processes)] of [simulate]: the message of
    the first [return setError(...)], or [validProcesses] at the end. *)
Fixpoint validate (processes : list Process.t)
    (validProcesses : list ValidProcess.t) : string + list ValidProcess.t :=
  match processes with
  | [] => inr validProcesses
  | p :: rest =>
      if decide (trim (Process.pid p) = EmptyString) then inl msgEmptyPid
      else
        match Process.arrival p, Process.burst p with
        | Blank, Blank => validate rest validProcesses
        | Blank, _ | _, Blank => inl (msgIncomplete (Process.pid p))
        | NaN, _ | _, NaN => inl (msgNotNumbers (Process.pid p))
        | Num arrival, Num burst =>
            if (arrival <? 0) || (burst <=? 0)
            then inl (msgRange (Process.pid p))
            else if (arrival >? MAX_TIME_UNIT) || (burst >? MAX_TIME_UNIT)
            then inl (msgTooLarge (Process.pid p))
            else validate rest
                   (validProcesses ++ [ValidProcess.mk (Process.pid p) arrival burst])
        end
  end.

Section Simulate.
Variable localeCompare : string → string → Z.

(** [(a, b) => a.pid.localeCompare(b.pid)] *)
Definition byPid (a b : ProcessResult.t) : Z :=
  localeCompare (ProcessResult.pid a) (ProcessResult.pid b).

Definition simulate (processes : list Process.t) (v : View.t) : View.t :=
  let v := setError "" v in
  let v := setResults None v in
  let v := setTimeline None v in
  match validate processes [] with
  | inl msg => setError msg v
  | inr validProcesses =>
      if decide (length validProcesses = 0%nat) then setError msgNoProcess v
      else
        let out := fcfs localeCompare validProcesses in
        let v := setResults (Some (sort byPid (Out.results out))) v in
        setTimeline (Some (Out.timeline out)) v
  end.
End Simulate.

(** ** The scheduler over a store of objects

    [fcfs] receives a reference to an array of references to objects, and
    JavaScript lets it write through any of them.  This second embedding
    keeps the store explicit: every object and array literal allocates,
    [sort] and [push] overwrite the array they are called on. *)

Definition loc : Type := nat.

Inductive obj : Type :=
  | OProcess (p : ValidProcess.t)   (* { pid, arrival, burst } *)
  | OResult (r : ProcessResult.t)   (* a ProcessResult *)
  | ORefs (refs : list loc)         (* an array of objects *)
  | OStrings (units : list string). (* an array of strings *)

Abbreviation store := (gmap loc obj).

(** A computation reads and writes the store; [None] is a [TypeError]. *)
Definition M (A : Type) : Type := store → option (A * store).

Definition ret {A : Type} (a : A) : M A := λ h, Some (a, h).

Definition bind {A B : Type} (c : M A) (k : A → M B) : M B :=
  λ h, match c h with
       | Some (a, h') => k a h'
       | None => None
       end.

Definition fail {A : Type} : M A := λ _, None.

Notation "'let*' x ':=' c 'in' k" := (bind c (λ x, k))
  (at level 10, x pattern, c at level 100, k at level 200).

Definition alloc (o : obj) : M loc :=
  λ h, let l := fresh (dom h) in Some (l, <[l := o]> h).

Definition load (l : loc) : M obj :=
  λ h, match h !! l with
       | Some o => Some (o, h)
       | None => None
       end.

Definition write (l : loc) (o : obj) : M unit :=
  λ h, match h !! l with
       | Some _ => Some (tt, <[l := o]> h)
       | None => None
       end.

Definition readProcess (l : loc) : M ValidProcess.t :=
  let* o := load l in
  match o with OProcess p => ret p | _ => fail end.

Definition readResult (l : loc) : M ProcessResult.t :=
  let* o := load l in
  match o with OResult r => ret r | _ => fail end.

Definition readRefs (l : loc) : M (list loc) :=
  let* o := load l in
  match o with ORefs refs => ret refs | _ => fail end.

Definition readStrings (l : loc) : M (list string) :=
  let* o := load l in
  match o with OStrings us => ret us | _ => fail end.

Fixpoint forEach {A B : Type} (f : A → M B) (l : list A) : M (list B) :=
  match l with
  | [] => ret []
  | x :: l' =>
      let* y := f x in
      let* ys := forEach f l' in
      ret (y :: ys)
  end.

(** [arr.push(x)] on an array of strings and on an array of objects. *)
Definition pushString (arr : loc) (x : string) : M unit :=
  let* us := readStrings arr in
  write arr (OStrings (us ++ [x])).

Definition pushRef (arr : loc) (x : loc) : M unit :=
  let* refs := readRefs arr in
  write arr (ORefs (refs ++ [x])).

Fixpoint pushTimesM (n : nat) (x : string) (arr : loc) : M unit :=
  match n with
  | O => ret tt
  | S n' => let* _ := pushString arr x in pushTimesM n' x arr
  end.

Section SchedulerOnStore.
Variable localeCompare : string → string → Z.

(** [processes.map((p) => ({ ...p }))]: a new object per element and a
    new array. *)
Definition mapCopy (processes : loc) : M loc :=
  let* refs := readRefs processes in
  let* copies :=
    forEach (λ l, let* p := readProcess l in alloc (OProcess (copy p))) refs in
  alloc (ORefs copies).

(** [arr.sort(byArrivalThenPid)]: permutes the references held by [arr]
    itself and returns [arr]. *)
Definition sortInPlace (arr : loc) : M loc :=
  let* refs := readRefs arr in
  let* ps := forEach readProcess refs in
  let sorted :=
    sort (λ a b, byArrivalThenPid localeCompare a.2 b.2) (zip refs ps) in
  let* _ := write arr (ORefs sorted.*1) in
  ret arr.

(** One turn of the loop; [time] is a local variable, [timeline] and
    [done] are arrays of the store. *)
Definition fcfs_bodyM (timeline done : loc) (time : Z) (current : loc) : M Z :=
  let* p := readProcess current in
  let arrival := ValidProcess.arrival p in
  let burst := ValidProcess.burst p in
  let* startTime :=
    if arrival >? time
    then let* _ := pushTimesM (Z.to_nat (arrival - time)) IDLE timeline in
         ret arrival
    else ret time in
  let completionTime := startTime + burst in
  let* _ := pushTimesM (Z.to_nat burst) (ValidProcess.pid p) timeline in
  let* r := alloc (OResult
              (ProcessResult.mk (ValidProcess.pid p) arrival burst
                 completionTime
                 (completionTime - arrival - burst)
                 (completionTime - arrival))) in
  let* _ := pushRef done r in
  ret completionTime.

Fixpoint fcfs_loopM (timeline done : loc) (time : Z) (procs : list loc) : M Z :=
  match procs with
  | [] => ret time
  | current :: rest =>
      let* time' := fcfs_bodyM timeline done time current in
      fcfs_loopM timeline done time' rest
  end.

(** [fcfs] on the store; it returns the references of [timeline] and of
    [results]. *)
Definition fcfsM (processes : loc) : M (loc * loc) :=
  let* mapped := mapCopy processes in
  let* procs := sortInPlace mapped in
  let* done := alloc (ORefs []) in
  let* timeline := alloc (OStrings []) in
  let* refs := readRefs procs in
  let* _ := fcfs_loopM timeline done 0 refs in
  ret (timeline, done).
End SchedulerOnStore.

(** What a reference to a process object, to a result object, to an array
    of either or to an array of strings holds in a store. *)
Definition processAt (h : store) (l : loc) : option ValidProcess.t :=
  match h !! l with
  | Some (OProcess p) => Some p
  | _ => None
  end.

Definition resultAt (h : store) (l : loc) : option ProcessResult.t :=
  match h !! l with
  | Some (OResult r) => Some r
  | _ => None
  end.

Definition processesAt (h : store) (arr : loc) : option (list ValidProcess.t) :=
  match h !! arr with
  | Some (ORefs refs) => mapM (processAt h) refs
  | _ => None
  end.

Definition resultsAt (h : store) (arr : loc) : option (list ProcessResult.t) :=
  match h !! arr with
  | Some (ORefs refs) => mapM (resultAt h) refs
  | _ => None
  end.

Definition stringsAt (h : store) (arr : loc) : option (list string) :=
  match h !! arr with
  | Some (OStrings us) => Some us
  | _ => None
  end.

(** ** The form and its handlers *)

(** The state of the component: the rows of the form and what is shown. *)
Module Form.
Record t : Type := mk { processes : list Process.t; view : View.t }.
End Form.

(** The template literal [`P${n}`]. *)
Definition pidOf (n : nat) : string := "P" +:+ pretty n.

Definition getInitialProcesses : list Process.t :=
  [Process.mk "P1" Blank Blank; Process.mk "P2" Blank Blank;
   Process.mk "P3" Blank Blank; Process.mk "P4" Blank Blank].

(** The state of the component when it is mounted. *)
Definition initialForm : Form.t :=
  Form.mk getInitialProcesses (View.mk None None EmptyString).

(** [keyof Process] *)
Inductive fieldName : Type := FieldPid | FieldArrival | FieldBurst.

(** [/^\d*$/.test(value)] *)
Definition isDigit (c : Ascii.ascii) : bool :=
  let n := Ascii.nat_of_ascii c in ((48 <=? n) && (n <=? 57))%nat.

Fixpoint allDigits (value : string) : bool :=
  match value with
  | EmptyString => true
  | String c rest => isDigit c && allDigits rest
  end.

(** [parseInt] on a string of decimal digits, the only strings it is
    given here. *)
Fixpoint parseDigits (acc : Z) (value : string) : Z :=
  match value with
  | EmptyString => acc
  | String c rest =>
      parseDigits (acc * 10 + (Z.of_nat (Ascii.nat_of_ascii c) - 48)) rest
  end.

Definition parseInt (value : string) : Z := parseDigits 0 value.

(** [updated[i][field] = ...] on a row. *)
Definition setField (field : fieldName) (value : string) (p : Process.t)
  : Process.t :=
  let parsed := if decide (value = EmptyString) then Blank else Num (parseInt value) in
  match field with
  | FieldPid => Process.mk value (Process.arrival p) (Process.burst p)
  | FieldArrival => Process.mk (Process.pid p) parsed (Process.burst p)
  | FieldBurst => Process.mk (Process.pid p) (Process.arrival p) parsed
  end.

(** [updateField]; [None] is the [TypeError] of writing to [updated[i]]
    when there is no row [i]. *)
Definition updateField (i : nat) (field : fieldName) (value : string)
    (s : Form.t) : option Form.t :=
  let view := setError EmptyString (Form.view s) in
  match field with
  | FieldPid =>
      match Form.processes s !! i with
      | Some p => Some (Form.mk (<[i := setField field value p]> (Form.processes s)) view)
      | None => None
      end
  | _ =>
      if negb (allDigits value) then Some (Form.mk (Form.processes s) view)
      else
        match Form.processes s !! i with
        | Some p => Some (Form.mk (<[i := setField field value p]> (Form.processes s)) view)
        | None => None
        end
  end.

Definition addProcess (s : Form.t) : Form.t :=
  Form.mk
    (Form.processes s
     ++ [Process.mk (pidOf (length (Form.processes s) + 1)) Blank Blank])
    (setTimeline None (setResults None (Form.view s))).

(** [copy.splice(i, 1)] deletes row [i] when there is one; the rows left
    are renumbered. *)
Definition removeProcess (i : nat) (s : Form.t) : Form.t :=
  let copy := delete i (Form.processes s) in
  let renumbered :=
    imap (λ index p,
            Process.mk (pidOf (index + 1)) (Process.arrival p) (Process.burst p))
      copy in
  Form.mk renumbered
    (setError EmptyString (setTimeline None (setResults None (Form.view s)))).

Definition resetProcesses (s : Form.t) : Form.t :=
  Form.mk getInitialProcesses
    (setError EmptyString (setTimeline None (setResults None (Form.view s)))).

(** The click on the simulate button. *)
Definition onSimulate (localeCompare : string → string → Z) (s : Form.t)
  : Form.t :=
  Form.mk (Form.processes s)
    (simulate localeCompare (Form.processes s) (Form.view s)).

(** ** What the chart is drawn from *)

Definition colorClasses : list string :=
  ["bg-blue-300"; "bg-green-300"; "bg-yellow-300"; "bg-pink-300";
   "bg-purple-300"].

(** [a || b] on a string that may be [undefined]: the empty string is
    falsy too. *)
Definition orElse (a : option string) (b : string) : string :=
  match a with
  | Some c => if decide (c = EmptyString) then b else c
  | None => b
  end.

(** [pids.forEach((pid, index) => { pidColorMap[pid] = ... })], from
    [index] on.  The object is used as a map from pids to class names; the
    one key that JavaScript does not store as a property of the object,
    [__proto__], is outside this model. *)
Fixpoint assignColors (index : nat) (pids : list string)
    (pidColorMap : gmap string string) : gmap string string :=
  match pids with
  | [] => pidColorMap
  | pid :: rest =>
      assignColors (S index) rest
        (<[pid := orElse (colorClasses !! (index mod length colorClasses)%nat)
                    "bg-gray-300"]> pidColorMap)
  end.

Definition pidColorMap (results : option (list ProcessResult.t))
  : gmap string string :=
  match results with
  | Some rs => assignColors 0 (map ProcessResult.pid rs) ∅
  | None => ∅
  end.

(** [bgColor] of a block of the chart; [None] is [undefined]. *)
Definition bgColor (colors : gmap string string) (block : Block) : option string :=
  if decide (id block = IDLE) then Some "bg-gray-400" else colors !! id block.

(** An element of [timeLabels]: [{ time, x }]. *)
Module Label.
Record t : Type := mk { time : Z; x : Z }.
End Label.

(** The variables [currentTime] and [timeLabels] of [SimulationOutput]
    along [compressedTimeline.forEach]. *)
Definition labels_step (st : Z * list Label.t) (block : Block) : Z * list Label.t :=
  let currentTime := st.1 + duration block in
  (currentTime, st.2 ++ [Label.mk currentTime currentTime]).

Definition labels (compressedTimeline : option (list Block)) : Z * list Label.t :=
  match compressedTimeline with
  | Some blocks => fold_left labels_step blocks (0, [Label.mk 0 0])
  | None => (0, [Label.mk 0 0])
  end.

Definition totalDuration (compressedTimeline : option (list Block)) : Z :=
  (labels compressedTimeline).1.

Definition timeLabels (compressedTimeline : option (list Block)) : list Label.t :=
  (labels compressedTimeline).2.

(** ** What the inputs show and where Enter leads *)

(** The text of an input, [value={p.arrival}]: the empty string or the
    number in decimal. *)
Definition shown (f : field) : string :=
  match f with
  | Blank => EmptyString
  | Num n => pretty n
  | NaN => "NaN"
  end.

(** The ids of the elements the component renders: [arrival-${i + 1}] and
    [burst-${i + 1}] for each row [i], and the simulate button. *)
Definition inputId (name : string) (n : nat) : string :=
  name +:+ "-" +:+ pretty n.

Definition renderedIds (processes : list Process.t) : list string :=
  flat_map (λ i, [inputId "arrival" (i + 1); inputId "burst" (i + 1)])
    (seq 0 (length processes))
  ++ ["simulate-button"].

(** What [handleKeyDown] does to the focus. *)
Inductive focusMove : Type :=
  | Stay
  | MoveTo (elementId : string).

(** [handleKeyDown(e, i, field)] with [key] for [e.key];
    [document.getElementById] finds the elements of [renderedIds]. *)
Definition handleKeyDown (key : string) (i : nat) (field : fieldName)
    (processes : list Process.t) : focusMove :=
  if decide (key = "Enter") then
    let nextId :=
      inputId (match field with FieldArrival => "burst" | _ => "arrival" end)
        (i + match field with FieldBurst => 2 | _ => 1 end) in
    if decide (nextId ∈ renderedIds processes) then MoveTo nextId
    else if decide (Z.of_nat i = Z.of_nat (length processes) - 1)
         then MoveTo "simulate-button"
         else Stay
  else Stay.

(** ** Vocabulary of the properties *)

(** The precondition of the scheduler: at least one process, every arrival
    at least 0 and every burst at least 1. *)
Definition validInput (processes : list ValidProcess.t) : Prop :=
  processes ≠ [] ∧
  Forall (λ p, 0 ≤ ValidProcess.arrival p ∧ 1 ≤ ValidProcess.burst p) processes.

(** What ECMAScript asks of a comparison function for [sort] to order the
    array: the sign flips when the arguments are swapped, and
    "not greater" is transitive. *)
Definition consistentComparator {A : Type} (compareFn : A → A → Z) : Prop :=
  (∀ a b, compareFn a b < 0 ↔ 0 < compareFn b a) ∧
  (∀ a b c, compareFn a b ≤ 0 → compareFn b c ≤ 0 → compareFn a c ≤ 0).

(** Comparison of strings unit by unit, a comparison function one can run. *)
Definition compareUnits (a b : string) : Z :=
  match String.compare a b with
  | Lt => -1
  | Eq => 0
  | Gt => 1
  end.

(** Comparison of strings in the manner of locale collation, on ASCII
    letters and digits: the strings are compared with the case of the
    letters set aside, and only strings that are equal that way are told
    apart by case, a small letter before its capital.  It is the order in
    which [localeCompare] puts "a", "b", "B", where the order of the units
    is "B", "a", "b".  The key of a string is the string in small letters,
    a separator below all letters and digits, and the string with the case
    of each letter swapped. *)
Definition toLowerCase (c : Ascii.ascii) : Ascii.ascii :=
  let n := Ascii.nat_of_ascii c in
  if ((65 <=? n) && (n <=? 90))%nat then Ascii.ascii_of_nat (n + 32) else c.

Definition swapCase (c : Ascii.ascii) : Ascii.ascii :=
  let n := Ascii.nat_of_ascii c in
  if ((65 <=? n) && (n <=? 90))%nat then Ascii.ascii_of_nat (n + 32)
  else if ((97 <=? n) && (n <=? 122))%nat then Ascii.ascii_of_nat (n - 32)
  else c.

Fixpoint mapUnits (f : Ascii.ascii → Ascii.ascii) (s : string) : string :=
  match s with
  | EmptyString => EmptyString
  | String c s' => String (f c) (mapUnits f s')
  end.

Definition collationKey (s : string) : string :=
  mapUnits toLowerCase s +:+ String Ascii.zero (mapUnits swapCase s).

Definition compareCollated (a b : string) : Z :=
  compareUnits (collationKey a) (collationKey b).

(** The loop of [fcfs] unrolled from a clock value [t]: when [current]
    starts and ends, the units and the result it adds. *)
Definition startOf (t : Z) (current : ValidProcess.t) : Z :=
  if ValidProcess.arrival current >? t then ValidProcess.arrival current else t.

Definition completionOf (t : Z) (current : ValidProcess.t) : Z :=
  startOf t current + ValidProcess.burst current.

Definition unitsOf (t : Z) (current : ValidProcess.t) : list string :=
  replicate (Z.to_nat (ValidProcess.arrival current - t)) IDLE ++
  replicate (Z.to_nat (ValidProcess.burst current)) (ValidProcess.pid current).

Definition resultOf (t : Z) (current : ValidProcess.t) : ProcessResult.t :=
  ProcessResult.mk (ValidProcess.pid current) (ValidProcess.arrival current)
    (ValidProcess.burst current) (completionOf t current)
    (completionOf t current - ValidProcess.arrival current
       - ValidProcess.burst current)
    (completionOf t current - ValidProcess.arrival current).

Fixpoint timeAfter (t : Z) (procs : list ValidProcess.t) : Z :=
  match procs with
  | [] => t
  | p :: rest => timeAfter (completionOf t p) rest
  end.

Fixpoint timelineFrom (t : Z) (procs : list ValidProcess.t) : list string :=
  match procs with
  | [] => []
  | p :: rest => unitsOf t p ++ timelineFrom (completionOf t p) rest
  end.

Fixpoint resultsFrom (t : Z) (procs : list ValidProcess.t) : list ProcessResult.t :=
  match procs with
  | [] => []
  | p :: rest => resultOf t p :: resultsFrom (completionOf t p) rest
  end.

(** The unit of time [t] lies in the interval during which [r] ran. *)
Definition runsAt (r : ProcessResult.t) (t : Z) : Prop :=
  ProcessResult.completion r - ProcessResult.burst r ≤ t
  ∧ t < ProcessResult.completion r.

Definition totalBurst (processes : list ValidProcess.t) : Z :=
  foldr (λ p acc, ValidProcess.burst p + acc) 0 processes.

Definition busyUnits (timeline : list string) : Z :=
  Z.of_nat (length (filter (λ u, u ≠ IDLE) timeline)).

(** What occupies the unit of time [t], given the results: nothing, and
    then the unit is [IDLE], or the run of exactly one result, and then the
    unit is its pid. *)
Definition covered (results : list ProcessResult.t) (t : Z) (u : string) : Prop :=
  (u = IDLE ∧ ∀ r, r ∈ results → ¬ runsAt r t)
  ∨ (∃ i r, results !! i = Some r ∧ u = ProcessResult.pid r ∧ runsAt r t
            ∧ ∀ j r', results !! j = Some r' → runsAt r' t → j = i).

(** The arithmetic mean of a sequence of integers. *)
Definition sumZ (l : list Z) : Z := foldr Z.add 0 l.

Definition mean (l : list Z) : Q :=
  (inject_Z (sumZ l) / inject_Z (Z.of_nat (length l)))%Q.

(** The finite doubles, and the greatest of them. *)
Definition isDouble (d : Q) : Prop :=
  ∃ m e : Z, Z.abs m < 2 ^ 53 ∧ -1074 ≤ e ≤ 971 ∧ (d == inject_Z m * pow2 e)%Q.

Definition maxDouble : Q := (inject_Z (2 ^ 53 - 1) * pow2 971)%Q.

(** The doubles of the standard library's specification of IEEE 754
    arithmetic: the double of an integer, and the value of a finite
    double. *)
Definition Z2SF (z : Z) : SpecFloat.spec_float :=
  SpecFloat.binary_normalize 53 1024 z 0 false.

Definition SF2Q (x : SpecFloat.spec_float) : Q :=
  match x with
  | SpecFloat.S754_finite s m e =>
      (inject_Z (if s then Z.neg m else Z.pos m) * pow2 e)%Q
  | _ => 0%Q
  end.

(** The two kinds of unfinished rows, and rows with a pid. *)
Definition blankRow (p : Process.t) : Prop :=
  Process.arrival p = Blank ∧ Process.burst p = Blank.

Definition halfFilledRow (p : Process.t) : Prop :=
  (Process.arrival p = Blank ∧ Process.burst p ≠ Blank)
  ∨ (Process.arrival p ≠ Blank ∧ Process.burst p = Blank).

Definition hasPid (p : Process.t) : Prop := trim (Process.pid p) ≠ EmptyString.

(** U+00A0, the no-break space. *)
Definition noBreakSpace : string :=
  String (Ascii.ascii_of_nat 194) (String (Ascii.ascii_of_nat 160) EmptyString).

(** No schedule is shown and a message is. *)
Definition rejected (v : View.t) : Prop :=
  View.results v = None ∧ View.timeline v = None ∧ View.error v ≠ EmptyString.

(** The process a result was computed for. *)
Definition processOf (r : ProcessResult.t) : ValidProcess.t :=
  ValidProcess.mk (ProcessResult.pid r) (ProcessResult.arrival r)
    (ProcessResult.burst r).

Definition maxArrival (processes : list ValidProcess.t) : Z :=
  foldr (λ p acc, Z.max (ValidProcess.arrival p) acc) 0 processes.

(** Neighbours in a list are related by [P]. *)
Definition adjacent {A : Type} (P : A → A → Prop) (l : list A) : Prop :=
  ∀ i a b, l !! i = Some a → l !! S i = Some b → P a b.

(** A run-length encoding: every block lasts at least one unit and
    neighbouring blocks have different ids. *)
Definition runs (blocks : list Block) : Prop :=
  Forall (λ b, 1 ≤ duration b) blocks
  ∧ adjacent (λ b b', id b ≠ id b') blocks.

Definition sumDurations (blocks : list Block) : Z :=
  foldr (λ b acc, duration b + acc) 0 blocks.

(** The process a row of the form stands for, when both its fields hold a
    number. *)
Definition filledRow (p : Process.t) : option ValidProcess.t :=
  match Process.arrival p, Process.burst p with
  | Num arrival, Num burst => Some (ValidProcess.mk (Process.pid p) arrival burst)
  | _, _ => None
  end.

(** The bounds [simulate] checks before it calls [fcfs]. *)
Definition withinBounds (p : ValidProcess.t) : Prop :=
  0 ≤ ValidProcess.arrival p ≤ MAX_TIME_UNIT
  ∧ 1 ≤ ValidProcess.burst p ≤ MAX_TIME_UNIT.

(** The rows are numbered by position: row [i] has the pid [P(i+1)]. *)
Definition numbered (processes : list Process.t) : Prop :=
  ∀ i p, processes !! i = Some p → Process.pid p = pidOf (i + 1).

(** A field is blank or holds a number that is at least 0. *)
Definition typedField (f : field) : Prop :=
  match f with
  | Blank => True
  | Num n => 0 ≤ n
  | NaN => False
  end.

Definition typedRow (p : Process.t) : Prop :=
  typedField (Process.arrival p) ∧ typedField (Process.burst p).

(** The states of the component that the page can be brought to: the
    inputs of arrival and burst call [updateField], the pid input is
    read-only, and the buttons call the other handlers. *)
Inductive reachable (localeCompare : string → string → Z) : Form.t → Prop :=
  | reach_mount : reachable localeCompare initialForm
  | reach_updateArrival s i value s' :
      reachable localeCompare s →
      updateField i FieldArrival value s = Some s' →
      reachable localeCompare s'
  | reach_updateBurst s i value s' :
      reachable localeCompare s →
      updateField i FieldBurst value s = Some s' →
      reachable localeCompare s'
  | reach_add s :
      reachable localeCompare s → reachable localeCompare (addProcess s)
  | reach_remove s i :
      reachable localeCompare s → reachable localeCompare (removeProcess i s)
  | reach_reset s :
      reachable localeCompare s → reachable localeCompare (resetProcesses s)
  | reach_simulate s :
      reachable localeCompare s →
      reachable localeCompare (onSimulate localeCompare s).

(** The two times of a row. *)
Definition timesOf (p : Process.t) : field * field :=
  (Process.arrival p, Process.burst p).

(** The field of a row that an input of the form edits. *)
Definition timeOf (name : fieldName) (p : Process.t) : field :=
  match name with
  | FieldArrival => Process.arrival p
  | _ => Process.burst p
  end.

(** * Properties *)

(** ** The sort *)

Section SortFacts.
Context {A : Type} (compareFn : A → A → Z).

Lemma insertSorted_Permutation x l : insertSorted compareFn x l ≡ₚ x :: l.
Proof.
  induction l as [|y l IH]; simpl; [done|].
  destruct (compareFn x y <=? 0); [done|].
  rewrite IH. apply Permutation_swap.
Qed.

Lemma sort_Permutation l : sort compareFn l ≡ₚ l.
Proof.
  induction l as [|x l IH]; simpl; [done|].
  by rewrite insertSorted_Permutation, IH.
Qed.

Lemma sort_length l : length (sort compareFn l) = length l.
Proof. by rewrite sort_Permutation. Qed.

Lemma sort_nil_inv l : sort compareFn l = [] → l = [].
Proof.
  intros H. apply Permutation_nil_r. rewrite <- H.
  symmetry. apply sort_Permutation.
Qed.

Hypothesis consistent : consistentComparator compareFn.

Lemma insertSorted_sorted x l :
  StronglySorted (λ a b, compareFn a b ≤ 0) l →
  StronglySorted (λ a b, compareFn a b ≤ 0) (insertSorted compareFn x l).
Proof.
  destruct consistent as [Hflip Htrans].
  induction 1 as [|y l Hs IH Hy]; simpl.
  - repeat constructor.
  - destruct (Z.leb_spec (compareFn x y) 0) as [Hle|Hgt].
    + constructor; [by constructor|].
      constructor; [done|].
      eapply Forall_impl; [exact Hy|]. intros z Hz. by eapply Htrans.
    + constructor; [done|].
      rewrite insertSorted_Permutation. constructor; [|done].
      apply Hflip in Hgt. lia.
Qed.

Lemma sort_sorted l :
  StronglySorted (λ a b, compareFn a b ≤ 0) (sort compareFn l).
Proof.
  induction l as [|x l IH]; simpl; [constructor|]. by apply insertSorted_sorted.
Qed.

(** The sort is stable: the elements that tie with [z] keep the order they
    had in the array. *)
Lemma insertSorted_stable z x l :
  filter (λ y, compareFn z y = 0) (insertSorted compareFn x l)
  = filter (λ y, compareFn z y = 0) (x :: l).
Proof.
  destruct consistent as [Hflip Htrans].
  induction l as [|y l IH]; simpl; [done|].
  destruct (Z.leb_spec (compareFn x y) 0) as [Hle|Hgt]; [done|].
  rewrite (filter_cons _ y), IH, !filter_cons.
  destruct (decide (compareFn z x = 0)) as [Hx|Hx];
    destruct (decide (compareFn z y = 0)) as [Hy|Hy]; try done.
  exfalso.
  assert (Hxz : compareFn x z ≤ 0).
  { destruct (Z.lt_trichotomy (compareFn x z) 0) as [?|[?|Hpos]]; [lia..|].
    apply Hflip in Hpos. lia. }
  pose proof (Htrans x z y Hxz ltac:(lia)). lia.
Qed.

Lemma sort_stable z l :
  filter (λ y, compareFn z y = 0) (sort compareFn l)
  = filter (λ y, compareFn z y = 0) l.
Proof.
  induction l as [|x l IH]; simpl; [done|].
  by rewrite insertSorted_stable, !filter_cons, IH.
Qed.
End SortFacts.

(** ** The loop, unrolled *)

Lemma pushTimes_replicate {A : Type} (n : nat) (x : A) (arr : list A) :
  pushTimes n x arr = arr ++ replicate n x.
Proof.
  revert arr. induction n as [|n IH]; intros arr; simpl.
  - by rewrite app_nil_r.
  - rewrite IH, <- app_assoc. done.
Qed.

Lemma copy_id (p : ValidProcess.t) : copy p = p.
Proof. by destruct p. Qed.

Lemma map_copy_id (processes : list ValidProcess.t) : map copy processes = processes.
Proof.
  induction processes as [|p l IH]; simpl; [done|]. by rewrite copy_id, IH.
Qed.

Lemma fcfs_body_unfold (st : LoopState) (current : ValidProcess.t) :
  fcfs_body st current =
  mkLoop (completionOf (time st) current)
    (timeline st ++ unitsOf (time st) current)
    (done st ++ [resultOf (time st) current]).
Proof.
  unfold fcfs_body, unitsOf, resultOf, completionOf, startOf.
  destruct (Z.gtb_spec (ValidProcess.arrival current) (time st)) as [Hgt|Hle].
  - rewrite !pushTimes_replicate, <- app_assoc. reflexivity.
  - rewrite pushTimes_replicate.
    replace (Z.to_nat (ValidProcess.arrival current - time st)) with 0%nat by lia.
    reflexivity.
Qed.

Lemma fcfs_loop_unfold (procs : list ValidProcess.t) (st : LoopState) :
  fcfs_loop procs st =
  mkLoop (timeAfter (time st) procs)
    (timeline st ++ timelineFrom (time st) procs)
    (done st ++ resultsFrom (time st) procs).
Proof.
  unfold fcfs_loop. revert st.
  induction procs as [|p rest IH]; intros st; simpl.
  - rewrite !app_nil_r. by destruct st.
  - rewrite IH, fcfs_body_unfold. simpl. by rewrite <- !app_assoc.
Qed.

Lemma fcfs_loop_app (pre post : list ValidProcess.t) (st : LoopState) :
  fcfs_loop (pre ++ post) st = fcfs_loop post (fcfs_loop pre st).
Proof. unfold fcfs_loop. apply fold_left_app. Qed.

Lemma fcfs_unfold (localeCompare : string → string → Z)
    (processes : list ValidProcess.t) :
  fcfs localeCompare processes =
  Out.mk (timelineFrom 0 (sort (byArrivalThenPid localeCompare) processes))
    (resultsFrom 0 (sort (byArrivalThenPid localeCompare) processes)).
Proof. unfold fcfs. by rewrite map_copy_id, fcfs_loop_unfold. Qed.

Lemma startOf_ge (t : Z) (p : ValidProcess.t) : t ≤ startOf t p.
Proof. unfold startOf. destruct (Z.gtb_spec (ValidProcess.arrival p) t); lia. Qed.

Lemma startOf_arrival (t : Z) (p : ValidProcess.t) :
  ValidProcess.arrival p ≤ startOf t p.
Proof. unfold startOf. destruct (Z.gtb_spec (ValidProcess.arrival p) t); lia. Qed.

Lemma startOf_max (t : Z) (p : ValidProcess.t) :
  startOf t p = Z.max t (ValidProcess.arrival p).
Proof. unfold startOf. destruct (Z.gtb_spec (ValidProcess.arrival p) t); lia. Qed.

Lemma completionOf_ge (t : Z) (p : ValidProcess.t) :
  0 ≤ ValidProcess.burst p → t ≤ completionOf t p.
Proof. unfold completionOf. pose proof (startOf_ge t p). lia. Qed.

Lemma length_unitsOf (t : Z) (p : ValidProcess.t) :
  0 ≤ ValidProcess.burst p →
  Z.of_nat (length (unitsOf t p)) = completionOf t p - t.
Proof.
  intros Hb. unfold unitsOf, completionOf.
  rewrite length_app, !length_replicate, startOf_max. lia.
Qed.

Lemma timeAfter_ge (procs : list ValidProcess.t) (t : Z) :
  Forall (λ p, 1 ≤ ValidProcess.burst p) procs → t ≤ timeAfter t procs.
Proof.
  intros H. revert t. induction H as [|p rest Hp _ IH]; intros t; simpl; [lia|].
  specialize (IH (completionOf t p)).
  pose proof (completionOf_ge t p). lia.
Qed.

Lemma length_timelineFrom (procs : list ValidProcess.t) (t : Z) :
  Forall (λ p, 1 ≤ ValidProcess.burst p) procs →
  Z.of_nat (length (timelineFrom t procs)) = timeAfter t procs - t.
Proof.
  intros H. revert t. induction H as [|p rest Hp _ IH]; intros t; simpl; [lia|].
  rewrite length_app, Nat2Z.inj_add, IH, length_unitsOf by lia. lia.
Qed.

Lemma last_resultsFrom (procs : list ValidProcess.t) (t : Z) :
  procs ≠ [] →
  ∃ r, last (resultsFrom t procs) = Some r
       ∧ ProcessResult.completion r = timeAfter t procs.
Proof.
  revert t. induction procs as [|p rest IH]; intros t Hne; [done|].
  destruct rest as [|q rest].
  - simpl. eexists. split; [done|]. done.
  - destruct (IH (completionOf t p)) as (r & Hr & Hc); [done|].
    exists r. split; [|exact Hc].
    simpl in *. exact Hr.
Qed.

Lemma resultsFrom_start_ge (procs : list ValidProcess.t) (t : Z) :
  Forall (λ p, 1 ≤ ValidProcess.burst p) procs →
  Forall (λ r, t ≤ ProcessResult.completion r - ProcessResult.burst r)
    (resultsFrom t procs).
Proof.
  intros H. revert t. induction H as [|p rest Hp _ IH]; intros t; simpl.
  - constructor.
  - constructor.
    + simpl. unfold completionOf. pose proof (startOf_ge t p). lia.
    + eapply Forall_impl; [apply IH|]. simpl. intros r Hr.
      pose proof (completionOf_ge t p). lia.
Qed.

(** ** Coverage of the timeline *)

Lemma runsAt_resultOf (t0 : Z) (p : ValidProcess.t) (t : Z) :
  runsAt (resultOf t0 p) t ↔ startOf t0 p ≤ t ∧ t < completionOf t0 p.
Proof. unfold runsAt, resultOf, completionOf. simpl. lia. Qed.

Lemma covered_cons_later (r0 : ProcessResult.t) (results : list ProcessResult.t)
    (t : Z) (u : string) :
  ProcessResult.completion r0 ≤ t →
  covered results t u → covered (r0 :: results) t u.
Proof.
  intros Hlate [[Hu Hnone]|(i & r & Hi & Hu & Hr & Huniq)].
  - left. split; [done|]. intros r [->|Hin]%elem_of_cons.
    + unfold runsAt. lia.
    + by apply Hnone.
  - right. exists (S i), r. split; [done|]. split; [done|]. split; [done|].
    intros [|j] r' Hj Hr'; simpl in Hj.
    + injection Hj as <-. unfold runsAt in Hr'. lia.
    + f_equal. by eapply Huniq.
Qed.

Lemma coverage_from (procs : list ValidProcess.t) (t0 : Z) (k : nat) (u : string) :
  Forall (λ p, 1 ≤ ValidProcess.burst p) procs →
  timelineFrom t0 procs !! k = Some u →
  covered (resultsFrom t0 procs) (t0 + Z.of_nat k) u.
Proof.
  intros H. revert t0 k.
  induction H as [|p rest Hp Hrest IH]; intros t0 k Hk; simpl in *; [done|].
  pose proof (resultsFrom_start_ge rest (completionOf t0 p) Hrest) as Hlater.
  rewrite Forall_forall in Hlater.
  pose proof (startOf_max t0 p) as Hs.
  assert (Hc : completionOf t0 p = startOf t0 p + ValidProcess.burst p) by done.
  apply lookup_app_Some in Hk as [Hk|[Hlen Hk]].
  - unfold unitsOf in Hk.
    apply lookup_app_Some in Hk as [Hk|[Hlen Hk]].
    + apply lookup_replicate in Hk as [-> Hlt].
      left. split; [done|]. intros r [->|Hin]%elem_of_cons.
      * rewrite runsAt_resultOf. lia.
      * apply Hlater in Hin. unfold runsAt. lia.
    + rewrite length_replicate in Hlen, Hk.
      apply lookup_replicate in Hk as [-> Hlt].
      right. exists 0%nat, (resultOf t0 p).
      split; [done|]. split; [done|]. split; [rewrite runsAt_resultOf; lia|].
      intros [|j] r' Hj Hr'; [done|]. simpl in Hj.
      apply list_elem_of_lookup_2, Hlater in Hj. unfold runsAt in Hr'. lia.
  - pose proof (length_unitsOf t0 p ltac:(lia)) as Hlen'.
    apply IH in Hk.
    replace (completionOf t0 p + Z.of_nat (k - length (unitsOf t0 p)))
      with (t0 + Z.of_nat k) in Hk by lia.
    apply covered_cons_later; [simpl; lia|done].
Qed.

(** Each result's pid fills the units of its own run. *)
Lemma run_units_from (procs : list ValidProcess.t) (t0 : Z) (r : ProcessResult.t)
    (t : Z) :
  Forall (λ p, 1 ≤ ValidProcess.burst p) procs →
  r ∈ resultsFrom t0 procs → runsAt r t →
  timelineFrom t0 procs !! Z.to_nat (t - t0) = Some (ProcessResult.pid r).
Proof.
  intros H. revert t0.
  induction H as [|p rest Hp Hrest IH]; intros t0 Hin Hr; simpl in *.
  - by apply elem_of_nil in Hin.
  - pose proof (length_unitsOf t0 p ltac:(lia)) as Hlen.
    pose proof (startOf_max t0 p) as Hs.
    assert (Hc : completionOf t0 p = startOf t0 p + ValidProcess.burst p) by done.
    apply elem_of_cons in Hin as [->|Hin].
    + apply runsAt_resultOf in Hr.
      rewrite lookup_app_l by lia.
      unfold unitsOf. rewrite lookup_app_r; rewrite length_replicate; [|lia].
      apply lookup_replicate. split; [done|]. lia.
    + pose proof (resultsFrom_start_ge rest (completionOf t0 p) Hrest) as Hlater.
      rewrite Forall_forall in Hlater. pose proof (Hlater _ Hin) as Hge.
      unfold runsAt in Hr.
      rewrite lookup_app_r by lia.
      replace (Z.to_nat (t - t0) - length (unitsOf t0 p))%nat
        with (Z.to_nat (t - completionOf t0 p)) by lia.
      by apply IH.
Qed.

(** C1.  For every valid input the timeline of [fcfs] is as long as the
    completion time of the last result, and every unit of time before that
    completion holds a timeline entry that is either [IDLE], no result
    running then, or the pid of the one result running then. *)
Theorem fcfs_timeline_coverage (localeCompare : string → string → Z)
    (processes : list ValidProcess.t) :
  validInput processes →
  let out := fcfs localeCompare processes in
  ∃ r, last (Out.results out) = Some r
       ∧ Z.of_nat (length (Out.timeline out)) = ProcessResult.completion r
       ∧ ∀ t, 0 ≤ t < ProcessResult.completion r →
           ∃ u, Out.timeline out !! Z.to_nat t = Some u
                ∧ covered (Out.results out) t u.
Proof.
  intros [Hne Hvalid] out. subst out. rewrite fcfs_unfold. simpl.
  set (procs := sort (byArrivalThenPid localeCompare) processes).
  assert (Hb : Forall (λ p, 1 ≤ ValidProcess.burst p) procs).
  { unfold procs. rewrite sort_Permutation.
    eapply Forall_impl; [exact Hvalid|]. simpl. intros p Hp. lia. }
  assert (Hne' : procs ≠ []).
  { intros Hnil. apply Hne. by apply sort_nil_inv in Hnil. }
  destruct (last_resultsFrom procs 0 Hne') as (r & Hlast & Hcompl).
  pose proof (length_timelineFrom procs 0 Hb) as Hlen.
  exists r. split; [done|]. split; [lia|].
  intros t Ht.
  destruct (lookup_lt_is_Some_2 (timelineFrom 0 procs) (Z.to_nat t)) as [u Hu]; [lia|].
  exists u. split; [done|].
  apply coverage_from in Hu; [|done].
  by replace (0 + Z.of_nat (Z.to_nat t)) with t in Hu by lia.
Qed.

Lemma fcfs_timeline_coverage_witness :
  let out := fcfs compareUnits
               [ValidProcess.mk "P1" 0 5; ValidProcess.mk "P2" 1 3] in
  ∃ r, last (Out.results out) = Some r
       ∧ Z.of_nat (length (Out.timeline out)) = ProcessResult.completion r
       ∧ ∀ t, 0 ≤ t < ProcessResult.completion r →
           ∃ u, Out.timeline out !! Z.to_nat t = Some u
                ∧ covered (Out.results out) t u.
Proof.
  apply (fcfs_timeline_coverage compareUnits
           [ValidProcess.mk "P1" 0 5; ValidProcess.mk "P2" 1 3]).
  split; [discriminate|]. repeat constructor; simpl; lia.
Defined.

Example covered_idle_gap :
  covered
    (Out.results (fcfs compareUnits [ValidProcess.mk "P1" 2 3])) 1 IDLE
  ∧ covered
      (Out.results (fcfs compareUnits [ValidProcess.mk "P1" 2 3])) 2 "P1".
Proof.
  split.
  - left. split; [done|]. intros r Hr. apply list_elem_of_singleton in Hr as ->.
    unfold runsAt. simpl. unfold completionOf, startOf. simpl. lia.
  - right. exists 0%nat. eexists. split; [reflexivity|]. split; [done|].
    split; [unfold runsAt; simpl; unfold completionOf, startOf; simpl; lia|].
    by intros [|j] r' Hj _.
Qed.

(** ** The metrics of a result *)

Lemma resultsFrom_metrics (procs : list ValidProcess.t) (t : Z) :
  Forall (λ r, 0 ≤ ProcessResult.waiting r
               ∧ ProcessResult.arrival r + ProcessResult.burst r
                 ≤ ProcessResult.completion r
               ∧ ProcessResult.turnaround r
                 = ProcessResult.completion r - ProcessResult.arrival r
               ∧ ProcessResult.waiting r
                 = ProcessResult.turnaround r - ProcessResult.burst r)
    (resultsFrom t procs).
Proof.
  revert t. induction procs as [|p rest IH]; intros t; simpl; constructor.
  - simpl. unfold completionOf. pose proof (startOf_arrival t p). lia.
  - apply IH.
Qed.

(** C3.  For every valid input, every result of [fcfs] has a waiting time of at
    least 0, a completion time of at least arrival plus burst, a
    turnaround equal to completion minus arrival and a waiting time equal
    to turnaround minus burst. *)
Theorem fcfs_result_metrics (localeCompare : string → string → Z)
    (processes : list ValidProcess.t) :
  validInput processes →
  ∀ r, r ∈ Out.results (fcfs localeCompare processes) →
    0 ≤ ProcessResult.waiting r
    ∧ ProcessResult.arrival r + ProcessResult.burst r
      ≤ ProcessResult.completion r
    ∧ ProcessResult.turnaround r
      = ProcessResult.completion r - ProcessResult.arrival r
    ∧ ProcessResult.waiting r
      = ProcessResult.turnaround r - ProcessResult.burst r.
Proof.
  intros _ r Hr. rewrite fcfs_unfold in Hr. simpl in Hr.
  pose proof (resultsFrom_metrics
                (sort (byArrivalThenPid localeCompare) processes) 0) as H.
  rewrite Forall_forall in H. by apply H.
Qed.

Lemma fcfs_result_metrics_witness :
  let r := ProcessResult.mk "P2" 1 3 8 4 7 in
  0 ≤ ProcessResult.waiting r
  ∧ ProcessResult.arrival r + ProcessResult.burst r
    ≤ ProcessResult.completion r
  ∧ ProcessResult.turnaround r
    = ProcessResult.completion r - ProcessResult.arrival r
  ∧ ProcessResult.waiting r
    = ProcessResult.turnaround r - ProcessResult.burst r.
Proof.
  intros r.
  apply (fcfs_result_metrics compareUnits
           [ValidProcess.mk "P1" 0 5; ValidProcess.mk "P2" 1 3]).
  - split; [discriminate|]. repeat constructor; simpl; lia.
  - apply list_elem_of_further, list_elem_of_here.
Defined.

(** ** The order of the results in time *)

Lemma resultsFrom_lookup (procs : list ValidProcess.t) (t : Z) (i : nat) :
  resultsFrom t procs !! i
  = resultOf (timeAfter t (take i procs)) <$> procs !! i.
Proof.
  revert t i. induction procs as [|p rest IH]; intros t [|i]; simpl; done.
Qed.

Lemma resultsFrom_burst (procs : list ValidProcess.t) (t : Z) :
  Forall (λ p, 1 ≤ ValidProcess.burst p) procs →
  Forall (λ r, 1 ≤ ProcessResult.burst r) (resultsFrom t procs).
Proof.
  intros H. revert t. induction H as [|p rest Hp _ IH]; intros t; simpl;
    constructor; [done|apply IH].
Qed.

(** A result has completed when a later one starts. *)
Lemma resultsFrom_ordered (procs : list ValidProcess.t) (t : Z) (i j : nat)
    (r r' : ProcessResult.t) :
  Forall (λ p, 1 ≤ ValidProcess.burst p) procs →
  (i < j)%nat →
  resultsFrom t procs !! i = Some r → resultsFrom t procs !! j = Some r' →
  ProcessResult.completion r
  ≤ ProcessResult.completion r' - ProcessResult.burst r'.
Proof.
  intros H. revert t i j.
  induction H as [|p rest Hp Hrest IH]; intros t i j Hij Hi Hj; [done|].
  destruct j as [|j]; [lia|]. simpl in Hj.
  destruct i as [|i]; simpl in Hi.
  - injection Hi as <-. simpl.
    pose proof (resultsFrom_start_ge rest (completionOf t p) Hrest) as Hlater.
    rewrite Forall_forall in Hlater.
    by apply list_elem_of_lookup_2, Hlater in Hj.
  - eapply (IH (completionOf t p) i j); [lia|done..].
Qed.

(** C9.  For every valid input the completion times of the results of [fcfs]
    increase strictly along the sequence: any result completes strictly
    later than every result before it, the previous one in particular. *)
Theorem fcfs_completion_increasing (localeCompare : string → string → Z)
    (processes : list ValidProcess.t) (i j : nat) (r r' : ProcessResult.t) :
  validInput processes →
  (i < j)%nat →
  Out.results (fcfs localeCompare processes) !! i = Some r →
  Out.results (fcfs localeCompare processes) !! j = Some r' →
  ProcessResult.completion r < ProcessResult.completion r'.
Proof.
  intros [_ Hvalid] Hij. rewrite fcfs_unfold. simpl. intros Hi Hj.
  assert (Hb : Forall (λ p, 1 ≤ ValidProcess.burst p)
                 (sort (byArrivalThenPid localeCompare) processes)).
  { rewrite sort_Permutation.
    eapply Forall_impl; [exact Hvalid|]. simpl. intros p Hp. lia. }
  pose proof (resultsFrom_ordered _ _ _ _ _ _ Hb Hij Hi Hj) as Hord.
  pose proof (resultsFrom_burst _ 0 Hb) as Hburst.
  rewrite Forall_forall in Hburst.
  apply list_elem_of_lookup_2, Hburst in Hj. lia.
Qed.

Lemma fcfs_completion_increasing_witness :
  ProcessResult.completion
    (ProcessResult.mk "P1" 0 5 5 0 5)
  < ProcessResult.completion (ProcessResult.mk "P2" 1 3 8 4 7).
Proof.
  apply (fcfs_completion_increasing compareUnits
           [ValidProcess.mk "P1" 0 5; ValidProcess.mk "P2" 1 3] 0 1).
  - split; [discriminate|]. repeat constructor; simpl; lia.
  - lia.
  - reflexivity.
  - reflexivity.
Defined.

(** ** Idle gaps *)

(** C4.  When the process that comes next in sorted order arrives strictly after
    the clock reached by the processes before it, [fcfs] appends exactly
    arrival minus clock [IDLE] units, then the units of the process, which
    therefore starts at its arrival: it completes at arrival plus burst,
    with waiting 0 and turnaround equal to its burst.  For the single
    process P1 with arrival 2 and burst 3 the timeline is IDLE, IDLE, P1,
    P1, P1 and P1 has completion 5, waiting 0, turnaround 3. *)
Theorem fcfs_idle_gap (localeCompare : string → string → Z)
    (processes pre post : list ValidProcess.t) (current : ValidProcess.t) :
  sort (byArrivalThenPid localeCompare) (map copy processes)
  = pre ++ current :: post →
  let st := fcfs_loop pre (mkLoop 0 [] []) in
  let out := fcfs localeCompare processes in
  let completionTime :=
    ValidProcess.arrival current + ValidProcess.burst current in
  time st < ValidProcess.arrival current →
  (Out.timeline out
   = timeline st
     ++ replicate (Z.to_nat (ValidProcess.arrival current - time st)) IDLE
     ++ replicate (Z.to_nat (ValidProcess.burst current))
          (ValidProcess.pid current)
     ++ timeline (fcfs_loop post (mkLoop completionTime [] [])))
  ∧ Out.results out !! length pre
    = Some (ProcessResult.mk (ValidProcess.pid current)
              (ValidProcess.arrival current) (ValidProcess.burst current)
              completionTime 0 (ValidProcess.burst current))
  ∧ fcfs localeCompare [ValidProcess.mk "P1" 2 3]
    = Out.mk [IDLE; IDLE; "P1"; "P1"; "P1"]
        [ProcessResult.mk "P1" 2 3 5 0 3].
Proof.
  intros Hsorted st out completionTime Hgap.
  split; [|split; [|reflexivity]].
  - subst out. unfold fcfs. rewrite Hsorted, fcfs_loop_app. fold st.
    change (pre ++ current :: post) with (pre ++ [current] ++ post) in Hsorted.
    change (current :: post) with ([current] ++ post).
    rewrite fcfs_loop_app. simpl.
    unfold fcfs_loop at 2. simpl. rewrite fcfs_body_unfold.
    rewrite !fcfs_loop_unfold. simpl.
    unfold completionOf, startOf, unitsOf.
    destruct (Z.gtb_spec (ValidProcess.arrival current) (time st)); [|lia].
    by rewrite <- !app_assoc.
  - subst out. unfold fcfs. rewrite Hsorted, fcfs_loop_app. fold st.
    change (current :: post) with ([current] ++ post).
    rewrite fcfs_loop_app.
    unfold fcfs_loop at 2. simpl. rewrite fcfs_body_unfold.
    rewrite (fcfs_loop_unfold post). simpl.
    assert (Hlen : length (done st) = length pre).
    { unfold st. rewrite fcfs_loop_unfold. simpl.
      clear. generalize 0. induction pre as [|p l IH]; intros t; simpl; [done|].
      by rewrite IH. }
    rewrite <- app_assoc, lookup_app_r by lia.
    rewrite Hlen, Nat.sub_diag. simpl.
    unfold resultOf, completionOf, startOf.
    destruct (Z.gtb_spec (ValidProcess.arrival current) (time st)); [|lia].
    do 2 f_equal; subst completionTime; lia.
Qed.

Lemma fcfs_idle_gap_witness :
  (Out.timeline (fcfs compareUnits [ValidProcess.mk "P1" 2 3])
   = [] ++ replicate 2 IDLE ++ replicate 3 "P1" ++ [])
  ∧ Out.results (fcfs compareUnits [ValidProcess.mk "P1" 2 3]) !! 0%nat
    = Some (ProcessResult.mk "P1" 2 3 5 0 3)
  ∧ fcfs compareUnits [ValidProcess.mk "P1" 2 3]
    = Out.mk [IDLE; IDLE; "P1"; "P1"; "P1"]
        [ProcessResult.mk "P1" 2 3 5 0 3].
Proof.
  apply (fcfs_idle_gap compareUnits [ValidProcess.mk "P1" 2 3]
           [] [] (ValidProcess.mk "P1" 2 3)).
  - reflexivity.
  - simpl. lia.
Defined.

(** ** Conservation of the bursts *)

Lemma filter_replicate_busy (n : nat) (u : string) :
  u ≠ IDLE → filter (λ u, u ≠ IDLE) (replicate n u) = replicate n u.
Proof.
  intros Hu. induction n as [|n IH]; simpl; [done|].
  rewrite filter_cons_True by done. by rewrite IH.
Qed.

Lemma filter_replicate_idle (n : nat) :
  filter (λ u, u ≠ IDLE) (replicate n IDLE) = [].
Proof.
  induction n as [|n IH]; simpl; [done|].
  rewrite filter_cons_False; [done|]. intros H. by apply H.
Qed.

Lemma busyUnits_timelineFrom (procs : list ValidProcess.t) (t : Z) :
  Forall (λ p, 1 ≤ ValidProcess.burst p ∧ ValidProcess.pid p ≠ IDLE) procs →
  busyUnits (timelineFrom t procs) = totalBurst procs.
Proof.
  unfold busyUnits.
  intros H. revert t. induction H as [|p rest [Hb Hp] _ IH]; intros t; simpl; [done|].
  unfold unitsOf.
  rewrite !filter_app, filter_replicate_idle, filter_replicate_busy by done.
  simpl. rewrite length_app, length_replicate, Nat2Z.inj_add, IH. lia.
Qed.

Lemma totalBurst_Permutation (l l' : list ValidProcess.t) :
  l ≡ₚ l' → totalBurst l = totalBurst l'.
Proof.
  induction 1; simpl; lia.
Qed.

(** C6.  For every valid input none of whose pids is the string IDLE, the sum of
    the bursts equals the number of timeline units of [fcfs] that differ
    from [IDLE]. *)
Theorem fcfs_conservation (localeCompare : string → string → Z)
    (processes : list ValidProcess.t) :
  validInput processes →
  Forall (λ p, ValidProcess.pid p ≠ IDLE) processes →
  busyUnits (Out.timeline (fcfs localeCompare processes))
  = totalBurst processes.
Proof.
  intros [_ Hvalid] Hpid. rewrite fcfs_unfold. simpl.
  rewrite busyUnits_timelineFrom.
  - apply totalBurst_Permutation, sort_Permutation.
  - rewrite sort_Permutation.
    rewrite Forall_forall in Hvalid, Hpid. apply Forall_forall. intros p Hp.
    specialize (Hvalid p Hp). specialize (Hpid p Hp). simpl in *. split; [lia|done].
Qed.

Lemma fcfs_conservation_witness :
  busyUnits (Out.timeline (fcfs compareUnits
               [ValidProcess.mk "P1" 2 3; ValidProcess.mk "P2" 0 1]))
  = totalBurst [ValidProcess.mk "P1" 2 3; ValidProcess.mk "P2" 0 1].
Proof.
  apply (fcfs_conservation compareUnits
           [ValidProcess.mk "P1" 2 3; ValidProcess.mk "P2" 0 1]).
  - split; [discriminate|]. repeat constructor; simpl; lia.
  - repeat constructor; simpl; discriminate.
Defined.

(** A process whose pid is the string IDLE is valid input, and its units
    are counted as idle: conservation as stated for every valid input
    fails. *)
Lemma fcfs_conservation_fails_for_pid_IDLE :
  ¬ (∀ (localeCompare : string → string → Z) (processes : list ValidProcess.t),
       validInput processes →
       busyUnits (Out.timeline (fcfs localeCompare processes))
       = totalBurst processes).
Proof.
  intros H.
  specialize (H compareUnits [ValidProcess.mk "IDLE" 0 1]).
  assert (Hvalid : validInput [ValidProcess.mk "IDLE" 0 1]).
  { split; [discriminate|]. repeat constructor; simpl; lia. }
  apply H in Hvalid. vm_compute in Hvalid. discriminate.
Qed.

(** ** The order of execution *)

Lemma byArrivalThenPid_consistent (localeCompare : string → string → Z) :
  consistentComparator localeCompare →
  consistentComparator (byArrivalThenPid localeCompare).
Proof.
  intros [Hflip Htrans]. unfold byArrivalThenPid. split.
  - intros a b.
    destruct (Z.eqb_spec (ValidProcess.arrival a - ValidProcess.arrival b) 0);
    destruct (Z.eqb_spec (ValidProcess.arrival b - ValidProcess.arrival a) 0);
      try lia.
    apply Hflip.
  - intros a b c.
    destruct (Z.eqb_spec (ValidProcess.arrival a - ValidProcess.arrival b) 0);
    destruct (Z.eqb_spec (ValidProcess.arrival b - ValidProcess.arrival c) 0);
    destruct (Z.eqb_spec (ValidProcess.arrival a - ValidProcess.arrival c) 0);
      try lia.
    apply Htrans.
Qed.

Lemma ascii_compare_alt (a b : Ascii.ascii) :
  Ascii.compare a b = (Ascii.N_of_ascii a ?= Ascii.N_of_ascii b)%N.
Proof. reflexivity. Qed.

Lemma string_compare_not_Gt_trans (a b c : string) :
  String.compare a b ≠ Gt → String.compare b c ≠ Gt → String.compare a c ≠ Gt.
Proof.
  revert b c. induction a as [|x a IH]; intros [|y b] [|z c]; simpl; try done.
  rewrite !ascii_compare_alt.
  destruct (N.compare_spec (Ascii.N_of_ascii x) (Ascii.N_of_ascii y)) as [Hxy|Hxy|Hxy];
  destruct (N.compare_spec (Ascii.N_of_ascii y) (Ascii.N_of_ascii z)) as [Hyz|Hyz|Hyz];
  destruct (N.compare_spec (Ascii.N_of_ascii x) (Ascii.N_of_ascii z)) as [Hxz|Hxz|Hxz];
    try done; try lia.
  apply IH.
Qed.

Lemma compareUnits_consistent : consistentComparator compareUnits.
Proof.
  unfold compareUnits. split.
  - intros a b. rewrite (String.compare_antisym b a).
    destruct (String.compare a b); simpl; lia.
  - intros a b c.
    pose proof (string_compare_not_Gt_trans a b c) as H. revert H.
    destruct (String.compare a b); destruct (String.compare b c);
      destruct (String.compare a c); intros H Hab Hbc; try lia;
      exfalso; by apply H.
Qed.

Lemma StronglySorted_lookup {A : Type} (R : A → A → Prop) (l : list A)
    (i j : nat) (x y : A) :
  StronglySorted R l → (i < j)%nat → l !! i = Some x → l !! j = Some y → R x y.
Proof.
  intros H. revert i j.
  induction H as [|z l Hs IH Hz]; intros i j Hij Hi Hj; [done|].
  destruct j as [|j]; [lia|]. simpl in Hj.
  destruct i as [|i]; simpl in Hi.
  - injection Hi as <-. rewrite Forall_forall in Hz.
    by apply Hz, list_elem_of_lookup_2 with j.
  - apply (IH i j); [lia|done..].
Qed.

Lemma compareCollated_consistent : consistentComparator compareCollated.
Proof.
  destruct compareUnits_consistent as [Hflip Htrans]. unfold compareCollated.
  split.
  - intros a b. apply Hflip.
  - intros a b c. apply Htrans.
Qed.

(** In the order [fcfs] runs the processes, one that the comparison function
    of the sort puts strictly first comes first. *)
Lemma sorted_order (localeCompare : string → string → Z)
    (processes : list ValidProcess.t) (i j : nat) (p q : ValidProcess.t) :
  consistentComparator localeCompare →
  sort (byArrivalThenPid localeCompare) processes !! i = Some p →
  sort (byArrivalThenPid localeCompare) processes !! j = Some q →
  byArrivalThenPid localeCompare p q < 0 →
  (i < j)%nat.
Proof.
  intros Hc Hi Hj Hpq.
  pose proof (byArrivalThenPid_consistent _ Hc) as Hc'.
  pose proof (sort_sorted _ Hc' processes) as Hsorted.
  destruct Hc' as [Hflip _]. apply Hflip in Hpq.
  destruct (Nat.lt_trichotomy i j) as [Hlt'|[->|Hgt]]; [done| |].
  - rewrite Hi in Hj. injection Hj as <-.
    pose proof (proj2 (Hflip p p) Hpq). lia.
  - pose proof (StronglySorted_lookup _ _ _ _ _ _ Hsorted Hgt Hj Hi). simpl in *. lia.
Qed.

(** That order is by ascending arrival, and by ascending pid where the
    arrivals are equal. *)
Lemma sorted_by_arrival_then_pid (localeCompare : string → string → Z)
    (processes : list ValidProcess.t) :
  consistentComparator localeCompare →
  StronglySorted
    (λ a b, ValidProcess.arrival a ≤ ValidProcess.arrival b
            ∧ (ValidProcess.arrival a = ValidProcess.arrival b →
               localeCompare (ValidProcess.pid a) (ValidProcess.pid b) ≤ 0))
    (sort (byArrivalThenPid localeCompare) processes).
Proof.
  intros Hc.
  pose proof (sort_sorted _ (byArrivalThenPid_consistent _ Hc) processes) as Hs.
  induction Hs as [|p l _ IH Hp]; constructor; [done|].
  eapply Forall_impl; [exact Hp|]. intros q. simpl. unfold byArrivalThenPid.
  destruct (Z.eqb_spec (ValidProcess.arrival p - ValidProcess.arrival q) 0); lia.
Qed.

(** C2.  [fcfs] runs the processes in the order of the sort by ascending
    arrival, ties broken by ascending pid in the order of [localeCompare]:
    every process of the input has a result; the results stand by ascending
    arrival and, where the arrivals are equal, by ascending pid in that
    order; and a result with a smaller arrival than another, or with the
    same arrival and a pid that [localeCompare] puts first, stands earlier
    in the results than the other.  On valid input it also completes
    strictly earlier, in fact before the other starts, and the timeline
    holds each pid on the units of its own run. *)
Theorem fcfs_execution_order (localeCompare : string → string → Z)
    (processes : list ValidProcess.t) :
  consistentComparator localeCompare →
  let out := fcfs localeCompare processes in
  (∀ x, x ∈ processes →
     ∃ i r, Out.results out !! i = Some r
            ∧ ProcessResult.pid r = ValidProcess.pid x
            ∧ ProcessResult.arrival r = ValidProcess.arrival x)
  ∧ (∀ i j ri rj,
       (i < j)%nat →
       Out.results out !! i = Some ri → Out.results out !! j = Some rj →
       ProcessResult.arrival ri ≤ ProcessResult.arrival rj
       ∧ (ProcessResult.arrival ri = ProcessResult.arrival rj →
          localeCompare (ProcessResult.pid ri) (ProcessResult.pid rj) ≤ 0))
  ∧ (∀ i j rp rq,
       Out.results out !! i = Some rp → Out.results out !! j = Some rq →
       ProcessResult.arrival rp < ProcessResult.arrival rq
       ∨ (ProcessResult.arrival rp = ProcessResult.arrival rq
          ∧ localeCompare (ProcessResult.pid rp) (ProcessResult.pid rq) < 0) →
       (i < j)%nat
       ∧ (validInput processes →
            ProcessResult.completion rp < ProcessResult.completion rq
            ∧ ProcessResult.completion rp
              ≤ ProcessResult.completion rq - ProcessResult.burst rq
            ∧ (∀ t, runsAt rp t →
                 Out.timeline out !! Z.to_nat t = Some (ProcessResult.pid rp))
            ∧ (∀ t, runsAt rq t →
                 Out.timeline out !! Z.to_nat t = Some (ProcessResult.pid rq)))).
Proof.
  intros Hc out. subst out. rewrite fcfs_unfold. simpl.
  set (procs := sort (byArrivalThenPid localeCompare) processes).
  split; [|split].
  - intros x Hx.
    assert (Hx' : x ∈ procs) by (unfold procs; by rewrite sort_Permutation).
    apply list_elem_of_lookup in Hx' as [i Hi].
    exists i, (resultOf (timeAfter 0 (take i procs)) x).
    rewrite resultsFrom_lookup, Hi. done.
  - intros i j ri rj Hij Hi Hj.
    rewrite resultsFrom_lookup in Hi, Hj.
    destruct (procs !! i) as [p'|] eqn:Hi'; [|done].
    destruct (procs !! j) as [q'|] eqn:Hj'; [|done].
    simpl in Hi, Hj. injection Hi as <-. injection Hj as <-. simpl.
    exact (StronglySorted_lookup _ _ _ _ _ _
             (sorted_by_arrival_then_pid localeCompare processes Hc)
             Hij Hi' Hj').
  - intros i j rp rq Hi Hj Hbefore.
    assert (Hij : (i < j)%nat).
    { pose proof Hi as Hi0. pose proof Hj as Hj0.
      rewrite resultsFrom_lookup in Hi0, Hj0.
      destruct (procs !! i) as [p'|] eqn:Hi'; [|done].
      destruct (procs !! j) as [q'|] eqn:Hj'; [|done].
      simpl in Hi0, Hj0. injection Hi0 as <-. injection Hj0 as <-.
      simpl in Hbefore.
      eapply (sorted_order localeCompare processes i j p' q'); try done.
      unfold byArrivalThenPid.
      destruct (Z.eqb_spec (ValidProcess.arrival p' - ValidProcess.arrival q') 0);
        lia. }
    split; [done|]. intros [_ Hvalid].
    assert (Hb : Forall (λ p, 1 ≤ ValidProcess.burst p) procs).
    { unfold procs. rewrite sort_Permutation.
      eapply Forall_impl; [exact Hvalid|]. simpl. intros x Hx. lia. }
    pose proof (resultsFrom_ordered _ _ _ _ _ _ Hb Hij Hi Hj) as Hord.
    pose proof (resultsFrom_burst _ 0 Hb) as Hburst.
    rewrite Forall_forall in Hburst.
    pose proof (Hburst _ (list_elem_of_lookup_2 _ _ _ Hj)) as Hbq.
    split; [lia|]. split; [done|].
    split; intros t Ht.
    + replace (Z.to_nat t) with (Z.to_nat (t - 0)) by (f_equal; lia).
      eapply run_units_from; [done| |done]. by eapply list_elem_of_lookup_2.
    + replace (Z.to_nat t) with (Z.to_nat (t - 0)) by (f_equal; lia).
      eapply run_units_from; [done| |done]. by eapply list_elem_of_lookup_2.
Qed.

Lemma fcfs_execution_order_witness :
  let ra := ProcessResult.mk "a" 0 2 2 0 2 in
  let rB := ProcessResult.mk "B" 0 2 4 2 4 in
  let rA := ProcessResult.mk "A" 1 1 5 3 4 in
  let out := fcfs compareCollated
               [ValidProcess.mk "A" 1 1; ValidProcess.mk "B" 0 2;
                ValidProcess.mk "a" 0 2] in
  Out.results out = [ra; rB; rA]
  ∧ (0 < 1)%nat
  ∧ ProcessResult.completion ra < ProcessResult.completion rB
  ∧ ProcessResult.completion ra
    ≤ ProcessResult.completion rB - ProcessResult.burst rB
  ∧ (∀ t, runsAt ra t → Out.timeline out !! Z.to_nat t = Some "a")
  ∧ (∀ t, runsAt rB t → Out.timeline out !! Z.to_nat t = Some "B")
  ∧ (1 < 2)%nat
  ∧ ProcessResult.completion rB < ProcessResult.completion rA.
Proof.
  intros ra rB rA out.
  destruct (fcfs_execution_order compareCollated
              [ValidProcess.mk "A" 1 1; ValidProcess.mk "B" 0 2;
               ValidProcess.mk "a" 0 2] compareCollated_consistent)
    as (_ & _ & Horder).
  assert (Hvalid : validInput [ValidProcess.mk "A" 1 1; ValidProcess.mk "B" 0 2;
                               ValidProcess.mk "a" 0 2]).
  { split; [discriminate|]. repeat constructor; simpl; lia. }
  split; [reflexivity|].
  destruct (Horder 0%nat 1%nat ra rB) as [Hlt Hrun].
  { reflexivity. }
  { reflexivity. }
  { right. split; reflexivity. }
  destruct (Horder 1%nat 2%nat rB rA) as [Hlt' Hrun'].
  { reflexivity. }
  { reflexivity. }
  { left. reflexivity. }
  destruct (Hrun Hvalid) as (H1 & H2 & H3 & H4).
  destruct (Hrun' Hvalid) as (H1' & _).
  repeat split; assumption.
Defined.

(** With the comparison of the units in place of [localeCompare] the claim
    fails: "B" is below "a" unit by unit, yet the collation runs a, b, B,
    so the process with the smaller id in the order of the units comes
    last.  And without a burst of at least 1 nothing is completed strictly
    first: two processes with burst 0 complete together. *)
Lemma fcfs_tie_break_not_by_units :
  (compareUnits "B" "a" < 0
   ∧ map ProcessResult.pid
       (Out.results
          (fcfs compareCollated
             [ValidProcess.mk "B" 0 1; ValidProcess.mk "a" 0 1;
              ValidProcess.mk "b" 0 1]))
     = ["a"; "b"; "B"])
  ∧ ¬ (∀ (localeCompare : string → string → Z)
         (processes : list ValidProcess.t) (i j : nat)
         (rp rq : ProcessResult.t),
         consistentComparator localeCompare →
         Out.results (fcfs localeCompare processes) !! i = Some rp →
         Out.results (fcfs localeCompare processes) !! j = Some rq →
         ProcessResult.arrival rp = ProcessResult.arrival rq →
         compareUnits (ProcessResult.pid rp) (ProcessResult.pid rq) < 0 →
         (i < j)%nat)
  ∧ ¬ (∀ (localeCompare : string → string → Z)
         (processes : list ValidProcess.t) (i j : nat)
         (rp rq : ProcessResult.t),
         consistentComparator localeCompare →
         Out.results (fcfs localeCompare processes) !! i = Some rp →
         Out.results (fcfs localeCompare processes) !! j = Some rq →
         ProcessResult.arrival rp = ProcessResult.arrival rq →
         localeCompare (ProcessResult.pid rp) (ProcessResult.pid rq) < 0 →
         ProcessResult.completion rp < ProcessResult.completion rq).
Proof.
  split; [split; reflexivity|]. split.
  - intros H.
    specialize (H compareCollated
                  [ValidProcess.mk "B" 0 1; ValidProcess.mk "a" 0 1;
                   ValidProcess.mk "b" 0 1]
                  2%nat 0%nat
                  (ProcessResult.mk "B" 0 1 3 2 3)
                  (ProcessResult.mk "a" 0 1 1 0 1)
                  compareCollated_consistent).
    assert (2 < 0)%nat; [|lia].
    apply H; reflexivity.
  - intros H.
    specialize (H compareCollated
                  [ValidProcess.mk "a" 0 0; ValidProcess.mk "B" 0 0]
                  0%nat 1%nat
                  (ProcessResult.mk "a" 0 0 0 0 0)
                  (ProcessResult.mk "B" 0 0 0 0 0)
                  compareCollated_consistent).
    assert (0 < 0); [|lia].
    apply H; reflexivity.
Qed.

(** ** The compressor *)

Lemma expand_app (l1 l2 : list Block) : expand (l1 ++ l2) = expand l1 ++ expand l2.
Proof. unfold expand. apply flat_map_app. Qed.

Lemma compress_step_expand (acc : list Block) (current : string) :
  Forall (λ b, 1 ≤ duration b) acc →
  expand (compress_step acc current) = expand acc ++ [current]
  ∧ Forall (λ b, 1 ≤ duration b) (compress_step acc current).
Proof.
  intros Hacc. unfold compress_step.
  destruct (decide (length acc = 0%nat)) as [Hnil|Hne].
  - rewrite expand_app. split; [done|].
    apply Forall_app. split; [done|]. apply Forall_singleton. simpl. lia.
  - destruct acc as [|b0 acc0] using rev_ind; [done|]. clear IHacc0.
    rewrite length_app. simpl.
    replace (length acc0 + 1 - 1)%nat with (length acc0) by lia.
    rewrite lookup_app_r, Nat.sub_diag by lia. simpl.
    apply Forall_app in Hacc as [Hacc0 Hb0].
    rewrite Forall_singleton in Hb0.
    destruct (decide (id b0 ≠ current)) as [Hid|Hid].
    + rewrite (expand_app (acc0 ++ [b0])). split; [done|].
      apply Forall_app. split; [|apply Forall_singleton; simpl; lia].
      apply Forall_app. split; [done|]. rewrite Forall_singleton. exact Hb0.
    + apply dec_stable in Hid.
      rewrite insert_app_r_alt, Nat.sub_diag by lia. simpl.
      rewrite !expand_app. split.
      * unfold expand at 2 4. simpl. rewrite !app_nil_r, <- app_assoc. f_equal.
        replace (Z.to_nat (duration b0 + 1)) with (S (Z.to_nat (duration b0))) by lia.
        by rewrite replicate_S_end, Hid.
      * apply Forall_app. split; [done|]. apply Forall_singleton. simpl. lia.
Qed.

Lemma compress_expand (tl : list string) (acc : list Block) :
  Forall (λ b, 1 ≤ duration b) acc →
  expand (fold_left compress_step tl acc) = expand acc ++ tl.
Proof.
  revert acc. induction tl as [|u tl IH]; intros acc Hacc; simpl.
  - by rewrite app_nil_r.
  - destruct (compress_step_expand acc u Hacc) as [Hexp Hdur].
    rewrite IH, Hexp, <- app_assoc by done. done.
Qed.

(** C5.  For every timeline, repeating the id of each block of its compression
    as many times as the block's duration, in block order, gives the
    timeline back; the empty timeline compresses to no block at all. *)
Theorem compress_round_trip (tl : list string) :
  expand <$> compressedTimeline (Some tl) = Some tl
  ∧ compressedTimeline (Some []) = Some [].
Proof.
  split; [|reflexivity]. simpl. f_equal.
  by rewrite compress_expand.
Qed.

(** ** The averages *)

Lemma fold_left_add_sumZ {A : Type} (f : A → Z) (l : list A) (a : Z) :
  fold_left (λ a b, a + f b) l a = a + sumZ (map f l).
Proof.
  revert a. induction l as [|x l IH]; intros a; simpl; [lia|].
  rewrite IH. lia.
Qed.

(** *** Rounding to a double *)

Lemma pow2_pos (e : Z) : (0 < pow2 e)%Q.
Proof. apply Qpower_0_lt. reflexivity. Qed.

Lemma pow2_add (a b : Z) : (pow2 (a + b) == pow2 a * pow2 b)%Q.
Proof. apply Qpower_plus. discriminate. Qed.

Lemma pow2_inject (e : Z) : 0 ≤ e → (pow2 e == inject_Z (2 ^ e))%Q.
Proof. intros He. unfold pow2. by rewrite Zpower_Qpower. Qed.

Lemma pow2_le (a b : Z) : a ≤ b → (pow2 a <= pow2 b)%Q.
Proof. intros Hab. apply Qpower_le_compat_l; [done|discriminate]. Qed.

Lemma pow2_succ (a : Z) : (pow2 (a + 1) == 2 * pow2 a)%Q.
Proof. rewrite pow2_add. unfold pow2 at 2. simpl. ring. Qed.

(** [floorLog2] is the exponent of the power of 2 at or below [q]. *)
Lemma floorLog2_spec (q : Q) :
  (0 < q)%Q →
  (pow2 (floorLog2 q) <= q)%Q ∧ (q < pow2 (floorLog2 q + 1))%Q.
Proof.
  intros Hq. unfold floorLog2.
  destruct q as [a b]. unfold Qlt in Hq. simpl in Hq.
  assert (Ha : 0 < a) by lia. cbn [Qnum Qden].
  set (la := Z.log2 a). set (lb := Z.log2 (Z.pos b)).
  destruct (Z.log2_spec a Ha) as [Ha1 Ha2]. fold la in Ha1, Ha2.
  destruct (Z.log2_spec (Z.pos b) ltac:(lia)) as [Hb1 Hb2]. fold lb in Hb1, Hb2.
  assert (Hla : 0 ≤ la) by apply Z.log2_nonneg.
  assert (Hlb : 0 ≤ lb) by apply Z.log2_nonneg.
  assert (Hq1 : ((a # b) * inject_Z (Z.pos b) == inject_Z a)%Q).
  { unfold Qeq, Qmult, inject_Z. simpl. lia. }
  assert (HA1 : (pow2 la <= inject_Z a)%Q).
  { rewrite pow2_inject by done. by rewrite <- Zle_Qle. }
  assert (HA2 : (inject_Z a < pow2 (la + 1))%Q).
  { rewrite pow2_inject by lia. by rewrite <- Zlt_Qlt. }
  assert (HB1 : (pow2 lb <= inject_Z (Z.pos b))%Q).
  { rewrite pow2_inject by done. by rewrite <- Zle_Qle. }
  assert (HB2 : (inject_Z (Z.pos b) < pow2 (lb + 1))%Q).
  { rewrite pow2_inject by lia. by rewrite <- Zlt_Qlt. }
  pose proof (pow2_pos lb) as Hplb.
  pose proof (pow2_pos (la - lb)) as Hpk.
  pose proof (pow2_pos (la - lb - 1)) as Hpk1.
  assert (Hk : (pow2 la == pow2 (la - lb) * pow2 lb)%Q).
  { rewrite <- pow2_add. by replace (la - lb + lb) with la by lia. }
  assert (Hk1 : (pow2 (la - lb) == 2 * pow2 (la - lb - 1))%Q).
  { rewrite <- pow2_succ. by replace (la - lb - 1 + 1) with (la - lb) by lia. }
  pose proof (pow2_succ la) as Hsa. pose proof (pow2_succ lb) as Hsb.
  pose proof (pow2_succ (la - lb)) as Hsk.
  destruct (Qle_bool (pow2 (la - lb)) (a # b)) eqn:Hle.
  - apply Qle_bool_iff in Hle. split; [done|]. nra.
  - assert (Hlt : (a # b < pow2 (la - lb))%Q).
    { apply Qnot_le_lt. intros H. apply Qle_bool_iff in H. congruence. }
    replace (la - lb - 1 + 1) with (la - lb) by lia. split; [|done].
    nra.
Qed.

Lemma Qabs_cases (x : Q) :
  ((0 <= x)%Q ∧ (Qabs x == x)%Q) ∨ ((x <= 0)%Q ∧ (Qabs x == - x)%Q).
Proof.
  destruct (Qlt_le_dec x 0) as [H|H].
  - right. split; [by apply Qlt_le_weak|]. apply Qabs_neg. by apply Qlt_le_weak.
  - left. split; [done|]. by apply Qabs_pos.
Qed.

Ltac split_abs t :=
  let H := fresh "Habs" in
  let H' := fresh "Hsign" in
  destruct (Qabs_cases t) as [[H' H]|[H' H]].

Lemma roundHalfEven_floor (q : Q) :
  roundHalfEven q = Qfloor q ∨ roundHalfEven q = Qfloor q + 1.
Proof.
  unfold roundHalfEven.
  destruct (_ ?= _)%Q; [destruct (Z.even _)|..]; auto.
Qed.

(** No integer is nearer to [q] than [roundHalfEven q]. *)
Lemma roundHalfEven_nearest (q : Q) (z : Z) :
  (Qabs (inject_Z (roundHalfEven q) - q) <= Qabs (inject_Z z - q))%Q.
Proof.
  pose proof (Qfloor_le q) as Hlo. pose proof (Qlt_floor q) as Hhi.
  rewrite inject_Z_plus in Hhi.
  assert (Hz : (inject_Z z <= inject_Z (Qfloor q))%Q
               ∨ (inject_Z (Qfloor q) + 1 <= inject_Z z)%Q).
  { destruct (Z_le_gt_dec z (Qfloor q)) as [H|H].
    - left. by rewrite <- Zle_Qle.
    - right. rewrite <- (inject_Z_plus _ 1), <- Zle_Qle. lia. }
  unfold roundHalfEven.
  set (f := Qfloor q) in *.
  destruct (Qcompare_spec (q - inject_Z f) (1 # 2)) as [Heq|Hlt|Hgt].
  - destruct (Z.even f); rewrite ?inject_Z_plus;
      match goal with |- (Qabs ?a <= Qabs ?b)%Q => split_abs a; split_abs b end;
      change (inject_Z 1) with 1%Q in *; lra.
  - match goal with |- (Qabs ?a <= Qabs ?b)%Q => split_abs a; split_abs b end; lra.
  - rewrite ?inject_Z_plus;
      match goal with |- (Qabs ?a <= Qabs ?b)%Q => split_abs a; split_abs b end;
      change (inject_Z 1) with 1%Q in *; lra.
Qed.

Lemma roundHalfEven_lower (q : Q) (z : Z) :
  (inject_Z z <= q)%Q → z ≤ roundHalfEven q.
Proof.
  intros Hz. pose proof (Qfloor_resp_le _ _ Hz) as H. rewrite Qfloor_Z in H.
  destruct (roundHalfEven_floor q) as [-> | ->]; lia.
Qed.

Lemma roundHalfEven_upper (q : Q) (z : Z) :
  (q <= inject_Z z)%Q → roundHalfEven q ≤ z.
Proof.
  intros Hz. pose proof (Qfloor_resp_le _ _ Hz) as H. rewrite Qfloor_Z in H.
  destruct (Z.eq_dec (Qfloor q) z) as [Heq|Hne].
  - unfold roundHalfEven. pose proof (Qfloor_le q) as Hlo. rewrite Heq in *.
    destruct (Qcompare_spec (q - inject_Z z) (1 # 2)) as [Heq'|Hlt|Hgt];
      [lra|lia|lra].
  - destruct (roundHalfEven_floor q) as [-> | ->]; lia.
Qed.

(** No double is nearer to [q] than [roundDouble q]: a double with an
    exponent of at least the one chosen for [q] is a multiple of the same
    power of 2, and any other double is smaller in magnitude than the
    least value with that exponent, which is not beyond [q]. *)
Lemma roundDouble_nearest (q : Q) (m e : Z) :
  Z.abs m < 2 ^ 53 → -1074 ≤ e →
  (Qabs (roundDouble q - q) <= Qabs (inject_Z m * pow2 e - q))%Q.
Proof.
  intros Hm He. unfold roundDouble.
  set (L := floorLog2 (Qabs q)).
  set (E := Z.max (L - 52) (-1074)).
  pose proof (pow2_pos E) as HP.
  assert (Hq : (q == (q / pow2 E) * pow2 E)%Q) by (field; lra).
  assert (HL : ¬ (q == 0)%Q → -1074 < E →
               (inject_Z (2 ^ 52) * pow2 E <= Qabs q)%Q).
  { intros Hq0 HE.
    assert (0 < Qabs q)%Q as Hpos.
    { split_abs q; lra. }
    destruct (floorLog2_spec _ Hpos) as [Hlo _]. fold L in Hlo.
    rewrite <- pow2_inject by lia. rewrite <- pow2_add.
    replace (52 + E) with L by lia. done. }
  set (s := (q / pow2 E)%Q) in *. clearbody s.
  set (M := roundHalfEven s).
  destruct (Z_le_gt_dec E e) as [HEe|HEe].
  - (* the other double is a multiple of 2^E too *)
    pose proof (roundHalfEven_nearest s (m * 2 ^ (e - E))) as Hnear. fold M in Hnear.
    assert (Hd : (inject_Z m * pow2 e == inject_Z (m * 2 ^ (e - E)) * pow2 E)%Q).
    { rewrite inject_Z_mult, <- pow2_inject by lia.
      rewrite <- Qmult_assoc, <- pow2_add. by replace (e - E + E) with e by lia. }
    rewrite Hd. set (z := inject_Z (m * 2 ^ (e - E))) in *. clearbody z.
    set (P := pow2 E) in *. clearbody P. clear HL.
    revert Hnear.
    match goal with |- (Qabs ?a <= Qabs ?b)%Q → (Qabs ?c <= Qabs ?d)%Q =>
      split_abs a; split_abs b; split_abs c; split_abs d end;
      intros Hnear; nra.
  - (* the other double is below 2^52 * 2^E in magnitude *)
    assert (HPe : (0 < pow2 e)%Q) by apply pow2_pos.
    assert (HPP : (2 * pow2 e <= pow2 E)%Q).
    { rewrite <- pow2_succ. apply pow2_le. lia. }
    assert (Hm1 : (inject_Z m <= inject_Z (2 ^ 53 - 1))%Q)
      by (rewrite <- Zle_Qle; lia).
    assert (Hm2 : (- inject_Z (2 ^ 53 - 1) <= inject_Z m)%Q)
      by (rewrite <- inject_Z_opp, <- Zle_Qle; lia).
    assert (Hc : (0 < inject_Z (2 ^ 53 - 1))%Q
                 ∧ (inject_Z (2 ^ 53 - 1) < 2 * inject_Z (2 ^ 52))%Q)
      by (split; reflexivity).
    set (d := (inject_Z m * pow2 e)%Q).
    assert (Hd : (- (inject_Z (2 ^ 52) * pow2 E) < d)%Q
                 ∧ (d < inject_Z (2 ^ 52) * pow2 E)%Q).
    { unfold d. destruct Hc as [Hc0 Hc].
      set (C := inject_Z (2 ^ 53 - 1)) in *. set (B := inject_Z (2 ^ 52)) in *.
      set (x := inject_Z m) in *. set (Pe := pow2 e) in *. set (P := pow2 E) in *.
      clearbody C B x Pe P. split; nra. }
    destruct Hd as [Hd2 Hd1].
    clearbody d. clear Hm1 Hm2 HPP HPe Hc.
    destruct (Qeq_dec q 0) as [Hq0|Hq0].
    + pose proof (roundHalfEven_nearest s 0) as Hnear. fold M in Hnear.
      change (inject_Z 0) with 0%Q in Hnear.
      set (P := pow2 E) in *. clearbody P. clear HL.
      revert Hnear.
      match goal with |- (Qabs ?a <= Qabs ?b)%Q → (Qabs ?c <= Qabs ?d)%Q =>
        split_abs a; split_abs b; split_abs c; split_abs d end;
        intros Hnear; nra.
    + specialize (HL Hq0 ltac:(lia)).
      set (P := pow2 E) in *. clearbody P.
      set (B := inject_Z (2 ^ 52)) in *.
      assert (HB : (0 < B)%Q) by done.
      split_abs q.
      * pose proof (roundHalfEven_nearest s (2 ^ 52)) as Hnear.
        fold M in Hnear. fold B in Hnear. clearbody B.
        revert Hnear.
        match goal with |- (Qabs ?a <= Qabs ?b)%Q → (Qabs ?c <= Qabs ?d)%Q =>
          split_abs a; split_abs b; split_abs c; split_abs d end;
          intros Hnear; nra.
      * pose proof (roundHalfEven_nearest s (- 2 ^ 52)) as Hnear.
        fold M in Hnear. rewrite inject_Z_opp in Hnear. fold B in Hnear.
        clearbody B. revert Hnear.
        match goal with |- (Qabs ?a <= Qabs ?b)%Q → (Qabs ?c <= Qabs ?d)%Q =>
          split_abs a; split_abs b; split_abs c; split_abs d end;
          intros Hnear; nra.
Qed.

(** A double is not changed by the rounding. *)
Lemma roundDouble_exact (d : Q) : isDouble d → (roundDouble d == d)%Q.
Proof.
  intros (m & e & Hm & [He _] & Hd).
  pose proof (roundDouble_nearest d m e Hm He) as H.
  revert H.
  match goal with |- (Qabs ?a <= Qabs ?b)%Q → _ => split_abs a; split_abs b end;
    intros H; lra.
Qed.

Lemma floorLog2_zero (q : Q) : (q == 0)%Q → floorLog2 q ≤ 0.
Proof.
  intros Hq. unfold floorLog2.
  assert (Qnum q = 0) as ->.
  { unfold Qeq in Hq. simpl in Hq. lia. }
  pose proof (Z.log2_nonneg (Z.pos (Qden q))).
  change (Z.log2 0) with 0. destruct (Qle_bool _ _); lia.
Qed.

Lemma maxDouble_lt : (maxDouble < pow2 1024)%Q.
Proof.
  unfold maxDouble.
  assert (pow2 1024 == inject_Z (2 ^ 53) * pow2 971)%Q as ->.
  { rewrite <- pow2_inject, <- pow2_add by lia. apply Qeq_refl. }
  pose proof (pow2_pos 971). set (P := pow2 971) in *. clearbody P.
  assert (inject_Z (2 ^ 53 - 1) < inject_Z (2 ^ 53))%Q by reflexivity.
  set (C := inject_Z (2 ^ 53 - 1)) in *. set (B := inject_Z (2 ^ 53)) in *.
  clearbody B C. nra.
Qed.

Lemma scaled_below (q : Q) :
  let E := Z.max (floorLog2 (Qabs q) - 52) (-1074) in
  (Qabs q <= maxDouble)%Q →
  E ≤ 971 ∧ (Qabs q < inject_Z (2 ^ 53) * pow2 E)%Q.
Proof.
  intros E Hmax. subst E. set (L := floorLog2 (Qabs q)).
  pose proof (pow2_pos (Z.max (L - 52) (-1074))) as HP.
  destruct (Qeq_dec q 0) as [Hq0|Hq0].
  - assert (Qabs q == 0)%Q as Ha by (split_abs q; lra).
    split; [pose proof (floorLog2_zero _ Ha); lia|].
    rewrite Ha. set (P := pow2 _) in *. clearbody P.
    assert (0 < inject_Z (2 ^ 53))%Q by reflexivity.
    set (B := inject_Z (2 ^ 53)) in *. clearbody B. nra.
  - assert (0 < Qabs q)%Q as Hpos by (split_abs q; lra).
    destruct (floorLog2_spec _ Hpos) as [Hlo Hhi]. fold L in Hlo, Hhi.
    split.
    + pose proof maxDouble_lt as Hlt.
      assert (pow2 L < pow2 1024)%Q as Hlt' by lra.
      apply Qpower_lt_compat_l_inv in Hlt'; [lia|reflexivity].
    + eapply Qlt_le_trans; [exact Hhi|].
      rewrite <- pow2_inject, <- pow2_add by lia. apply pow2_le. lia.
Qed.

(** Within the range of the doubles the rounding gives a double. *)
Lemma roundDouble_isDouble (q : Q) :
  (Qabs q <= maxDouble)%Q → isDouble (roundDouble q).
Proof.
  intros Hmax. unfold roundDouble.
  destruct (scaled_below q Hmax) as [HE Hs]. revert HE Hs.
  set (E := Z.max (floorLog2 (Qabs q) - 52) (-1074)). intros HE Hs.
  assert (HE' : -1074 ≤ E) by lia.
  pose proof (pow2_pos E) as HP.
  assert (Hq : (q == (q / pow2 E) * pow2 E)%Q) by (field; lra).
  set (s := (q / pow2 E)%Q) in *. clearbody s. clearbody E.
  assert (Hbound : ∀ z : Z,
            (Qabs q <= inject_Z z * pow2 E)%Q →
            - z ≤ roundHalfEven s ≤ z).
  { intros z Hz. split.
    - apply roundHalfEven_lower. rewrite inject_Z_opp.
      set (P := pow2 E) in *. clearbody P. revert Hz.
      split_abs q; intros Hz; nra.
    - apply roundHalfEven_upper.
      set (P := pow2 E) in *. clearbody P. revert Hz.
      split_abs q; intros Hz; nra. }
  set (M := roundHalfEven s) in *.
  assert (HM53 : - 2 ^ 53 ≤ M ≤ 2 ^ 53).
  { apply Hbound. by apply Qlt_le_weak. }
  destruct (Z_lt_ge_dec (Z.abs M) (2 ^ 53)) as [HM|HM].
  - exists M, E. split; [done|]. split; [lia|apply Qeq_refl].
  - assert (HE970 : E ≤ 970).
    { destruct (Z_le_gt_dec E 970) as [|HE971]; [done|]. exfalso.
      assert (E = 971) as HE1 by lia. rewrite HE1 in Hbound.
      specialize (Hbound (2 ^ 53 - 1) Hmax). lia. }
    assert (HM' : M = 2 * 2 ^ 52 ∨ M = 2 * (- 2 ^ 52)) by lia.
    destruct HM' as [-> | ->].
    + exists (2 ^ 52), (E + 1). split; [lia|]. split; [lia|].
      rewrite pow2_succ, inject_Z_mult. change (inject_Z 2) with 2%Q. ring.
    + exists (- 2 ^ 52), (E + 1). split; [lia|]. split; [lia|].
      rewrite pow2_succ, inject_Z_mult. change (inject_Z 2) with 2%Q. ring.
Qed.

(** The division agrees with the one of the standard library's
    specification of IEEE 754 arithmetic, here on quotients that are not
    doubles, on one that is, and on two ties between the smallest
    doubles. *)
Example divide_agrees_with_SFdiv :
  Forall (λ xy, (divide xy.1 xy.2
                 == SF2Q (SpecFloat.SFdiv 53 1024 (Z2SF xy.1) (Z2SF xy.2)))%Q)
    [(1, 3); (2, 3); (4, 3); (1, 10); (-7, 3); (1000001, 7); (12, 4); (0, 4);
     (250500, 501)]
  ∧ (roundDouble (3 * pow2 (-1074) / 2)
     == SF2Q (SpecFloat.SFdiv 53 1024
                (SpecFloat.S754_finite false 3 (-1074)) (Z2SF 2)))%Q
  ∧ (roundDouble (5 * pow2 (-1074) / 2)
     == SF2Q (SpecFloat.SFdiv 53 1024
                (SpecFloat.S754_finite false 5 (-1074)) (Z2SF 2)))%Q.
Proof.
  split; [|split].
  - repeat constructor; unfold Qeq; vm_compute; reflexivity.
  - unfold Qeq. vm_compute. reflexivity.
  - unfold Qeq. vm_compute. reflexivity.
Qed.

Lemma avgW_unfold (results : list ProcessResult.t) :
  results ≠ [] →
  avgW (Some results) = roundDouble (mean (map ProcessResult.waiting results)).
Proof.
  intros Hne. unfold avgW, divide, mean, totalWaiting.
  assert (Hlen : (0 <? Z.of_nat (length results)) = true).
  { apply Z.ltb_lt. destruct results; [done|simpl; lia]. }
  rewrite Hlen, fold_left_add_sumZ, length_map. done.
Qed.

Lemma avgT_unfold (results : list ProcessResult.t) :
  results ≠ [] →
  avgT (Some results) = roundDouble (mean (map ProcessResult.turnaround results)).
Proof.
  intros Hne. unfold avgT, divide, mean, totalTurnaround.
  assert (Hlen : (0 <? Z.of_nat (length results)) = true).
  { apply Z.ltb_lt. destruct results; [done|simpl; lia]. }
  rewrite Hlen, fold_left_add_sumZ, length_map. done.
Qed.

Lemma roundDouble_nearest_double (q d : Q) :
  isDouble d → (Qabs (roundDouble q - q) <= Qabs (d - q))%Q.
Proof.
  intros (m & e & Hm & [He _] & ->). by apply roundDouble_nearest.
Qed.

(** C8.  For every non-empty sequence of results, [avgW] is the arithmetic
    mean of the waiting times rounded to the nearest double: it is what the
    rounding makes of the mean, no double is nearer to the mean, it is a
    double itself when the mean is within the range of the doubles, and it
    is the mean when the mean is a double.  The same holds of [avgT] and
    the turnaround times. *)
Theorem averages_are_rounded_means (results : list ProcessResult.t) :
  results ≠ [] →
  let meanW := mean (map ProcessResult.waiting results) in
  let meanT := mean (map ProcessResult.turnaround results) in
  (avgW (Some results) = roundDouble meanW
   ∧ (∀ d, isDouble d →
        (Qabs (avgW (Some results) - meanW) <= Qabs (d - meanW))%Q)
   ∧ ((Qabs meanW <= maxDouble)%Q → isDouble (avgW (Some results)))
   ∧ (isDouble meanW → (avgW (Some results) == meanW)%Q))
  ∧ (avgT (Some results) = roundDouble meanT
     ∧ (∀ d, isDouble d →
          (Qabs (avgT (Some results) - meanT) <= Qabs (d - meanT))%Q)
     ∧ ((Qabs meanT <= maxDouble)%Q → isDouble (avgT (Some results)))
     ∧ (isDouble meanT → (avgT (Some results) == meanT)%Q)).
Proof.
  intros Hne meanW meanT. subst meanW meanT.
  rewrite (avgW_unfold results Hne), (avgT_unfold results Hne).
  split; (split; [done|]; split; [|split]).
  - intros d. apply roundDouble_nearest_double.
  - apply roundDouble_isDouble.
  - apply roundDouble_exact.
  - intros d. apply roundDouble_nearest_double.
  - apply roundDouble_isDouble.
  - apply roundDouble_exact.
Qed.

Lemma averages_are_rounded_means_witness :
  let results := [ProcessResult.mk "P1" 0 5 5 0 5;
                  ProcessResult.mk "P2" 1 3 8 4 7] in
  ((avgW (Some results) == 2)%Q ∧ isDouble (avgW (Some results)))
  ∧ ((avgT (Some results) == 6)%Q ∧ isDouble (avgT (Some results))).
Proof.
  intros results.
  destruct (averages_are_rounded_means results)
    as [(_ & _ & HdoubleW & HexactW) (_ & _ & HdoubleT & HexactT)].
  { discriminate. }
  split; split.
  - transitivity (mean (map ProcessResult.waiting results));
      [|unfold Qeq; vm_compute; reflexivity].
    apply HexactW. exists 2, 0.
    split; [reflexivity|]. split; [lia|]. unfold Qeq. vm_compute. reflexivity.
  - apply HdoubleW. apply Qle_bool_iff. vm_compute. reflexivity.
  - transitivity (mean (map ProcessResult.turnaround results));
      [|unfold Qeq; vm_compute; reflexivity].
    apply HexactT. exists 6, 0.
    split; [reflexivity|]. split; [lia|]. unfold Qeq. vm_compute. reflexivity.
  - apply HdoubleT. apply Qle_bool_iff. vm_compute. reflexivity.
Defined.

(** The averages are not the means themselves: for the waiting times 0, 1
    and 0 the mean is 1/3, which is no double, and [avgW] is the double
    next to it, 6004799503160661 / 2 ^ 54, shown as 0.3333333333333333. *)
Lemma averages_are_not_exact_means :
  let results :=
    Out.results (fcfs compareUnits
                   [ValidProcess.mk "P1" 0 1; ValidProcess.mk "P2" 0 1;
                    ValidProcess.mk "P3" 2 1]) in
  map ProcessResult.waiting results = [0; 1; 0]
  ∧ (mean [0; 1; 0]%Z == 1 # 3)%Q
  ∧ (avgW (Some results) == 6004799503160661 # 18014398509481984)%Q
  ∧ ¬ (avgW (Some results) == mean (map ProcessResult.waiting results))%Q
  ∧ ¬ (∀ results : list ProcessResult.t,
         results ≠ [] →
         (avgW (Some results) == mean (map ProcessResult.waiting results))%Q
         ∧ (avgT (Some results)
            == mean (map ProcessResult.turnaround results))%Q).
Proof.
  intros results.
  assert (Hne : ¬ (avgW (Some results)
                   == mean (map ProcessResult.waiting results))%Q).
  { unfold Qeq. vm_compute. discriminate. }
  split; [reflexivity|]. split; [reflexivity|].
  split; [unfold Qeq; vm_compute; reflexivity|]. split; [exact Hne|].
  intros H. destruct (H results) as [HW _]; [discriminate|]. exact (Hne HW).
Qed.

(** ** Validation *)

Lemma validate_app (pre post : list Process.t) (acc : list ValidProcess.t) :
  validate (pre ++ post) acc
  = match validate pre acc with
    | inl msg => inl msg
    | inr acc' => validate post acc'
    end.
Proof.
  revert acc. induction pre as [|p pre IH]; intros acc; simpl; [done|].
  destruct (decide (trim (Process.pid p) = EmptyString)); [done|].
  destruct (Process.arrival p), (Process.burst p); try done.
  destruct ((_ <? 0) || (_ <=? 0)); [done|].
  destruct ((_ >? MAX_TIME_UNIT) || (_ >? MAX_TIME_UNIT)); done.
Qed.

Lemma validate_message (processes : list Process.t) (acc : list ValidProcess.t)
    (msg : string) :
  validate processes acc = inl msg → msg ≠ EmptyString.
Proof.
  revert acc. induction processes as [|p rest IH]; intros acc; simpl; [done|].
  destruct (decide (trim (Process.pid p) = EmptyString));
    [by intros [= <-]|].
  destruct (Process.arrival p), (Process.burst p);
    try (by intros [= <-]); try apply IH.
  destruct ((_ <? 0) || (_ <=? 0)); [by intros [= <-]|].
  destruct ((_ >? MAX_TIME_UNIT) || (_ >? MAX_TIME_UNIT));
    [by intros [= <-]|apply IH].
Qed.

Lemma validate_blank_row (p : Process.t) (rest : list Process.t)
    (acc : list ValidProcess.t) :
  hasPid p → blankRow p → validate (p :: rest) acc = validate rest acc.
Proof.
  intros Hpid [Ha Hb]. simpl.
  destruct (decide (trim (Process.pid p) = EmptyString)); [done|].
  by rewrite Ha, Hb.
Qed.

Lemma validate_half_filled_row (p : Process.t) (rest : list Process.t)
    (acc : list ValidProcess.t) :
  hasPid p → halfFilledRow p →
  validate (p :: rest) acc = inl (msgIncomplete (Process.pid p)).
Proof.
  intros Hpid Hhalf. simpl.
  destruct (decide (trim (Process.pid p) = EmptyString)); [done|].
  destruct Hhalf as [[Ha Hb]|[Ha Hb]]; rewrite ?Ha, ?Hb;
    by destruct (Process.arrival p), (Process.burst p).
Qed.

Lemma validate_rejects_half_filled (processes : list Process.t) (p : Process.t)
    (acc : list ValidProcess.t) :
  p ∈ processes → halfFilledRow p → ∃ msg, validate processes acc = inl msg.
Proof.
  intros Hin Hhalf. apply list_elem_of_split in Hin as (pre & post & ->).
  rewrite validate_app. destruct (validate pre acc) as [msg|acc']; [by eexists|].
  destruct (decide (trim (Process.pid p) = EmptyString)) as [Hblank|Hpid].
  - exists msgEmptyPid. simpl.
    by destruct (decide (trim (Process.pid p) = EmptyString)).
  - eexists. by apply validate_half_filled_row.
Qed.

Lemma validate_all_blank (processes : list Process.t) (acc : list ValidProcess.t) :
  Forall blankRow processes →
  validate processes acc = inr acc ∨ validate processes acc = inl msgEmptyPid.
Proof.
  induction 1 as [|p rest [Ha Hb] _ IH]; simpl; [by left|].
  destruct (decide (trim (Process.pid p) = EmptyString)); [by right|].
  by rewrite Ha, Hb.
Qed.

Lemma validate_all_blank_with_pids (processes : list Process.t)
    (acc : list ValidProcess.t) :
  Forall blankRow processes → Forall hasPid processes →
  validate processes acc = inr acc.
Proof.
  induction 1 as [|p rest Hp _ IH]; intros Hpids; [done|].
  apply Forall_cons in Hpids as [Hpid Hpids].
  rewrite validate_blank_row by done. by apply IH.
Qed.

Section SimulateFacts.
Variable localeCompare : string → string → Z.

Lemma simulate_unfold (processes : list Process.t) (v : View.t) :
  simulate localeCompare processes v
  = match validate processes [] with
    | inl msg => View.mk None None msg
    | inr [] => View.mk None None msgNoProcess
    | inr validProcesses =>
        View.mk
          (Some (sort (byPid localeCompare)
                   (Out.results (fcfs localeCompare validProcesses))))
          (Some (Out.timeline (fcfs localeCompare validProcesses)))
          EmptyString
    end.
Proof.
  unfold simulate. destruct (validate processes []) as [msg|[|p l]]; done.
Qed.

Lemma simulate_rejected_or_scheduled (processes : list Process.t) (v : View.t) :
  rejected (simulate localeCompare processes v)
  ∨ ∃ validProcesses,
      validate processes [] = inr validProcesses
      ∧ validProcesses ≠ []
      ∧ simulate localeCompare processes v
        = View.mk
            (Some (sort (byPid localeCompare)
                     (Out.results (fcfs localeCompare validProcesses))))
            (Some (Out.timeline (fcfs localeCompare validProcesses)))
            EmptyString.
Proof.
  rewrite simulate_unfold.
  destruct (validate processes []) as [msg|[|p l]] eqn:Hv.
  - left. repeat split; simpl. by eapply validate_message.
  - left. by repeat split.
  - right. by eexists.
Qed.
End SimulateFacts.

(** ** The scheduler on the store *)

Lemma mapM_agree {A B : Type} (f g : A → option B) (l : list A) :
  (∀ x, x ∈ l → f x = g x) → mapM f l = mapM g l.
Proof.
  induction l as [|x l IH]; intros H; simpl; [done|].
  rewrite (H x) by apply list_elem_of_here.
  rewrite IH; [done|]. intros y Hy. apply H. by apply list_elem_of_further.
Qed.

Lemma mapM_elem_is_Some {A B : Type} (f : A → option B) (l : list A) (k : list B)
    (x : A) :
  mapM f l = Some k → x ∈ l → is_Some (f x).
Proof.
  intros Hk Hx.
  assert (His : is_Some (mapM f l)) by (by eexists).
  apply mapM_is_Some in His. rewrite Forall_forall in His. by apply His.
Qed.

Lemma fresh_unallocated (h : store) : h !! fresh (dom h) = None.
Proof. apply not_elem_of_dom, is_fresh. Qed.

Lemma processAt_insert (h : store) (k l : loc) (o : obj) :
  processAt h k = None → is_Some (processAt h l) →
  processAt (<[k := o]> h) l = processAt h l.
Proof.
  unfold processAt. intros Hk [p Hl].
  destruct (decide (k = l)) as [->|Hne].
  - rewrite Hk in Hl. done.
  - by rewrite lookup_insert_ne.
Qed.

Lemma resultAt_insert (h : store) (k l : loc) (o : obj) :
  resultAt h k = None → is_Some (resultAt h l) →
  resultAt (<[k := o]> h) l = resultAt h l.
Proof.
  unfold resultAt. intros Hk [p Hl].
  destruct (decide (k = l)) as [->|Hne].
  - rewrite Hk in Hl. done.
  - by rewrite lookup_insert_ne.
Qed.

Lemma mapM_processAt_insert (h : store) (k : loc) (o : obj) (refs : list loc)
    (ps : list ValidProcess.t) :
  processAt h k = None → mapM (processAt h) refs = Some ps →
  mapM (processAt (<[k := o]> h)) refs = Some ps.
Proof.
  intros Hk Hps. rewrite <- Hps. apply mapM_agree. intros l Hl.
  apply processAt_insert; [done|]. by eapply mapM_elem_is_Some.
Qed.

Lemma mapM_resultAt_insert (h : store) (k : loc) (o : obj) (refs : list loc)
    (rs : list ProcessResult.t) :
  resultAt h k = None → mapM (resultAt h) refs = Some rs →
  mapM (resultAt (<[k := o]> h)) refs = Some rs.
Proof.
  intros Hk Hrs. rewrite <- Hrs. apply mapM_agree. intros l Hl.
  apply resultAt_insert; [done|]. by eapply mapM_elem_is_Some.
Qed.

Lemma bind_Some {A B : Type} (c : M A) (k : A → M B) (h h' : store) (a : A) :
  c h = Some (a, h') → bind c k h = k a h'.
Proof. unfold bind. by intros ->. Qed.

Lemma readProcess_Some (h : store) (l : loc) (p : ValidProcess.t) :
  processAt h l = Some p → readProcess l h = Some (p, h).
Proof.
  unfold processAt, readProcess, bind, load.
  destruct (h !! l) as [[]|]; try done. by intros [= ->].
Qed.

Lemma readRefs_Some (h : store) (l : loc) (refs : list loc) :
  h !! l = Some (ORefs refs) → readRefs l h = Some (refs, h).
Proof. unfold readRefs, bind, load. by intros ->. Qed.

Lemma readStrings_Some (h : store) (l : loc) (us : list string) :
  h !! l = Some (OStrings us) → readStrings l h = Some (us, h).
Proof. unfold readStrings, bind, load. by intros ->. Qed.

Lemma write_Some (h : store) (l : loc) (o o' : obj) :
  h !! l = Some o → write l o' h = Some (tt, <[l := o']> h).
Proof. unfold write. by intros ->. Qed.

Lemma forEach_readProcess (h : store) (refs : list loc) (ps : list ValidProcess.t) :
  mapM (processAt h) refs = Some ps → forEach readProcess refs h = Some (ps, h).
Proof.
  revert ps. induction refs as [|l refs IH]; intros ps; simpl.
  - by intros [= <-].
  - destruct (processAt h l) as [p|] eqn:Hp; [|done]. simpl.
    destruct (mapM (processAt h) refs) as [ps'|]; [|done]. simpl.
    intros [= <-].
    rewrite (bind_Some _ _ _ _ _ (readProcess_Some _ _ _ Hp)).
    by rewrite (bind_Some _ _ _ _ _ (IH _ eq_refl)).
Qed.

(** [map] with the copying callback: the store only grows, by one object
    per element, and the new references hold the copies. *)
Lemma forEach_copy (h : store) (refs : list loc) (ps : list ValidProcess.t) :
  mapM (processAt h) refs = Some ps →
  ∃ copies h',
    forEach (λ l, let* p := readProcess l in alloc (OProcess (copy p))) refs h
    = Some (copies, h')
    ∧ h ⊆ h'
    ∧ mapM (processAt h') copies = Some (copy <$> ps).
Proof.
  revert h ps. induction refs as [|l refs IH]; intros h ps; simpl.
  - intros [= <-]. by exists [], h.
  - destruct (processAt h l) as [p|] eqn:Hp; [|done]. simpl.
    destruct (mapM (processAt h) refs) as [ps'|] eqn:Hps; [|done]. simpl.
    intros [= <-].
    set (l' := fresh (dom h)).
    set (h1 := <[l' := OProcess (copy p)]> h).
    assert (Hfresh : h !! l' = None) by apply fresh_unallocated.
    assert (Hl' : processAt h l' = None) by (unfold processAt; by rewrite Hfresh).
    destruct (IH h1 ps') as (copies & h' & Hrun & Hsub & Hcopies).
    { by apply mapM_processAt_insert. }
    exists (l' :: copies), h'. split; [|split].
    + rewrite (bind_Some _ _ _ _ _
                 (bind_Some _ _ _ _ _ (readProcess_Some _ _ _ Hp))).
      unfold alloc at 1. fold l'. fold h1.
      by rewrite (bind_Some _ _ _ _ _ Hrun).
    + etrans; [|exact Hsub]. by apply insert_subseteq.
    + simpl. rewrite Hcopies. simpl.
      assert (Hat : processAt h' l' = Some (copy p)).
      { unfold processAt.
        rewrite (lookup_weaken h1 h' l' (OProcess (copy p))); [done| |done].
        unfold h1. by rewrite lookup_insert_eq. }
      by rewrite Hat.
Qed.

Lemma insertSorted_snd {A B : Type} (compareFn : B → B → Z) (x : A * B)
    (l : list (A * B)) :
  (insertSorted (λ a b, compareFn a.2 b.2) x l).*2
  = insertSorted compareFn x.2 l.*2.
Proof.
  induction l as [|y l IH]; simpl; [done|].
  destruct (compareFn x.2 y.2 <=? 0); simpl; [done|]. f_equal. exact IH.
Qed.

Lemma sort_snd {A B : Type} (compareFn : B → B → Z) (l : list (A * B)) :
  (sort (λ a b, compareFn a.2 b.2) l).*2 = sort compareFn l.*2.
Proof.
  induction l as [|x l IH]; [done|].
  change ((insertSorted (λ a b, compareFn a.2 b.2) x
             (sort (λ a b, compareFn a.2 b.2) l)).*2
          = insertSorted compareFn x.2 (sort compareFn l.*2)).
  by rewrite insertSorted_snd, IH.
Qed.

Lemma mapM_fst_snd {A B : Type} (f : A → option B) (l : list (A * B)) :
  Forall (λ xy, f xy.1 = Some xy.2) l → mapM f l.*1 = Some l.*2.
Proof.
  induction 1 as [|[x y] l Hxy _ IH]; [done|].
  rewrite !fmap_cons. cbn [mapM fst snd] in *. by rewrite Hxy, IH.
Qed.

Lemma mapM_zip {A B : Type} (f : A → option B) (l : list A) (k : list B) :
  mapM f l = Some k →
  Forall (λ xy, f xy.1 = Some xy.2) (zip l k) ∧ (zip l k).*2 = k.
Proof.
  intros H%mapM_Some_1. induction H as [|x y l k Hxy _ [IH1 IH2]].
  - by split.
  - split; [by constructor|].
    change ((zip (x :: l) (y :: k)).*2) with (y :: (zip l k).*2).
    by rewrite IH2.
Qed.

(** [sort] in place: only the array itself is overwritten, and it then
    holds the references in sorted order of the objects they point to. *)
Lemma sortInPlace_spec (localeCompare : string → string → Z) (h : store)
    (arr : loc) (refs : list loc) (ps : list ValidProcess.t) :
  h !! arr = Some (ORefs refs) →
  mapM (processAt h) refs = Some ps →
  ∃ sorted,
    sortInPlace localeCompare arr h = Some (arr, <[arr := ORefs sorted]> h)
    ∧ mapM (processAt (<[arr := ORefs sorted]> h)) sorted
      = Some (sort (byArrivalThenPid localeCompare) ps).
Proof.
  intros Harr Hps.
  set (pairs := sort (λ a b, byArrivalThenPid localeCompare a.2 b.2) (zip refs ps)).
  exists pairs.*1. split.
  - unfold sortInPlace.
    rewrite (bind_Some _ _ _ _ _ (readRefs_Some _ _ _ Harr)).
    rewrite (bind_Some _ _ _ _ _ (forEach_readProcess _ _ _ Hps)).
    fold pairs.
    by rewrite (bind_Some _ _ _ _ _ (write_Some _ _ _ (ORefs pairs.*1) Harr)).
  - apply mapM_processAt_insert.
    { unfold processAt. by rewrite Harr. }
    destruct (mapM_zip _ _ _ Hps) as [Hall Hsnd].
    replace (sort (byArrivalThenPid localeCompare) ps) with pairs.*2
      by (unfold pairs; by rewrite sort_snd, Hsnd).
    apply mapM_fst_snd. unfold pairs. by rewrite sort_Permutation.
Qed.

Lemma mapCopy_spec (h : store) (processes : loc) (ps : list ValidProcess.t) :
  processesAt h processes = Some ps →
  ∃ mapped copies h',
    mapCopy processes h = Some (mapped, h')
    ∧ h ⊆ h'
    ∧ h !! mapped = None
    ∧ h' !! mapped = Some (ORefs copies)
    ∧ mapM (processAt h') copies = Some (map copy ps).
Proof.
  unfold processesAt.
  destruct (h !! processes) as [[| |refs|]|] eqn:Harr; try done.
  intros Hps.
  destruct (forEach_copy h refs ps Hps) as (copies & h1 & Hrun & Hsub & Hcopies).
  exists (fresh (dom h1)), copies, (<[fresh (dom h1) := ORefs copies]> h1).
  pose proof (fresh_unallocated h1) as Hfresh.
  split; [|split; [|split; [|split]]].
  - unfold mapCopy.
    rewrite (bind_Some _ _ _ _ _ (readRefs_Some _ _ _ Harr)).
    by rewrite (bind_Some _ _ _ _ _ Hrun).
  - etrans; [exact Hsub|]. by apply insert_subseteq.
  - by eapply lookup_weaken_None.
  - by rewrite lookup_insert_eq.
  - apply mapM_processAt_insert; [|done]. unfold processAt. by rewrite Hfresh.
Qed.

Lemma pushString_spec (h : store) (arr : loc) (us : list string) (x : string) :
  h !! arr = Some (OStrings us) →
  pushString arr x h = Some (tt, <[arr := OStrings (us ++ [x])]> h).
Proof.
  intros Harr. unfold pushString.
  rewrite (bind_Some _ _ _ _ _ (readStrings_Some _ _ _ Harr)).
  by apply write_Some with (OStrings us).
Qed.

Lemma pushTimesM_spec (n : nat) (x : string) (h : store) (arr : loc)
    (us : list string) :
  h !! arr = Some (OStrings us) →
  pushTimesM n x arr h = Some (tt, <[arr := OStrings (pushTimes n x us)]> h).
Proof.
  revert h us. induction n as [|n IH]; intros h us Harr; simpl.
  - unfold ret. by rewrite insert_id.
  - rewrite (bind_Some _ _ _ _ _ (pushString_spec _ _ _ x Harr)).
    rewrite (IH _ (us ++ [x])) by apply lookup_insert_eq.
    by rewrite insert_insert_eq.
Qed.

Lemma pushRef_spec (h : store) (arr : loc) (refs : list loc) (x : loc) :
  h !! arr = Some (ORefs refs) →
  pushRef arr x h = Some (tt, <[arr := ORefs (refs ++ [x])]> h).
Proof.
  intros Harr. unfold pushRef.
  rewrite (bind_Some _ _ _ _ _ (readRefs_Some _ _ _ Harr)).
  by apply write_Some with (ORefs refs).
Qed.

(** One turn of the loop on the store does what [fcfs_body] does on the
    values: it overwrites the two arrays and allocates the new result. *)
Lemma fcfs_bodyM_spec (h : store) (tl dn : loc) (drefs : list loc)
    (st : LoopState) (current : loc) (p : ValidProcess.t) :
  processAt h current = Some p →
  h !! tl = Some (OStrings (timeline st)) →
  h !! dn = Some (ORefs drefs) →
  fcfs_bodyM tl dn (time st) current h
  = Some (time (fcfs_body st p),
          <[dn := ORefs (drefs ++ [fresh (dom h)])]>
            (<[fresh (dom h) := OResult (resultOf (time st) p)]>
               (<[tl := OStrings (timeline (fcfs_body st p))]> h))).
Proof.
  intros Hp Htl Hdn.
  assert (Hne : tl ≠ dn) by (intros ->; rewrite Htl in Hdn; done).
  pose proof (fresh_unallocated h) as Hfresh.
  assert (Hr1 : fresh (dom h) ≠ tl) by (intros E; rewrite E, Htl in Hfresh; done).
  assert (Hr2 : fresh (dom h) ≠ dn) by (intros E; rewrite E, Hdn in Hfresh; done).
  assert (Hdn' : ∀ o1 o2,
            <[fresh (dom h) := o1]> (<[tl := o2]> h) !! dn = Some (ORefs drefs)).
  { intros o1 o2. by rewrite !lookup_insert_ne. }
  unfold fcfs_bodyM.
  rewrite (bind_Some _ _ _ _ _ (readProcess_Some _ _ _ Hp)).
  unfold fcfs_body, resultOf, completionOf, startOf.
  destruct (ValidProcess.arrival p >? time st) eqn:Hgap.
  - set (us1 := pushTimes (Z.to_nat (ValidProcess.arrival p - time st)) IDLE
                  (timeline st)).
    set (us2 := pushTimes (Z.to_nat (ValidProcess.burst p)) (ValidProcess.pid p) us1).
    assert (H1 : bind (pushTimesM (Z.to_nat (ValidProcess.arrival p - time st))
                         IDLE tl) (λ _, ret (ValidProcess.arrival p)) h
                 = Some (ValidProcess.arrival p, <[tl := OStrings us1]> h)).
    { by rewrite (bind_Some _ _ _ _ _ (pushTimesM_spec _ _ _ _ _ Htl)). }
    rewrite (bind_Some _ _ _ _ _ H1).
    rewrite (bind_Some _ _ _ _ _
               (pushTimesM_spec _ _ _ _ us1 (lookup_insert_eq _ _ _))).
    rewrite insert_insert_eq. fold us2.
    unfold bind at 1, alloc at 1.
    rewrite (dom_insert_lookup_L h tl) by (by eexists).
    by rewrite (bind_Some _ _ _ _ _ (pushRef_spec _ dn drefs _ (Hdn' _ _))).
  - set (us2 := pushTimes (Z.to_nat (ValidProcess.burst p)) (ValidProcess.pid p)
                  (timeline st)).
    unfold bind at 1, ret at 1.
    rewrite (bind_Some _ _ _ _ _ (pushTimesM_spec _ _ _ _ _ Htl)). fold us2.
    unfold bind at 1, alloc at 1.
    rewrite (dom_insert_lookup_L h tl) by (by eexists).
    by rewrite (bind_Some _ _ _ _ _ (pushRef_spec _ dn drefs _ (Hdn' _ _))).
Qed.

Lemma fcfs_body_done (st : LoopState) (p : ValidProcess.t) :
  done (fcfs_body st p) = done st ++ [resultOf (time st) p].
Proof. by rewrite fcfs_body_unfold. Qed.

(** The loop on the store: it ends with the clock, the timeline and the
    results of [fcfs_loop], and of the objects allocated before it only the
    two arrays have changed. *)
Lemma fcfs_loopM_spec (refs : list loc) (procs : list ValidProcess.t)
    (h : store) (tl dn : loc) (drefs : list loc) (st : LoopState) :
  mapM (processAt h) refs = Some procs →
  h !! tl = Some (OStrings (timeline st)) →
  h !! dn = Some (ORefs drefs) →
  mapM (resultAt h) drefs = Some (done st) →
  ∃ h',
    fcfs_loopM tl dn (time st) refs h = Some (time (fcfs_loop procs st), h')
    ∧ stringsAt h' tl = Some (timeline (fcfs_loop procs st))
    ∧ resultsAt h' dn = Some (done (fcfs_loop procs st))
    ∧ ∀ l, is_Some (h !! l) → l ≠ tl → l ≠ dn → h' !! l = h !! l.
Proof.
  revert procs h drefs st.
  induction refs as [|current refs IH]; intros procs h drefs st; simpl.
  - intros [= <-] Htl Hdn Hdone. exists h. simpl.
    unfold stringsAt, resultsAt. rewrite Htl, Hdn. done.
  - destruct (processAt h current) as [p|] eqn:Hp; [|done]. simpl.
    destruct (mapM (processAt h) refs) as [procs'|] eqn:Hrest; [|done]. simpl.
    intros [= <-] Htl Hdn Hdone.
    assert (Hne : tl ≠ dn) by (intros ->; rewrite Htl in Hdn; done).
    pose proof (fresh_unallocated h) as Hfresh.
    set (r := fresh (dom h)) in *.
    assert (Hr1 : r ≠ tl) by (intros E; rewrite E, Htl in Hfresh; done).
    assert (Hr2 : r ≠ dn) by (intros E; rewrite E, Hdn in Hfresh; done).
    rewrite (bind_Some _ _ _ _ _ (fcfs_bodyM_spec _ _ _ _ _ _ _ Hp Htl Hdn)).
    fold r.
    set (st1 := fcfs_body st p).
    set (h1 := <[tl := OStrings (timeline st1)]> h).
    set (h2 := <[r := OResult (resultOf (time st) p)]> h1).
    set (h3 := <[dn := ORefs (drefs ++ [r])]> h2).
    destruct (IH procs' h3 (drefs ++ [r]) st1) as (h' & Hrun & Hs & Hr & Hframe).
    + unfold h3, h2, h1.
      apply mapM_processAt_insert.
      { unfold processAt. by rewrite !lookup_insert_ne, Hdn. }
      apply mapM_processAt_insert.
      { unfold processAt. by rewrite lookup_insert_ne, Hfresh. }
      apply mapM_processAt_insert; [|done].
      unfold processAt. by rewrite Htl.
    + unfold h3, h2, h1.
      rewrite lookup_insert_ne by done. rewrite lookup_insert_ne by done.
      by rewrite lookup_insert_eq.
    + unfold h3. by rewrite lookup_insert_eq.
    + assert (Hold : mapM (resultAt h3) drefs = Some (done st)).
      { unfold h3, h2, h1.
        apply mapM_resultAt_insert.
        { unfold resultAt. by rewrite !lookup_insert_ne, Hdn. }
        apply mapM_resultAt_insert.
        { unfold resultAt. by rewrite lookup_insert_ne, Hfresh. }
        apply mapM_resultAt_insert; [|done].
        unfold resultAt. by rewrite Htl. }
      assert (Hnew : resultAt h3 r = Some (resultOf (time st) p)).
      { unfold resultAt, h3, h2.
        by rewrite lookup_insert_ne, lookup_insert_eq. }
      unfold st1. rewrite fcfs_body_done.
      apply mapM_Some_2, Forall2_app.
      * by apply mapM_Some_1.
      * by repeat constructor.
    + exists h'. split; [exact Hrun|]. split; [exact Hs|]. split; [exact Hr|].
      intros l Hl Hl1 Hl2. rewrite Hframe.
      * unfold h3, h2, h1. rewrite !lookup_insert_ne; try done.
        intros <-. rewrite Hfresh in Hl. by destruct Hl.
      * unfold h3, h2, h1. rewrite !lookup_insert_ne; try done.
        intros <-. rewrite Hfresh in Hl. by destruct Hl.
      * done.
      * done.
Qed.

(** C10.  [fcfs] never writes to its argument: called on a reference to an array
    of process objects it returns, and every object of the store before
    the call, the argument array and each of its elements among them, holds
    afterwards what it held before; the arrays it returns hold the
    timeline and the results of [fcfs] on the values. *)
Theorem fcfs_leaves_argument_unchanged (localeCompare : string → string → Z)
    (h : store) (processes : loc) (ps : list ValidProcess.t) :
  processesAt h processes = Some ps →
  ∃ tl dn h',
    fcfsM localeCompare processes h = Some ((tl, dn), h')
    ∧ (∀ l o, h !! l = Some o → h' !! l = Some o)
    ∧ processesAt h' processes = Some ps
    ∧ stringsAt h' tl = Some (Out.timeline (fcfs localeCompare ps))
    ∧ resultsAt h' dn = Some (Out.results (fcfs localeCompare ps)).
Proof.
  intros Hps.
  destruct (mapCopy_spec h processes ps Hps)
    as (mapped & copies & h1 & Hcopy & Hsub1 & Hnew & Hmapped & Hcopies).
  destruct (sortInPlace_spec localeCompare h1 mapped copies _ Hmapped Hcopies)
    as (sorted & Hsort & Hsorted).
  set (h2 := <[mapped := ORefs sorted]> h1) in *.
  set (dn := fresh (dom h2)).
  set (h3 := <[dn := ORefs []]> h2).
  set (tl := fresh (dom h3)).
  set (h4 := <[tl := OStrings []]> h3).
  pose proof (fresh_unallocated h2) as Hdn. fold dn in Hdn.
  pose proof (fresh_unallocated h3) as Htl. fold tl in Htl.
  assert (Htd : tl ≠ dn).
  { intros E. unfold h3 in Htl. rewrite E, lookup_insert_eq in Htl. done. }
  assert (Hpast : ∀ l o, h !! l = Some o → h4 !! l = Some o ∧ l ≠ tl ∧ l ≠ dn).
  { intros l o Hl.
    assert (Hl1 : h1 !! l = Some o) by (by eapply lookup_weaken).
    assert (Hl2 : h2 !! l = Some o).
    { unfold h2. rewrite lookup_insert_ne; [done|]. intros <-. congruence. }
    assert (Hld : l ≠ dn) by (intros ->; congruence).
    assert (Hl3 : h3 !! l = Some o) by (unfold h3; by rewrite lookup_insert_ne).
    assert (Hlt : l ≠ tl) by (intros ->; congruence).
    unfold h4. by rewrite lookup_insert_ne. }
  destruct (fcfs_loopM_spec sorted
              (sort (byArrivalThenPid localeCompare) (map copy ps))
              h4 tl dn [] (mkLoop 0 [] []))
    as (h' & Hloop & Hstrings & Hresults & Hframe).
  { unfold h4.
    apply mapM_processAt_insert; [unfold processAt; by rewrite Htl|].
    unfold h3.
    apply mapM_processAt_insert; [unfold processAt; by rewrite Hdn|]. done. }
  { unfold h4. by rewrite lookup_insert_eq. }
  { unfold h4, h3. rewrite lookup_insert_ne by done. by rewrite lookup_insert_eq. }
  { done. }
  assert (Hkept : ∀ l o, h !! l = Some o → h' !! l = Some o).
  { intros l o Hl. destruct (Hpast l o Hl) as (Hl4 & Hlt & Hld).
    rewrite Hframe; [done| |done..]. by eexists. }
  exists tl, dn, h'. split; [|split; [exact Hkept|split; [|split]]].
  - unfold fcfsM.
    rewrite (bind_Some _ _ _ _ _ Hcopy), (bind_Some _ _ _ _ _ Hsort).
    unfold bind at 1, alloc at 1. fold h2. fold dn. fold h3.
    unfold bind at 1, alloc at 1. fold tl. fold h4.
    assert (Hread : h4 !! mapped = Some (ORefs sorted)).
    { assert (Hmd : dn ≠ mapped).
      { intros E. rewrite E in Hdn. unfold h2 in Hdn.
        by rewrite lookup_insert_eq in Hdn. }
      assert (Hmt : tl ≠ mapped).
      { intros E. rewrite E in Htl. unfold h3, h2 in Htl.
        rewrite lookup_insert_ne in Htl by done.
        by rewrite lookup_insert_eq in Htl. }
      unfold h4, h3, h2.
      rewrite lookup_insert_ne by done. rewrite lookup_insert_ne by done.
      by rewrite lookup_insert_eq. }
    rewrite (bind_Some _ _ _ _ _ (readRefs_Some _ _ _ Hread)).
    simpl in Hloop. by rewrite (bind_Some _ _ _ _ _ Hloop).
  - unfold processesAt in *.
    destruct (h !! processes) as [[| |refs|]|] eqn:Harr; try done.
    rewrite (Hkept _ _ Harr). rewrite <- Hps.
    apply mapM_agree. intros l Hl.
    pose proof (mapM_elem_is_Some _ _ _ _ Hps Hl) as [p Hp].
    unfold processAt in *.
    destruct (h !! l) as [o|] eqn:Hlo; [|done].
    by rewrite (Hkept _ _ Hlo).
  - exact Hstrings.
  - exact Hresults.
Qed.

Lemma fcfs_leaves_argument_unchanged_witness :
  let h : store :=
    <[5%nat := ORefs [1; 2; 1]%nat]>
      (<[1%nat := OProcess (ValidProcess.mk "P2" 0 2)]>
         (<[2%nat := OProcess (ValidProcess.mk "P1" 0 2)]> ∅)) in
  let ps := [ValidProcess.mk "P2" 0 2; ValidProcess.mk "P1" 0 2;
             ValidProcess.mk "P2" 0 2] in
  ∃ tl dn h',
    fcfsM compareUnits 5%nat h = Some ((tl, dn), h')
    ∧ (∀ l o, h !! l = Some o → h' !! l = Some o)
    ∧ processesAt h' 5%nat = Some ps
    ∧ stringsAt h' tl = Some (Out.timeline (fcfs compareUnits ps))
    ∧ resultsAt h' dn = Some (Out.results (fcfs compareUnits ps)).
Proof.
  intros h ps.
  apply (fcfs_leaves_argument_unchanged compareUnits h 5%nat ps).
  vm_compute. reflexivity.
Defined.

(** Sorting the argument itself would have been visible to the caller: the
    store does record writes. *)
Example sortInPlace_overwrites :
  let h : store :=
    <[5%nat := ORefs [1; 2]%nat]>
      (<[1%nat := OProcess (ValidProcess.mk "P2" 0 2)]>
         (<[2%nat := OProcess (ValidProcess.mk "P1" 0 2)]> ∅)) in
  ∃ h', sortInPlace compareUnits 5%nat h = Some (5%nat, h')
        ∧ h !! 5%nat = Some (ORefs [1; 2]%nat)
        ∧ h' !! 5%nat = Some (ORefs [2; 1]%nat).
Proof. intros h. eexists. split; [vm_compute; reflexivity|]. by vm_compute. Qed.

(** ** All-or-nothing validation *)

(** C7.  Validation in [simulate] is all-or-nothing and stops at the first row
    that breaks a rule, the pid of a row being checked before its times: a
    row whose pid is empty or white space only, reached without an earlier
    rejection, aborts with the message about empty pids, whatever its
    arrival and burst are.  A row with a pid and neither arrival nor burst
    is skipped.  A row with a pid and exactly one of the two, reached
    without an earlier rejection, aborts with the message naming it, and a
    batch that has such a row anywhere is rejected.  A batch of blank rows
    only is rejected.  Every run ends either rejected, results and timeline
    null and a message set, or with no message and the schedule of the
    accepted rows; a failed validation always ends the first way.  The row
    P1 with arrival 5 and no burst is rejected as incomplete. *)
Theorem simulate_all_or_nothing (localeCompare : string → string → Z) :
  (∀ pre p post v accepted,
     validate pre [] = inr accepted → ¬ hasPid p →
     simulate localeCompare (pre ++ p :: post) v
     = View.mk None None msgEmptyPid)
  ∧ (∀ pre p post v,
       hasPid p → blankRow p →
       simulate localeCompare (pre ++ p :: post) v
       = simulate localeCompare (pre ++ post) v)
  ∧ (∀ pre p post v accepted,
       validate pre [] = inr accepted → hasPid p → halfFilledRow p →
       simulate localeCompare (pre ++ p :: post) v
       = View.mk None None (msgIncomplete (Process.pid p)))
  ∧ (∀ processes p v,
       p ∈ processes → halfFilledRow p →
       rejected (simulate localeCompare processes v))
  ∧ (∀ processes v,
       Forall blankRow processes →
       rejected (simulate localeCompare processes v)
       ∧ (Forall hasPid processes →
          View.error (simulate localeCompare processes v) = msgNoProcess))
  ∧ (∀ processes v,
       rejected (simulate localeCompare processes v)
       ∨ ∃ validProcesses,
           validate processes [] = inr validProcesses
           ∧ validProcesses ≠ []
           ∧ simulate localeCompare processes v
             = View.mk
                 (Some (sort (byPid localeCompare)
                          (Out.results (fcfs localeCompare validProcesses))))
                 (Some (Out.timeline (fcfs localeCompare validProcesses)))
                 EmptyString)
  ∧ (∀ processes v msg,
       validate processes [] = inl msg →
       simulate localeCompare processes v = View.mk None None msg
       ∧ msg ≠ EmptyString)
  ∧ (∀ v, simulate localeCompare [Process.mk "P1" (Num 5) Blank] v
          = View.mk None None
              "Process P1: Arrival Time and Burst Time must both be filled.").
Proof.
  repeat apply conj.
  - intros pre p post v accepted Hpre Hpid.
    rewrite simulate_unfold, validate_app, Hpre. cbn [validate].
    destruct (decide (trim (Process.pid p) = EmptyString)); [done|].
    by destruct Hpid.
  - intros pre p post v Hpid Hblank. rewrite !simulate_unfold, !validate_app.
    destruct (validate pre []) as [msg|acc]; [done|].
    by rewrite validate_blank_row.
  - intros pre p post v accepted Hpre Hpid Hhalf.
    rewrite simulate_unfold, validate_app, Hpre.
    by rewrite validate_half_filled_row.
  - intros processes p v Hin Hhalf. rewrite simulate_unfold.
    destruct (validate_rejects_half_filled processes p [] Hin Hhalf) as [msg Hmsg].
    rewrite Hmsg. repeat split; simpl. by eapply validate_message.
  - intros processes v Hblank.
    split.
    { rewrite simulate_unfold.
      by destruct (validate_all_blank processes [] Hblank) as [-> | ->]. }
    intros Hpids. rewrite simulate_unfold.
    by rewrite (validate_all_blank_with_pids processes [] Hblank Hpids).
  - apply simulate_rejected_or_scheduled.
  - intros processes v msg Hmsg. rewrite simulate_unfold, Hmsg.
    split; [done|]. by eapply validate_message.
  - intros v. by rewrite simulate_unfold.
Qed.

Lemma simulate_all_or_nothing_witness :
  let v := View.mk None None EmptyString in
  let p1 := Process.mk "P1" (Num 0) (Num 5) in
  let blank := Process.mk "P2" Blank Blank in
  let half := Process.mk "P3" (Num 5) Blank in
  let unnamed := Process.mk (" " +:+ noBreakSpace) (Num 5) NaN in
  simulate compareUnits ([p1] ++ unnamed :: [half]) v
  = View.mk None None msgEmptyPid
  ∧ simulate compareUnits ([p1] ++ blank :: [half]) v
    = simulate compareUnits ([p1] ++ [half]) v
  ∧ simulate compareUnits ([p1] ++ half :: [blank]) v
    = View.mk None None (msgIncomplete "P3")
  ∧ rejected (simulate compareUnits [half; p1] v)
  ∧ rejected (simulate compareUnits [blank; blank] v)
  ∧ View.error (simulate compareUnits [blank; blank] v) = msgNoProcess.
Proof.
  intros v p1 blank half unnamed.
  destruct (simulate_all_or_nothing compareUnits)
    as (Hpid & Hskip & Hhalf & Hany & Hblank & _).
  split; [|split; [|split; [|split; [|split]]]].
  - apply (Hpid [p1] unnamed [half] v [ValidProcess.mk "P1" 0 5]).
    + reflexivity.
    + unfold hasPid. intros Hne. apply Hne. reflexivity.
  - apply (Hskip [p1] blank [half] v).
    + unfold hasPid. simpl. discriminate.
    + split; reflexivity.
  - apply (Hhalf [p1] half [blank] v [ValidProcess.mk "P1" 0 5]).
    + reflexivity.
    + unfold hasPid. simpl. discriminate.
    + right. split; [discriminate|reflexivity].
  - apply (Hany [half; p1] half v).
    + apply list_elem_of_here.
    + right. split; [discriminate|reflexivity].
  - apply (Hblank [blank; blank] v).
    repeat constructor.
  - apply (Hblank [blank; blank] v).
    + repeat constructor.
    + repeat constructor; unfold hasPid; simpl; discriminate.
Defined.

(** A blank row whose pid is blank too is not skipped: the check of the pid
    comes first and aborts the batch.  And a row with only one of arrival
    and burst does not decide the message when an earlier row has already
    been rejected. *)
Lemma simulate_blank_pid_row_not_skipped :
  ¬ (∀ (pre : list Process.t) (p : Process.t) (post : list Process.t) (v : View.t),
       blankRow p →
       simulate compareUnits (pre ++ p :: post) v
       = simulate compareUnits (pre ++ post) v)
  ∧ ¬ (∀ (processes : list Process.t) (p : Process.t) (v : View.t),
         p ∈ processes → halfFilledRow p →
         View.error (simulate compareUnits processes v)
         = msgIncomplete (Process.pid p)).
Proof.
  split.
  - intros H.
    specialize (H [] (Process.mk "" Blank Blank)
                  [Process.mk "P2" (Num 0) (Num 2)]
                  (View.mk None None EmptyString)).
    assert (Hblank : blankRow (Process.mk "" Blank Blank)) by (by split).
    apply H in Hblank. vm_compute in Hblank. discriminate.
  - intros H.
    specialize (H [Process.mk "P1" (Num 600) (Num 1); Process.mk "P2" (Num 5) Blank]
                  (Process.mk "P2" (Num 5) Blank)
                  (View.mk None None EmptyString)).
    assert (Hin : Process.mk "P2" (Num 5) Blank
                  ∈ [Process.mk "P1" (Num 600) (Num 1);
                     Process.mk "P2" (Num 5) Blank]).
    { apply list_elem_of_further, list_elem_of_here. }
    assert (Hhalf : halfFilledRow (Process.mk "P2" (Num 5) Blank)).
    { right. split; [discriminate|reflexivity]. }
    specialize (H Hin Hhalf). vm_compute in H. discriminate.
Qed.

(** * Further properties of the scheduler *)

Lemma processOf_resultOf (t : Z) (p : ValidProcess.t) :
  processOf (resultOf t p) = p.
Proof. by destruct p. Qed.

Lemma processOf_resultsFrom (procs : list ValidProcess.t) (t : Z) :
  map processOf (resultsFrom t procs) = procs.
Proof.
  revert t. induction procs as [|p rest IH]; intros t; simpl; [done|].
  by rewrite processOf_resultOf, IH.
Qed.

(** X1.  Every process of the input has exactly one result, which carries
    its pid, arrival and burst: the results, stripped of the computed
    times, are a permutation of the input. *)
Theorem fcfs_results_permutation (localeCompare : string → string → Z)
    (processes : list ValidProcess.t) :
  map processOf (Out.results (fcfs localeCompare processes)) ≡ₚ processes.
Proof.
  rewrite fcfs_unfold. simpl.
  rewrite processOf_resultsFrom. apply sort_Permutation.
Qed.

Lemma sorted_by_arrival (localeCompare : string → string → Z)
    (processes : list ValidProcess.t) :
  consistentComparator localeCompare →
  StronglySorted (λ a b, ValidProcess.arrival a ≤ ValidProcess.arrival b)
    (sort (byArrivalThenPid localeCompare) processes).
Proof.
  intros Hc.
  pose proof (sort_sorted _ (byArrivalThenPid_consistent _ Hc) processes) as Hs.
  induction Hs as [|p l _ IH Hp]; constructor; [done|].
  eapply Forall_impl; [exact Hp|]. intros q. simpl. unfold byArrivalThenPid.
  destruct (Z.eqb_spec (ValidProcess.arrival p - ValidProcess.arrival q) 0); lia.
Qed.

Lemma valid_bursts (localeCompare : string → string → Z)
    (processes : list ValidProcess.t) :
  validInput processes →
  Forall (λ p, 1 ≤ ValidProcess.burst p)
    (sort (byArrivalThenPid localeCompare) processes).
Proof.
  intros [_ Hvalid]. rewrite sort_Permutation.
  eapply Forall_impl; [exact Hvalid|]. simpl. intros p Hp. lia.
Qed.

(** X2.  First come, first served: with a consistent [localeCompare] and
    valid input, a process that arrives strictly earlier than another has
    its result earlier in the results and has completed when the other
    starts. *)
Theorem fcfs_first_come_first_served (localeCompare : string → string → Z)
    (processes : list ValidProcess.t) (i j : nat) (r r' : ProcessResult.t) :
  consistentComparator localeCompare →
  validInput processes →
  Out.results (fcfs localeCompare processes) !! i = Some r →
  Out.results (fcfs localeCompare processes) !! j = Some r' →
  ProcessResult.arrival r < ProcessResult.arrival r' →
  (i < j)%nat
  ∧ ProcessResult.completion r
    ≤ ProcessResult.completion r' - ProcessResult.burst r'.
Proof.
  intros Hc Hvalid. rewrite fcfs_unfold. simpl. intros Hi Hj Harr.
  set (procs := sort (byArrivalThenPid localeCompare) processes) in *.
  assert (Hij : (i < j)%nat).
  { pose proof (sorted_by_arrival localeCompare processes Hc) as Hs.
    fold procs in Hs.
    pose proof Hi as Hi'. pose proof Hj as Hj'.
    rewrite resultsFrom_lookup in Hi', Hj'.
    destruct (procs !! i) as [p|] eqn:Hpi; [|done].
    destruct (procs !! j) as [q|] eqn:Hpj; [|done].
    simpl in Hi', Hj'. injection Hi' as <-. injection Hj' as <-. simpl in Harr.
    destruct (Nat.lt_trichotomy i j) as [Hlt|[->|Hgt]]; [done| |].
    - rewrite Hpi in Hpj. injection Hpj as <-. lia.
    - pose proof (StronglySorted_lookup _ _ _ _ _ _ Hs Hgt Hpj Hpi). simpl in *. lia. }
  split; [done|].
  eapply resultsFrom_ordered; [|exact Hij|exact Hi|exact Hj].
  by apply valid_bursts.
Qed.

Lemma fcfs_first_come_first_served_witness :
  let r := ProcessResult.mk "P2" 0 2 2 0 2 in
  let r' := ProcessResult.mk "P1" 1 3 5 1 4 in
  (0 < 1)%nat
  ∧ ProcessResult.completion r
    ≤ ProcessResult.completion r' - ProcessResult.burst r'.
Proof.
  intros r r'.
  apply (fcfs_first_come_first_served compareUnits
           [ValidProcess.mk "P1" 1 3; ValidProcess.mk "P2" 0 2] 0 1 r r'
           compareUnits_consistent).
  - split; [discriminate|]. repeat constructor; simpl; lia.
  - reflexivity.
  - reflexivity.
  - simpl. lia.
Defined.

Lemma nothing_waits_from (procs : list ValidProcess.t) (t0 t : Z) :
  StronglySorted (λ a b, ValidProcess.arrival a ≤ ValidProcess.arrival b) procs →
  Forall (λ p, 1 ≤ ValidProcess.burst p) procs →
  t0 ≤ t →
  (∀ r, r ∈ resultsFrom t0 procs → ¬ runsAt r t) →
  ∀ r, r ∈ resultsFrom t0 procs →
    ProcessResult.arrival r ≤ t → ProcessResult.completion r ≤ t.
Proof.
  intros Hs. revert t0.
  induction Hs as [|p rest Hrest IH Hp]; intros t0 Hb Ht0 Hidle r Hr Harr;
    simpl in *.
  - by apply elem_of_nil in Hr.
  - apply Forall_cons in Hb as [Hbp Hb].
    pose proof (startOf_max t0 p) as Hstart.
    assert (Hc : completionOf t0 p = startOf t0 p + ValidProcess.burst p) by done.
    assert (Hfirst : ValidProcess.arrival p ≤ t → completionOf t0 p ≤ t).
    { intros Hap.
      pose proof (Hidle (resultOf t0 p) (list_elem_of_here _ _)) as Hnot.
      rewrite runsAt_resultOf in Hnot. lia. }
    apply elem_of_cons in Hr as [->|Hr].
    + simpl in *. by apply Hfirst.
    + destruct (Z.le_gt_cases (ValidProcess.arrival p) t) as [Hap|Hap].
      * apply (IH (completionOf t0 p)); try done; [by apply Hfirst|].
        intros r' Hr'. apply Hidle. by apply list_elem_of_further.
      * exfalso.
        assert (Hin : processOf r ∈ rest).
        { rewrite <- (processOf_resultsFrom rest (completionOf t0 p)).
          apply list_elem_of_fmap. by exists r. }
        rewrite Forall_forall in Hp. apply Hp in Hin. simpl in Hin. lia.
Qed.

(** X3.  The processor never idles while a process waits: with a
    consistent [localeCompare] and valid input, at a unit of time at which
    no result is running, every process that has arrived has completed. *)
Theorem fcfs_never_idles_while_one_waits (localeCompare : string → string → Z)
    (processes : list ValidProcess.t) (t : Z) :
  consistentComparator localeCompare →
  validInput processes →
  (∀ r, r ∈ Out.results (fcfs localeCompare processes) → ¬ runsAt r t) →
  ∀ r, r ∈ Out.results (fcfs localeCompare processes) →
    ProcessResult.arrival r ≤ t → ProcessResult.completion r ≤ t.
Proof.
  intros Hc Hvalid. rewrite fcfs_unfold. simpl. intros Hidle r Hr Harr.
  destruct (Z.le_gt_cases 0 t) as [Ht|Ht].
  - apply (nothing_waits_from
             (sort (byArrivalThenPid localeCompare) processes) 0 t);
      [by apply sorted_by_arrival|by apply valid_bursts|done..].
  - exfalso.
    assert (Hin : processOf r ∈ processes).
    { rewrite <- (sort_Permutation (byArrivalThenPid localeCompare) processes).
      rewrite <- (processOf_resultsFrom _ 0).
      apply list_elem_of_fmap. by exists r. }
    destruct Hvalid as [_ Hvalid]. rewrite Forall_forall in Hvalid.
    apply Hvalid in Hin. simpl in Hin. lia.
Qed.

Lemma fcfs_never_idles_while_one_waits_witness :
  ProcessResult.completion (ProcessResult.mk "P1" 0 2 2 0 2) ≤ 3.
Proof.
  apply (fcfs_never_idles_while_one_waits compareUnits
           [ValidProcess.mk "P1" 0 2; ValidProcess.mk "P2" 4 1] 3
           compareUnits_consistent).
  - split; [discriminate|]. repeat constructor; simpl; lia.
  - intros r0 Hr0. unfold runsAt.
    apply elem_of_cons in Hr0 as [->|Hr0];
      [simpl; unfold completionOf, startOf; simpl; lia|].
    apply list_elem_of_singleton in Hr0 as ->.
    simpl. unfold completionOf, startOf. simpl. lia.
  - apply list_elem_of_here.
  - simpl. lia.
Defined.

Lemma totalBurst_timeAfter (procs : list ValidProcess.t) (t : Z) :
  Forall (λ p, 1 ≤ ValidProcess.burst p) procs →
  t + totalBurst procs ≤ timeAfter t procs
  ∧ timeAfter t procs ≤ Z.max t (maxArrival procs) + totalBurst procs.
Proof.
  intros H. revert t. induction H as [|p rest Hp _ IH]; intros t; simpl; [lia|].
  destruct (IH (completionOf t p)) as [IH1 IH2].
  unfold completionOf in *. rewrite startOf_max in *. lia.
Qed.

Lemma maxArrival_Permutation (l l' : list ValidProcess.t) :
  l ≡ₚ l' → maxArrival l = maxArrival l'.
Proof. induction 1; simpl; lia. Qed.

(** X4.  For valid input the makespan, the length of the timeline, is at
    least the sum of the bursts and at most the latest arrival plus the sum
    of the bursts. *)
Theorem fcfs_makespan_bounds (localeCompare : string → string → Z)
    (processes : list ValidProcess.t) :
  validInput processes →
  let makespan :=
    Z.of_nat (length (Out.timeline (fcfs localeCompare processes))) in
  totalBurst processes ≤ makespan
  ∧ makespan ≤ maxArrival processes + totalBurst processes.
Proof.
  intros Hvalid makespan. subst makespan. rewrite fcfs_unfold. simpl.
  pose proof (valid_bursts localeCompare processes Hvalid) as Hb.
  rewrite (length_timelineFrom _ 0 Hb).
  destruct (totalBurst_timeAfter _ 0 Hb) as [Hlo Hhi].
  rewrite (totalBurst_Permutation _ _ (sort_Permutation _ processes)) in Hlo, Hhi.
  rewrite (maxArrival_Permutation _ _ (sort_Permutation _ processes)) in Hhi.
  assert (0 ≤ maxArrival processes).
  { clear. induction processes; simpl; lia. }
  lia.
Qed.

Lemma fcfs_makespan_bounds_witness :
  let processes := [ValidProcess.mk "P1" 4 2; ValidProcess.mk "P2" 0 1] in
  let makespan :=
    Z.of_nat (length (Out.timeline (fcfs compareUnits processes))) in
  totalBurst processes ≤ makespan
  ∧ makespan ≤ maxArrival processes + totalBurst processes.
Proof.
  intros processes.
  apply (fcfs_makespan_bounds compareUnits processes).
  split; [discriminate|]. repeat constructor; simpl; lia.
Defined.

(** * Further properties of the compressor *)

Lemma adjacent_snoc {A : Type} (P : A → A → Prop) (l : list A) (x : A) :
  adjacent P (l ++ [x]) ↔ adjacent P l ∧ (∀ a, last l = Some a → P a x).
Proof.
  unfold adjacent. split.
  - intros H. split.
    + intros i a b Hi Hj. apply (H i); by apply lookup_app_l_Some.
    + intros a Ha. apply last_Some in Ha as [l' ->].
      apply (H (length l')).
      * rewrite <- app_assoc. by apply list_lookup_middle.
      * rewrite lookup_app_r; rewrite length_app; simpl; [|lia].
        by replace (S (length l') - (length l' + 1))%nat with 0%nat by lia.
  - intros [Hl Hlast] i a b Hi Hj.
    destruct (decide (S i < length l)%nat) as [Hlt|Hge].
    + rewrite lookup_app_l in Hi, Hj by lia. by apply (Hl i).
    + assert (Hlen : S i = length l).
      { apply lookup_lt_Some in Hj. rewrite length_app in Hj. simpl in Hj. lia. }
      rewrite lookup_app_l in Hi by lia.
      rewrite lookup_app_r, Hlen, Nat.sub_diag in Hj by lia.
      injection Hj as <-. apply Hlast.
      rewrite last_lookup. by replace (pred (length l)) with i by lia.
Qed.

Lemma compress_step_runs (acc : list Block) (current : string) :
  runs acc → runs (compress_step acc current).
Proof.
  intros [Hdur Hadj].
  destruct (compress_step_expand acc current Hdur) as [_ Hdur'].
  split; [exact Hdur'|]. clear Hdur'.
  unfold compress_step.
  destruct (decide (length acc = 0%nat)) as [Hnil|Hne].
  - destruct acc; [|done]. by intros [|i] a b Hi Hj.
  - destruct acc as [|b0 acc0] using rev_ind; [done|]. clear IHacc0.
    rewrite length_app. simpl.
    replace (length acc0 + 1 - 1)%nat with (length acc0) by lia.
    rewrite lookup_app_r, Nat.sub_diag by lia. simpl.
    destruct (decide (id b0 ≠ current)) as [Hid|Hid].
    + apply adjacent_snoc. split; [done|].
      intros a Ha. rewrite last_snoc in Ha. by injection Ha as <-.
    + rewrite insert_app_r_alt, Nat.sub_diag by lia. simpl.
      apply adjacent_snoc in Hadj as [Hadj0 Hlast].
      apply adjacent_snoc. split; [done|]. simpl. exact Hlast.
Qed.

Lemma compress_runs (tl : list string) (acc : list Block) :
  runs acc → runs (fold_left compress_step tl acc).
Proof.
  revert acc. induction tl as [|u tl IH]; intros acc Hacc; simpl; [done|].
  by apply IH, compress_step_runs.
Qed.

Lemma runs_nil : runs [].
Proof. split; [constructor|]. by intros i a b Hi. Qed.

Lemma length_expand (blocks : list Block) :
  Forall (λ b, 1 ≤ duration b) blocks →
  Z.of_nat (length (expand blocks)) = foldr (λ b acc, duration b + acc) 0 blocks
  ∧ (length blocks ≤ length (expand blocks))%nat.
Proof.
  induction 1 as [|b l Hb _ [IH1 IH2]]; simpl; [done|].
  rewrite length_app, length_replicate. split; lia.
Qed.

(** X5.  The compressed timeline is a run-length encoding: every block
    lasts at least one unit, neighbouring blocks have different ids, and
    there are no more blocks than timeline units. *)
Theorem compress_is_run_length (tl : list string) :
  ∃ blocks,
    compressedTimeline (Some tl) = Some blocks
    ∧ runs blocks
    ∧ (length blocks ≤ length tl)%nat.
Proof.
  eexists. split; [reflexivity|].
  pose proof (compress_runs tl [] runs_nil) as Hruns.
  split; [exact Hruns|].
  destruct (length_expand _ (proj1 Hruns)) as [_ Hlen].
  by rewrite compress_expand in Hlen by constructor.
Qed.

Lemma compress_replicate (n : nat) (u : string) (acc : list Block) (k : Z) :
  fold_left compress_step (replicate n u) (acc ++ [mkBlock u k])
  = acc ++ [mkBlock u (k + Z.of_nat n)].
Proof.
  revert k. induction n as [|n IH]; intros k; simpl.
  - by rewrite Z.add_0_r.
  - unfold compress_step at 2.
    destruct (decide (length (acc ++ [mkBlock u k]) = 0%nat)) as [Hnil|_].
    { rewrite length_app in Hnil. simpl in Hnil. lia. }
    rewrite length_app. simpl.
    replace (length acc + 1 - 1)%nat with (length acc) by lia.
    rewrite lookup_app_r, Nat.sub_diag by lia. simpl.
    destruct (decide (u ≠ u)) as [Hne|_]; [done|].
    rewrite insert_app_r_alt, Nat.sub_diag by lia. simpl.
    rewrite IH. do 3 f_equal. lia.
Qed.

Lemma compress_new_run (n : nat) (u : string) (acc : list Block) :
  (∀ a, last acc = Some a → id a ≠ u) →
  fold_left compress_step (replicate (S n) u) acc
  = acc ++ [mkBlock u (Z.of_nat (S n))].
Proof.
  intros Hlast. simpl.
  assert (Hstep : compress_step acc u = acc ++ [mkBlock u 1]).
  { unfold compress_step.
    destruct (decide (length acc = 0%nat)) as [Hnil|Hne]; [done|].
    rewrite Nat.sub_1_r, <- last_lookup.
    destruct (last acc) as [a|] eqn:Ha.
    - destruct (decide (id a ≠ u)) as [_|Hid]; [done|].
      exfalso. by apply Hid, Hlast.
    - apply last_None in Ha. by subst acc. }
  rewrite Hstep, compress_replicate. do 3 f_equal. lia.
Qed.

(** X6.  Compression inverts expansion on run-length encodings: a sequence
    of blocks that each last at least one unit, neighbours having
    different ids, is what the compressor computes from its expansion.
    With the round trip in the other direction, timelines and run-length
    encodings correspond one to one. *)
Theorem compress_expand_runs (blocks : list Block) :
  runs blocks → compressedTimeline (Some (expand blocks)) = Some blocks.
Proof.
  simpl. intros Hruns. f_equal.
  induction blocks as [|b bs IH] using rev_ind; [done|].
  destruct Hruns as [Hdur Hadj].
  apply Forall_app in Hdur as [Hdur Hb]. rewrite Forall_singleton in Hb.
  apply adjacent_snoc in Hadj as [Hadj Hlast].
  rewrite expand_app, fold_left_app, IH by done.
  unfold expand. simpl. rewrite app_nil_r.
  destruct (Z.to_nat (duration b)) as [|n] eqn:Hn; [lia|].
  rewrite compress_new_run by done.
  destruct b as [u d]. simpl in *. do 3 f_equal. lia.
Qed.

Lemma compress_expand_runs_witness :
  compressedTimeline
    (Some (expand [mkBlock IDLE 2; mkBlock "P1" 3; mkBlock IDLE 1]))
  = Some [mkBlock IDLE 2; mkBlock "P1" 3; mkBlock IDLE 1].
Proof.
  apply (compress_expand_runs [mkBlock IDLE 2; mkBlock "P1" 3; mkBlock IDLE 1]).
  split.
  - repeat constructor; simpl; lia.
  - intros [|[|[|i]]] a b Hi Hj; simpl in *;
      try discriminate; injection Hi as <-; injection Hj as <-; discriminate.
Defined.

(** * The labels of the chart *)

Lemma sumDurations_app (l1 l2 : list Block) :
  sumDurations (l1 ++ l2) = sumDurations l1 + sumDurations l2.
Proof. induction l1 as [|b l IH]; simpl; [done|]. unfold sumDurations in *. simpl. lia. Qed.

Lemma labels_fold (blocks : list Block) :
  let st := fold_left labels_step blocks (0, [Label.mk 0 0]) in
  st.1 = sumDurations blocks
  ∧ length st.2 = S (length blocks)
  ∧ ∀ k lab, st.2 !! k = Some lab →
      Label.x lab = Label.time lab
      ∧ Label.time lab = sumDurations (take k blocks).
Proof.
  induction blocks as [|b bs IH] using rev_ind; simpl.
  - split; [done|]. split; [done|]. intros [|k] lab Hk; [|done].
    injection Hk as <-. by rewrite take_nil.
  - rewrite fold_left_app. simpl in *.
    destruct (fold_left labels_step bs (0, [Label.mk 0 0])) as [t ls].
    destruct IH as (Ht & Hlen & Hls). simpl in *.
    assert (Hsum : t + duration b = sumDurations (bs ++ [b])).
    { rewrite sumDurations_app, Ht. unfold sumDurations. simpl. lia. }
    split; [done|]. split; [rewrite !length_app; simpl; lia|].
    intros k lab Hk. apply lookup_app_Some in Hk as [Hk|[Hge Hk]].
    + destruct (Hls k lab Hk) as [Hx Htime]. split; [done|].
      rewrite take_app_le; [done|]. apply lookup_lt_Some in Hk. lia.
    + apply list_lookup_singleton_Some in Hk as [Hk <-]. simpl.
      split; [done|]. rewrite take_ge; [done|]. rewrite length_app. simpl. lia.
Qed.

(** X7.  The labels of the chart mark the block boundaries of the
    timeline: there is one more label than blocks, each label has [x]
    equal to [time], and label [k] stands at the time at which the first
    [k] blocks have covered exactly the first [time] units of the
    timeline. *)
Theorem timeLabels_mark_block_boundaries (tl : list string) :
  ∃ blocks,
    compressedTimeline (Some tl) = Some blocks
    ∧ length (timeLabels (Some blocks)) = S (length blocks)
    ∧ ∀ k lab, timeLabels (Some blocks) !! k = Some lab →
        Label.x lab = Label.time lab
        ∧ 0 ≤ Label.time lab ≤ Z.of_nat (length tl)
        ∧ expand (take k blocks) = take (Z.to_nat (Label.time lab)) tl.
Proof.
  eexists. split; [reflexivity|].
  set (blocks := fold_left compress_step tl []).
  pose proof (compress_runs tl [] runs_nil) as [Hdur _]. fold blocks in Hdur.
  pose proof (compress_expand tl [] ltac:(constructor)) as Hexp.
  fold blocks in Hexp. simpl in Hexp.
  destruct (labels_fold blocks) as (_ & Hlen & Hls).
  split; [exact Hlen|].
  intros k lab Hk. destruct (Hls k lab Hk) as [Hx Htime].
  split; [exact Hx|].
  destruct (length_expand (take k blocks)) as [Hlenk _].
  { by apply Forall_take. }
  fold (sumDurations (take k blocks)) in Hlenk.
  assert (Hsplit : tl = expand (take k blocks) ++ expand (drop k blocks)).
  { by rewrite <- expand_app, take_drop. }
  split.
  - pose proof (f_equal length Hsplit) as Hl. rewrite length_app in Hl. lia.
  - rewrite Htime, <- Hlenk, Nat2Z.id.
    transitivity (take (length (expand (take k blocks)))
                    (expand (take k blocks) ++ expand (drop k blocks))).
    + by rewrite take_app_length.
    + by rewrite <- Hsplit.
Qed.

(** X8.  The total execution time shown under the chart, the sum of the
    durations of the blocks, is the length of the timeline. *)
Theorem totalDuration_is_timeline_length (tl : list string) :
  totalDuration (compressedTimeline (Some tl)) = Z.of_nat (length tl).
Proof.
  unfold totalDuration. simpl.
  destruct (labels_fold (fold_left compress_step tl [])) as (Ht & _).
  rewrite Ht.
  pose proof (compress_runs tl [] runs_nil) as [Hdur _].
  destruct (length_expand _ Hdur) as [Hlen _].
  rewrite compress_expand in Hlen by constructor. simpl in Hlen.
  unfold sumDurations. lia.
Qed.

(** * What [simulate] hands to the scheduler *)

Lemma validate_accepted (processes : list Process.t)
    (acc validProcesses : list ValidProcess.t) :
  validate processes acc = inr validProcesses →
  validProcesses = acc ++ omap filledRow processes
  ∧ Forall withinBounds (omap filledRow processes)
  ∧ Forall (λ p, hasPid p ∧ (blankRow p ∨ is_Some (filledRow p))) processes.
Proof.
  revert acc. induction processes as [|p rest IH]; intros acc.
  - intros [= <-]. by rewrite app_nil_r.
  - cbn [validate].
    change (omap filledRow (p :: rest))
      with (match filledRow p with
            | Some y => y :: omap filledRow rest
            | None => omap filledRow rest
            end).
    destruct (decide (trim (Process.pid p) = EmptyString)) as [|Hpid]; [done|].
    destruct (Process.arrival p) as [|a|] eqn:Ha,
             (Process.burst p) as [|b|] eqn:Hb; try done.
    + assert (Hf : filledRow p = None) by (unfold filledRow; by rewrite Ha).
      rewrite Hf.
      intros H. destruct (IH _ H) as (-> & Hbounds & Hrows).
      split; [done|]. split; [done|]. constructor; [|done].
      split; [done|]. by left.
    + assert (Hf : filledRow p = Some (ValidProcess.mk (Process.pid p) a b))
        by (unfold filledRow; by rewrite Ha, Hb).
      rewrite Hf.
      destruct (Z.ltb_spec a 0), (Z.leb_spec b 0); simpl; try done.
      destruct (Z.gtb_spec a MAX_TIME_UNIT), (Z.gtb_spec b MAX_TIME_UNIT);
        simpl; try done.
      intros Hv. destruct (IH _ Hv) as (-> & Hbounds & Hrows).
      split; [by rewrite <- app_assoc|]. split.
      * constructor; [|done]. unfold withinBounds. simpl. lia.
      * constructor; [|done]. split; [done|]. right. rewrite Hf. by eexists.
Qed.

(** X9.  When validation succeeds, the processes handed to [fcfs] are
    exactly the rows with both fields filled, in the order of the form and
    with their pid, arrival and burst; each is within the bounds, and
    every row of the form has a pid and is either blank or filled. *)
Theorem validate_accepts_the_filled_rows (processes : list Process.t)
    (validProcesses : list ValidProcess.t) :
  validate processes [] = inr validProcesses →
  validProcesses = omap filledRow processes
  ∧ Forall withinBounds validProcesses
  ∧ Forall (λ p, hasPid p ∧ (blankRow p ∨ is_Some (filledRow p))) processes.
Proof.
  intros H. destruct (validate_accepted _ _ _ H) as (-> & Hbounds & Hrows).
  done.
Qed.

Lemma validate_accepts_the_filled_rows_witness :
  [ValidProcess.mk "P1" 0 5; ValidProcess.mk "P3" 1 3]
  = omap filledRow
      [Process.mk "P1" (Num 0) (Num 5); Process.mk "P2" Blank Blank;
       Process.mk "P3" (Num 1) (Num 3)]
  ∧ Forall withinBounds [ValidProcess.mk "P1" 0 5; ValidProcess.mk "P3" 1 3]
  ∧ Forall (λ p, hasPid p ∧ (blankRow p ∨ is_Some (filledRow p)))
      [Process.mk "P1" (Num 0) (Num 5); Process.mk "P2" Blank Blank;
       Process.mk "P3" (Num 1) (Num 3)].
Proof.
  apply (validate_accepts_the_filled_rows
           [Process.mk "P1" (Num 0) (Num 5); Process.mk "P2" Blank Blank;
            Process.mk "P3" (Num 1) (Num 3)]).
  reflexivity.
Defined.

Lemma withinBounds_validInput (validProcesses : list ValidProcess.t) :
  validProcesses ≠ [] → Forall withinBounds validProcesses →
  validInput validProcesses.
Proof.
  intros Hne Hb. split; [done|].
  eapply Forall_impl; [exact Hb|]. unfold withinBounds. simpl. intros p. lia.
Qed.

(** X10.  [simulate] shows a schedule only for valid input: whenever
    results are shown, validation has accepted a non-empty list of
    processes within the bounds, the timeline shown is the one [fcfs]
    computes for them, the results shown are a permutation of the results
    of [fcfs], and no error message is left. *)
Theorem simulate_schedules_valid_input (localeCompare : string → string → Z)
    (processes : list Process.t) (v : View.t) (rs : list ProcessResult.t) :
  View.results (simulate localeCompare processes v) = Some rs →
  ∃ validProcesses,
    validate processes [] = inr validProcesses
    ∧ validInput validProcesses
    ∧ Forall withinBounds validProcesses
    ∧ rs ≡ₚ Out.results (fcfs localeCompare validProcesses)
    ∧ View.timeline (simulate localeCompare processes v)
      = Some (Out.timeline (fcfs localeCompare validProcesses))
    ∧ View.error (simulate localeCompare processes v) = EmptyString.
Proof.
  rewrite simulate_unfold.
  destruct (validate processes []) as [msg|[|p l]] eqn:Hv; try done.
  simpl. intros [= <-]. exists (p :: l).
  destruct (validate_accepted _ _ _ Hv) as (Heq & Hbounds & _).
  simpl in Heq. rewrite <- Heq in Hbounds.
  split; [done|]. split; [by apply withinBounds_validInput|].
  split; [done|]. split; [apply sort_Permutation|]. done.
Qed.

Lemma simulate_schedules_valid_input_witness :
  ∃ validProcesses,
    validate [Process.mk "P1" (Num 2) (Num 3)] [] = inr validProcesses
    ∧ validInput validProcesses
    ∧ Forall withinBounds validProcesses
    ∧ [ProcessResult.mk "P1" 2 3 5 0 3]
      ≡ₚ Out.results (fcfs compareUnits validProcesses)
    ∧ View.timeline
        (simulate compareUnits [Process.mk "P1" (Num 2) (Num 3)]
           (View.mk None None EmptyString))
      = Some (Out.timeline (fcfs compareUnits validProcesses))
    ∧ View.error
        (simulate compareUnits [Process.mk "P1" (Num 2) (Num 3)]
           (View.mk None None EmptyString)) = EmptyString.
Proof.
  apply (simulate_schedules_valid_input compareUnits
           [Process.mk "P1" (Num 2) (Num 3)] (View.mk None None EmptyString)).
  reflexivity.
Defined.

(** The results shown are in the order of their pids. *)
Lemma simulate_results_sorted (localeCompare : string → string → Z)
    (processes : list Process.t) (v : View.t) (rs : list ProcessResult.t) :
  consistentComparator localeCompare →
  View.results (simulate localeCompare processes v) = Some rs →
  StronglySorted (λ a b, byPid localeCompare a b ≤ 0) rs.
Proof.
  intros [Hflip Htrans]. rewrite simulate_unfold.
  destruct (validate processes []) as [msg|[|p l]] eqn:Hv; try done.
  simpl. intros [= <-]. apply sort_sorted. split.
  - intros a b. apply Hflip.
  - intros a b c. apply Htrans.
Qed.

Lemma sumZ_Permutation (l l' : list Z) : l ≡ₚ l' → sumZ l = sumZ l'.
Proof. induction 1; simpl; lia. Qed.

(** X11.  Sorting the results by pid for display changes neither average:
    both are the same on the results in the order of [fcfs] and on the
    results in the order shown. *)
Theorem averages_unchanged_by_display_order
    (localeCompare : string → string → Z) (results : list ProcessResult.t) :
  avgW (Some (sort (byPid localeCompare) results)) = avgW (Some results)
  ∧ avgT (Some (sort (byPid localeCompare) results)) = avgT (Some results).
Proof.
  unfold avgW, avgT, divide, totalWaiting, totalTurnaround.
  rewrite !fold_left_add_sumZ, sort_length.
  pose proof (sort_Permutation (byPid localeCompare) results) as Hperm.
  rewrite (sumZ_Permutation _ _ (Permutation_map ProcessResult.waiting Hperm)).
  rewrite (sumZ_Permutation _ _ (Permutation_map ProcessResult.turnaround Hperm)).
  done.
Qed.

Lemma bounds_sum (validProcesses : list ValidProcess.t) :
  Forall withinBounds validProcesses →
  maxArrival validProcesses ≤ MAX_TIME_UNIT
  ∧ totalBurst validProcesses
    ≤ MAX_TIME_UNIT * Z.of_nat (length validProcesses).
Proof.
  induction 1 as [|p l [Ha Hb] _ [IH1 IH2]].
  - simpl. unfold MAX_TIME_UNIT. lia.
  - simpl length. simpl maxArrival. simpl totalBurst.
    unfold MAX_TIME_UNIT in *. lia.
Qed.

Lemma length_omap_le {A B : Type} (f : A → option B) (l : list A) :
  (length (omap f l) ≤ length l)%nat.
Proof.
  induction l as [|x l IH]; [done|].
  change (omap f (x :: l))
    with (match f x with Some y => y :: omap f l | None => omap f l end).
  destruct (f x); simpl; lia.
Qed.

(** X12.  The chart is bounded by the size of the form: a timeline that
    [simulate] shows for a form of [n] rows has at most
    [MAX_TIME_UNIT * (n + 1)] units. *)
Theorem simulate_timeline_bounded (localeCompare : string → string → Z)
    (processes : list Process.t) (v : View.t) (tl : list string) :
  View.timeline (simulate localeCompare processes v) = Some tl →
  Z.of_nat (length tl) ≤ MAX_TIME_UNIT * (Z.of_nat (length processes) + 1).
Proof.
  rewrite simulate_unfold.
  destruct (validate processes []) as [msg|[|p l]] eqn:Hv; try done.
  cbn [View.timeline]. intros Htl.
  assert (tl = Out.timeline (fcfs localeCompare (p :: l))) as -> by congruence.
  clear Htl.
  destruct (validate_accepted _ _ _ Hv) as (Heq & Hbounds & _).
  simpl in Heq. rewrite <- Heq in Hbounds.
  assert (Hvalid : validInput (p :: l)) by (by apply withinBounds_validInput).
  rewrite fcfs_unfold. cbn [Out.timeline].
  pose proof (valid_bursts localeCompare (p :: l) Hvalid) as Hb.
  rewrite (length_timelineFrom _ 0 Hb).
  destruct (totalBurst_timeAfter _ 0 Hb) as [_ Hhi].
  rewrite (totalBurst_Permutation _ _ (sort_Permutation _ (p :: l))) in Hhi.
  rewrite (maxArrival_Permutation _ _ (sort_Permutation _ (p :: l))) in Hhi.
  destruct (bounds_sum _ Hbounds) as [Hmax Hsum].
  pose proof (length_omap_le filledRow processes) as Hlen.
  rewrite <- Heq in Hlen.
  assert (0 ≤ maxArrival (p :: l)).
  { generalize (p :: l). clear. intros l. induction l; simpl; lia. }
  unfold MAX_TIME_UNIT in *. lia.
Qed.

Lemma simulate_timeline_bounded_witness :
  Z.of_nat (length [IDLE; IDLE; "P1"; "P1"; "P1"])
  ≤ MAX_TIME_UNIT * (Z.of_nat (length [Process.mk "P1" (Num 2) (Num 3)]) + 1).
Proof.
  apply (simulate_timeline_bounded compareUnits
           [Process.mk "P1" (Num 2) (Num 3)] (View.mk None None EmptyString)).
  reflexivity.
Defined.

(** * The form *)

Lemma pidOf_cons (n : nat) :
  pidOf n = String (Ascii.ascii_of_nat 80) (pretty n).
Proof. reflexivity. Qed.

Lemma pidOf_inj (n m : nat) : pidOf n = pidOf m → n = m.
Proof. rewrite !pidOf_cons. intros [= H]. by apply (inj pretty). Qed.

Lemma pidOf_not_IDLE (n : nat) : pidOf n ≠ IDLE.
Proof. by rewrite pidOf_cons. Qed.

Lemma trim_nonblank (c : Ascii.ascii) (s : string) :
  (Ascii.nat_of_ascii c < 128)%nat → whiteSpace1 c = false →
  trim (String c s) ≠ EmptyString.
Proof.
  intros Hc H1.
  assert (∀ c2, whiteSpace2 c c2 = false) as H2.
  { intros c2. unfold whiteSpace2. cbv zeta.
    destruct (Nat.eqb_spec (Ascii.nat_of_ascii c) 194); [lia|done]. }
  assert (∀ c2 c3, whiteSpace3 c c2 c3 = false) as H3.
  { intros c2 c3. unfold whiteSpace3. cbv zeta.
    destruct (Nat.eqb_spec (Ascii.nat_of_ascii c) 225); [lia|].
    destruct (Nat.eqb_spec (Ascii.nat_of_ascii c) 226); [lia|].
    destruct (Nat.eqb_spec (Ascii.nat_of_ascii c) 227); [lia|].
    destruct (Nat.eqb_spec (Ascii.nat_of_ascii c) 239); [lia|done]. }
  assert (trimStart (String c s) = String c s) as Hstart.
  { cbn [trimStart]. rewrite H1. destruct s as [|c2 [|c3 s3]]; [done| |].
    - by rewrite H2.
    - by rewrite H2, H3. }
  assert (allWhiteSpace (String c s) = false) as Hall.
  { cbn [allWhiteSpace]. rewrite H1. destruct s as [|c2 [|c3 s3]]; [done| |].
    - by rewrite H2.
    - by rewrite H2, H3. }
  unfold trim. rewrite Hstart. cbn [trimEnd]. by rewrite Hall.
Qed.

(** The white space past U+007F is removed like the space and the tab; the
    zero width space U+200B is not white space. *)
Example trim_removes_white_space :
  trim (" " +:+ noBreakSpace +:+ "P 1" +:+ noBreakSpace
        +:+ String (Ascii.ascii_of_nat 9) EmptyString) = "P 1"
  ∧ trim noBreakSpace = EmptyString
  ∧ trim (String (Ascii.ascii_of_nat 239)
            (String (Ascii.ascii_of_nat 187)
               (String (Ascii.ascii_of_nat 191) " "))) = EmptyString
  ∧ trim (String (Ascii.ascii_of_nat 226)
            (String (Ascii.ascii_of_nat 128)
               (String (Ascii.ascii_of_nat 139) EmptyString))) ≠ EmptyString.
Proof. by vm_compute. Qed.

Lemma pidOf_hasPid (n : nat) : trim (pidOf n) ≠ EmptyString.
Proof. rewrite pidOf_cons. apply trim_nonblank; [by apply Nat.ltb_lt|done]. Qed.

Lemma parseDigits_nonneg (value : string) (acc : Z) :
  allDigits value = true → 0 ≤ acc → 0 ≤ parseDigits acc value.
Proof.
  revert acc. induction value as [|c rest IH]; intros acc Hd Hacc; simpl in *;
    [done|].
  apply andb_prop in Hd as [Hc Hrest]. apply IH; [done|].
  unfold isDigit in Hc. apply andb_prop in Hc as [Hlo Hhi].
  apply Nat.leb_le in Hlo. lia.
Qed.

Lemma numbered_initial : numbered getInitialProcesses.
Proof. by intros [|[|[|[|i]]]] p [= <-]. Qed.

Lemma numbered_snoc (processes : list Process.t) (arrival burst : field) :
  numbered processes →
  numbered (processes
            ++ [Process.mk (pidOf (length processes + 1)) arrival burst]).
Proof.
  intros Hn i p Hi. apply lookup_app_Some in Hi as [Hi|[Hge Hi]].
  - by apply Hn.
  - apply list_lookup_singleton_Some in Hi as [Hi <-]. simpl.
    f_equal. lia.
Qed.

Lemma numbered_renumber (processes : list Process.t) :
  numbered
    (imap (λ index p,
             Process.mk (pidOf (index + 1)) (Process.arrival p) (Process.burst p))
       processes).
Proof.
  intros i p Hi. rewrite list_lookup_imap in Hi.
  destruct (processes !! i); [|done]. simpl in Hi. by injection Hi as <-.
Qed.

Lemma numbered_setField (processes : list Process.t) (i : nat)
    (field : fieldName) (value : string) (p : Process.t) :
  field ≠ FieldPid → processes !! i = Some p → numbered processes →
  numbered (<[i := setField field value p]> processes).
Proof.
  intros Hf Hp Hn j q Hj.
  destruct (decide (i = j)) as [->|Hne].
  - rewrite list_lookup_insert_eq in Hj by (by eapply lookup_lt_Some).
    injection Hj as <-. rewrite <- (Hn j p Hp). by destruct field.
  - rewrite list_lookup_insert_ne in Hj by done. by apply Hn.
Qed.

Lemma typedRow_setField (field : fieldName) (value : string) (p : Process.t) :
  allDigits value = true → typedRow p → typedRow (setField field value p).
Proof.
  intros Hd [Ha Hb].
  assert (Hparsed : typedField
            (if decide (value = EmptyString) then Blank else Num (parseInt value))).
  { destruct (decide (value = EmptyString)); [done|].
    simpl. by apply parseDigits_nonneg. }
  destruct field; by split.
Qed.

Lemma updateField_rows (i : nat) (field : fieldName) (value : string)
    (s s' : Form.t) :
  field ≠ FieldPid → updateField i field value s = Some s' →
  Form.view s' = setError EmptyString (Form.view s)
  ∧ (Form.processes s' = Form.processes s
     ∨ allDigits value = true
       ∧ ∃ p, Form.processes s !! i = Some p
              ∧ Form.processes s'
                = <[i := setField field value p]> (Form.processes s)).
Proof.
  intros Hf. unfold updateField.
  destruct field; [done| |];
    (destruct (allDigits value) eqn:Hd; simpl;
     [destruct (Form.processes s !! i) as [p|] eqn:Hp; [|done];
      intros [= <-]; split; [done|]; right; split; [done|]; by exists p
     |intros [= <-]; split; [done|]; by left]).
Qed.

Lemma reachable_rows (localeCompare : string → string → Z) (s : Form.t) :
  reachable localeCompare s →
  numbered (Form.processes s)
  ∧ Forall typedRow (Form.processes s)
  ∧ (View.results (Form.view s) = None ↔ View.timeline (Form.view s) = None).
Proof.
  induction 1 as [|s i value s' _ IH Hup|s i value s' _ IH Hup
                  |s _ IH|s i _ IH|s _ IH|s _ IH].
  - split; [apply numbered_initial|]. split; [|done].
    repeat constructor.
  - destruct IH as (Hn & Ht & Hv).
    destruct (updateField_rows i FieldArrival value s s' ltac:(discriminate) Hup)
      as [Hview [Hsame|(Hd & p & Hp & Hrows)]]; rewrite Hview.
    + by rewrite Hsame.
    + rewrite Hrows. split; [by apply numbered_setField|]. split; [|done].
      apply Forall_insert; [done|]. apply typedRow_setField; [done|].
      rewrite Forall_forall in Ht. by eapply Ht, list_elem_of_lookup_2.
  - destruct IH as (Hn & Ht & Hv).
    destruct (updateField_rows i FieldBurst value s s' ltac:(discriminate) Hup)
      as [Hview [Hsame|(Hd & p & Hp & Hrows)]]; rewrite Hview.
    + by rewrite Hsame.
    + rewrite Hrows. split; [by apply numbered_setField|]. split; [|done].
      apply Forall_insert; [done|]. apply typedRow_setField; [done|].
      rewrite Forall_forall in Ht. by eapply Ht, list_elem_of_lookup_2.
  - destruct IH as (Hn & Ht & Hv). simpl.
    split; [by apply numbered_snoc|]. split; [|done].
    apply Forall_app. split; [done|]. by repeat constructor.
  - destruct IH as (Hn & Ht & Hv). simpl.
    split; [apply numbered_renumber|]. split; [|done].
    apply Forall_forall. intros p Hp.
    apply list_elem_of_lookup in Hp as [j Hj]. rewrite list_lookup_imap in Hj.
    destruct (delete i (Form.processes s) !! j) as [q|] eqn:Hq; [|done].
    simpl in Hj. injection Hj as <-.
    rewrite Forall_forall in Ht. apply (Ht q).
    by eapply list_elem_of_delete_inv, list_elem_of_lookup_2.
  - simpl. split; [apply numbered_initial|]. split; [|done].
    repeat constructor.
  - destruct IH as (Hn & Ht & Hv). simpl.
    split; [done|]. split; [done|].
    rewrite simulate_unfold.
    by destruct (validate (Form.processes s) []) as [msg|[|p l]].
Qed.

Lemma numbered_pids (processes : list Process.t) :
  numbered processes →
  NoDup (map Process.pid processes)
  ∧ Forall (λ p, hasPid p ∧ Process.pid p ≠ IDLE) processes.
Proof.
  intros Hn. split.
  - apply NoDup_alt. intros i j pid Hi Hj.
    rewrite list_lookup_fmap in Hi, Hj.
    destruct (processes !! i) as [p|] eqn:Hp; [|done].
    destruct (processes !! j) as [q|] eqn:Hq; [|done].
    simpl in Hi, Hj. injection Hi as Hi. injection Hj as Hj.
    rewrite (Hn i p Hp) in Hi. rewrite (Hn j q Hq) in Hj.
    assert (H : (i + 1 = j + 1)%nat) by (apply pidOf_inj; congruence). lia.
  - apply Forall_forall. intros p Hp.
    apply list_elem_of_lookup in Hp as [i Hi]. unfold hasPid.
    rewrite (Hn i p Hi). split; [apply pidOf_hasPid|apply pidOf_not_IDLE].
Qed.

(** X13.  Every state the page can be brought to has its rows numbered
    P1, P2, ... by position, hence with distinct pids none of which is
    blank or the string IDLE; every field is blank or a number that is at
    least 0; and the results are shown exactly when the timeline is. *)
Theorem reachable_form_invariant (localeCompare : string → string → Z)
    (s : Form.t) :
  reachable localeCompare s →
  numbered (Form.processes s)
  ∧ Forall typedRow (Form.processes s)
  ∧ NoDup (map Process.pid (Form.processes s))
  ∧ Forall (λ p, hasPid p ∧ Process.pid p ≠ IDLE) (Form.processes s)
  ∧ (View.results (Form.view s) = None ↔ View.timeline (Form.view s) = None).
Proof.
  intros Hreach.
  destruct (reachable_rows _ _ Hreach) as (Hn & Ht & Hv).
  destruct (numbered_pids _ Hn) as [Hnodup Hpids]. done.
Qed.

Lemma reachable_form_invariant_witness :
  let s := removeProcess 1 (addProcess initialForm) in
  numbered (Form.processes s)
  ∧ Forall typedRow (Form.processes s)
  ∧ NoDup (map Process.pid (Form.processes s))
  ∧ Forall (λ p, hasPid p ∧ Process.pid p ≠ IDLE) (Form.processes s)
  ∧ (View.results (Form.view s) = None ↔ View.timeline (Form.view s) = None).
Proof.
  intros s.
  apply (reachable_form_invariant compareUnits s).
  apply reach_remove, reach_add, reach_mount.
Defined.

Lemma validate_errors_typed (processes : list Process.t)
    (acc : list ValidProcess.t) (msg : string) :
  Forall (λ p, hasPid p ∧ typedRow p) processes →
  validate processes acc = inl msg →
  ∃ p, p ∈ processes
       ∧ (halfFilledRow p ∧ msg = msgIncomplete (Process.pid p)
          ∨ Process.burst p = Num 0 ∧ msg = msgRange (Process.pid p)
          ∨ (∃ arrival burst,
               Process.arrival p = Num arrival ∧ Process.burst p = Num burst
               ∧ (MAX_TIME_UNIT < arrival ∨ MAX_TIME_UNIT < burst))
            ∧ msg = msgTooLarge (Process.pid p)).
Proof.
  intros H. revert acc.
  induction H as [|p rest [Hpid [Ha Hb]] _ IH]; intros acc; [done|].
  cbn [validate].
  assert (Hlater : ∀ acc', validate rest acc' = inl msg →
            ∃ q, q ∈ p :: rest
                 ∧ (halfFilledRow q ∧ msg = msgIncomplete (Process.pid q)
                    ∨ Process.burst q = Num 0 ∧ msg = msgRange (Process.pid q)
                    ∨ (∃ arrival burst,
                         Process.arrival q = Num arrival
                         ∧ Process.burst q = Num burst
                         ∧ (MAX_TIME_UNIT < arrival ∨ MAX_TIME_UNIT < burst))
                      ∧ msg = msgTooLarge (Process.pid q))).
  { intros acc' Hv. destruct (IH _ Hv) as (q & Hq & Hcase).
    exists q. split; [by apply list_elem_of_further|done]. }
  destruct (decide (trim (Process.pid p) = EmptyString)); [done|].
  unfold typedField in Ha, Hb.
  destruct (Process.arrival p) as [|a|] eqn:Harr,
           (Process.burst p) as [|b|] eqn:Hbur; try done.
  - apply Hlater.
  - intros [= <-]. exists p. split; [apply list_elem_of_here|].
    left. split; [|done]. left. by rewrite Harr, Hbur.
  - intros [= <-]. exists p. split; [apply list_elem_of_here|].
    left. split; [|done]. right. by rewrite Harr, Hbur.
  - destruct (Z.ltb_spec a 0) as [|_]; [lia|].
    destruct (Z.leb_spec b 0) as [Hb0|Hb1]; simpl.
    { intros [= <-]. exists p. split; [apply list_elem_of_here|].
      right. left. split; [|done]. rewrite Hbur. f_equal. lia. }
    destruct (Z.gtb_spec a MAX_TIME_UNIT) as [Hbig|_]; simpl.
    { intros [= <-]. exists p. split; [apply list_elem_of_here|].
      right. right. split; [|done]. exists a, b. by rewrite Harr, Hbur; auto. }
    destruct (Z.gtb_spec b MAX_TIME_UNIT) as [Hbig|_]; simpl.
    { intros [= <-]. exists p. split; [apply list_elem_of_here|].
      right. right. split; [|done]. exists a, b. by rewrite Harr, Hbur; auto. }
    apply Hlater.
Qed.

Lemma busyUnits_fcfs (localeCompare : string → string → Z)
    (processes : list ValidProcess.t) :
  Forall (λ p, 1 ≤ ValidProcess.burst p ∧ ValidProcess.pid p ≠ IDLE) processes →
  busyUnits (Out.timeline (fcfs localeCompare processes)) = totalBurst processes.
Proof.
  intros H. rewrite fcfs_unfold. cbn [Out.timeline].
  rewrite busyUnits_timelineFrom by (by rewrite sort_Permutation).
  apply totalBurst_Permutation, sort_Permutation.
Qed.

Lemma omap_filledRow_pids (processes : list Process.t) (v : ValidProcess.t) :
  v ∈ omap filledRow processes →
  ∃ p, p ∈ processes ∧ ValidProcess.pid v = Process.pid p.
Proof.
  intros Hv. apply list_elem_of_omap in Hv as (p & Hp & Hf).
  exists p. split; [done|]. unfold filledRow in Hf.
  destruct (Process.arrival p), (Process.burst p); try done.
  by injection Hf as <-.
Qed.

(** X14.  On every state the page can be brought to, a click on simulate
    ends in one of five ways: a schedule whose timeline holds as many
    non-IDLE units as the sum of the bursts of the filled rows; the
    message that a row is incomplete; that a burst is 0; that a value is
    too large; or that no process is defined, all rows being blank.  The
    messages about an empty pid and about invalid numbers never appear. *)
Theorem reachable_simulate_outcomes (localeCompare : string → string → Z)
    (s : Form.t) :
  reachable localeCompare s →
  let rows := Form.processes s in
  let v := Form.view (onSimulate localeCompare s) in
  (View.error v = EmptyString
   ∧ omap filledRow rows ≠ []
   ∧ is_Some (View.results v)
   ∧ ∃ tl, View.timeline v = Some tl
           ∧ busyUnits tl = totalBurst (omap filledRow rows))
  ∨ (View.results v = None ∧ View.timeline v = None
     ∧ (View.error v = msgNoProcess ∧ Forall blankRow rows
        ∨ ∃ p, p ∈ rows
               ∧ (halfFilledRow p
                  ∧ View.error v = msgIncomplete (Process.pid p)
                  ∨ Process.burst p = Num 0
                    ∧ View.error v = msgRange (Process.pid p)
                  ∨ (∃ arrival burst,
                       Process.arrival p = Num arrival
                       ∧ Process.burst p = Num burst
                       ∧ (MAX_TIME_UNIT < arrival ∨ MAX_TIME_UNIT < burst))
                    ∧ View.error v = msgTooLarge (Process.pid p)))).
Proof.
  intros Hreach rows v. subst v. cbn [onSimulate Form.view].
  fold rows. rewrite simulate_unfold.
  destruct (reachable_rows _ _ Hreach) as (Hn & Ht & _). fold rows in Hn, Ht.
  destruct (numbered_pids _ Hn) as [_ Hpids].
  destruct (validate rows []) as [msg|vs] eqn:Hv.
  - right. split; [done|]. split; [done|]. right.
    apply (validate_errors_typed rows [] msg); [|done].
    rewrite Forall_forall in Ht, Hpids. apply Forall_forall. intros p Hp.
    split; [by apply Hpids|by apply Ht].
  - destruct (validate_accepted _ _ _ Hv) as (Heq & Hbounds & Hrows).
    simpl in Heq. subst vs.
    destruct (omap filledRow rows) as [|p l] eqn:Hf.
    + right. split; [done|]. split; [done|]. left. split; [done|].
      apply Forall_forall. intros p Hp.
      rewrite Forall_forall in Hrows. destruct (Hrows p Hp) as [_ [Hblank|[q Hq]]];
        [done|].
      exfalso. assert (Hin : q ∈ omap filledRow rows).
      { apply list_elem_of_omap. by exists p. }
      rewrite Hf in Hin. by apply elem_of_nil in Hin.
    + left. split; [done|]. split; [done|]. split; [by eexists|].
      eexists. split; [reflexivity|].
      apply busyUnits_fcfs. rewrite <- Hf.
      apply Forall_forall. intros q Hq.
      rewrite Forall_forall in Hbounds.
      assert (Hqb : withinBounds q) by (apply Hbounds; by rewrite <- Hf).
      destruct Hqb as [_ [Hb1 _]]. split; [done|].
      destruct (omap_filledRow_pids _ _ Hq) as (r & Hr & ->).
      rewrite Forall_forall in Hpids. by apply Hpids.
Qed.

Lemma reachable_simulate_outcomes_witness :
  let s := addProcess initialForm in
  let rows := Form.processes s in
  let v := Form.view (onSimulate compareUnits s) in
  (View.error v = EmptyString
   ∧ omap filledRow rows ≠ []
   ∧ is_Some (View.results v)
   ∧ ∃ tl, View.timeline v = Some tl
           ∧ busyUnits tl = totalBurst (omap filledRow rows))
  ∨ (View.results v = None ∧ View.timeline v = None
     ∧ (View.error v = msgNoProcess ∧ Forall blankRow rows
        ∨ ∃ p, p ∈ rows
               ∧ (halfFilledRow p
                  ∧ View.error v = msgIncomplete (Process.pid p)
                  ∨ Process.burst p = Num 0
                    ∧ View.error v = msgRange (Process.pid p)
                  ∨ (∃ arrival burst,
                       Process.arrival p = Num arrival
                       ∧ Process.burst p = Num burst
                       ∧ (MAX_TIME_UNIT < arrival ∨ MAX_TIME_UNIT < burst))
                    ∧ View.error v = msgTooLarge (Process.pid p)))).
Proof.
  intros s.
  apply (reachable_simulate_outcomes compareUnits s).
  apply reach_add, reach_mount.
Defined.

(** X15.  Deleting a row keeps the arrival and burst of every other row, in
    order, and renumbers the rows left P1, P2, ...; an index past the last
    row deletes nothing.  Results and timeline are cleared, and the error
    message too. *)
Theorem removeProcess_keeps_other_rows (i : nat) (s : Form.t) :
  let s' := removeProcess i s in
  map timesOf (Form.processes s') = delete i (map timesOf (Form.processes s))
  ∧ numbered (Form.processes s')
  ∧ ((i < length (Form.processes s))%nat →
     S (length (Form.processes s')) = length (Form.processes s))
  ∧ ((length (Form.processes s) ≤ i)%nat →
     length (Form.processes s') = length (Form.processes s))
  ∧ Form.view s' = View.mk None None EmptyString.
Proof.
  intros s'. subst s'. cbn [removeProcess Form.processes Form.view].
  assert (Htimes :
    map timesOf
      (imap (λ index p,
               Process.mk (pidOf (index + 1)) (Process.arrival p)
                 (Process.burst p))
         (delete i (Form.processes s)))
    = delete i (map timesOf (Form.processes s))).
  { change (map timesOf (Form.processes s))
      with (timesOf <$> Form.processes s).
    rewrite <- list_fmap_delete.
    apply list_eq. intros j.
    change (map timesOf ?l) with (timesOf <$> l).
    rewrite !list_lookup_fmap, list_lookup_imap.
    by destruct (delete i (Form.processes s) !! j). }
  split; [exact Htimes|]. split; [apply numbered_renumber|].
  rewrite length_imap.
  split; [|split].
  - intros Hi. rewrite length_delete by (by apply lookup_lt_is_Some_2). lia.
  - intros Hi.
    assert (Hnone : Form.processes s !! i = None) by (by apply lookup_ge_None_2).
    clear -Hnone. revert i Hnone.
    induction (Form.processes s) as [|p l IH]; intros [|i] Hi; simpl in *;
      try done.
    f_equal. by apply IH.
  - done.
Qed.

Lemma removeProcess_keeps_other_rows_witness :
  let s := Form.mk [Process.mk "P1" (Num 0) (Num 5); Process.mk "P2" Blank Blank;
                    Process.mk "P3" (Num 1) (Num 3)]
             (View.mk None None EmptyString) in
  S (length (Form.processes (removeProcess 1 s))) = length (Form.processes s).
Proof.
  intros s.
  apply (removeProcess_keeps_other_rows 1 s). simpl. lia.
Defined.

(** X16.  Editing a time never touches anything else: a call of
    [updateField] on arrival or burst that returns leaves the results and
    the timeline shown as they were, clears the error message, keeps the
    number of rows, every other row and the pid of the row edited; and when
    the text holds a character that is not a digit, it leaves all rows as
    they were. *)
Theorem updateField_changes_one_field (i : nat) (field : fieldName)
    (value : string) (s s' : Form.t) :
  field ≠ FieldPid →
  updateField i field value s = Some s' →
  View.results (Form.view s') = View.results (Form.view s)
  ∧ View.timeline (Form.view s') = View.timeline (Form.view s)
  ∧ View.error (Form.view s') = EmptyString
  ∧ length (Form.processes s') = length (Form.processes s)
  ∧ (∀ j, j ≠ i → Form.processes s' !! j = Form.processes s !! j)
  ∧ Process.pid <$> Form.processes s' !! i
    = Process.pid <$> Form.processes s !! i
  ∧ (allDigits value = false → Form.processes s' = Form.processes s).
Proof.
  intros Hf Hup.
  destruct (updateField_rows _ _ _ _ _ Hf Hup)
    as [Hview [Hsame|(Hd & p & Hp & Hrows)]]; rewrite Hview.
  - rewrite Hsame. done.
  - rewrite Hrows. split; [done|]. split; [done|]. split; [done|].
    split; [apply length_insert|]. split; [|split].
    + intros j Hj. by rewrite list_lookup_insert_ne.
    + rewrite list_lookup_insert_eq by (by eapply lookup_lt_Some).
      rewrite Hp. simpl. by destruct field.
    + congruence.
Qed.

Lemma updateField_changes_one_field_witness :
  let s' := Form.mk [Process.mk "P1" (Num 7) Blank; Process.mk "P2" Blank Blank]
              (View.mk None None EmptyString) in
  let s := Form.mk [Process.mk "P1" Blank Blank; Process.mk "P2" Blank Blank]
             (View.mk None None "Please define at least one process.") in
  View.results (Form.view s') = View.results (Form.view s)
  ∧ View.timeline (Form.view s') = View.timeline (Form.view s)
  ∧ View.error (Form.view s') = EmptyString
  ∧ length (Form.processes s') = length (Form.processes s)
  ∧ (∀ j, j ≠ 0%nat → Form.processes s' !! j = Form.processes s !! j)
  ∧ Process.pid <$> Form.processes s' !! 0%nat
    = Process.pid <$> Form.processes s !! 0%nat
  ∧ (allDigits "007" = false → Form.processes s' = Form.processes s).
Proof.
  intros s' s.
  apply (updateField_changes_one_field 0 FieldArrival "007" s s').
  - discriminate.
  - reflexivity.
Defined.

(** * The colours of the chart *)

Lemma palette (n : nat) :
  ∃ c, colorClasses !! (n mod length colorClasses)%nat = Some c
       ∧ c ∈ colorClasses
       ∧ orElse (colorClasses !! (n mod length colorClasses)%nat) "bg-gray-300" = c.
Proof.
  assert (Hlt : (n mod length colorClasses < 5)%nat).
  { apply Nat.mod_upper_bound. simpl. lia. }
  destruct (n mod length colorClasses)%nat as [|[|[|[|[|k]]]]]; [..|lia];
    eexists; (split; [reflexivity|]); (split; [|reflexivity]);
    set_solver.
Qed.

Lemma assignColors_notin (pids : list string) (index : nat)
    (m : gmap string string) (pid : string) :
  pid ∉ pids → assignColors index pids m !! pid = m !! pid.
Proof.
  revert index m. induction pids as [|q rest IH]; intros index m Hnot; simpl;
    [done|].
  apply not_elem_of_cons in Hnot as [Hne Hnot].
  rewrite IH by done. by rewrite lookup_insert_ne.
Qed.

Lemma assignColors_last (pids : list string) (index : nat)
    (m : gmap string string) (j : nat) (pid : string) :
  pids !! j = Some pid →
  (∀ j', (j < j')%nat → pids !! j' ≠ Some pid) →
  assignColors index pids m !! pid
  = colorClasses !! ((index + j) mod length colorClasses)%nat.
Proof.
  revert index m j. induction pids as [|q rest IH]; intros index m j Hj Hlast;
    [done|].
  cbn [assignColors].
  destruct j as [|j]; simpl in Hj.
  - injection Hj as ->.
    rewrite assignColors_notin.
    + rewrite lookup_insert_eq, Nat.add_0_r.
      destruct (palette index) as (c & Hc & _ & Hor). by rewrite Hor, Hc.
    + intros Hin. apply list_elem_of_lookup in Hin as [k Hk].
      by apply (Hlast (S k)); [lia|].
  - rewrite (IH (S index) _ j); [|done|].
    + by replace (S index + j)%nat with (index + S j)%nat by lia.
    + intros j' Hj'. apply (Hlast (S j')). lia.
Qed.

Lemma assignColors_elem (pids : list string) (index : nat)
    (m : gmap string string) (pid : string) :
  pid ∈ pids →
  ∃ c, assignColors index pids m !! pid = Some c ∧ c ∈ colorClasses.
Proof.
  revert index m. induction pids as [|q rest IH]; intros index m Hin;
    [by apply elem_of_nil in Hin|].
  cbn [assignColors].
  destruct (decide (pid ∈ rest)) as [Hrest|Hnot]; [by apply IH|].
  apply elem_of_cons in Hin as [->|Hin]; [|done].
  rewrite assignColors_notin, lookup_insert_eq by done.
  destruct (palette index) as (c & Hc & Hin & Hor). exists c. by rewrite Hor.
Qed.

(** X17.  Every pid of the results gets a colour of the palette, the one at
    the position of its last result taken modulo the size of the palette;
    the fallback colour is never used, and a pid without a result gets no
    colour. *)
Theorem pidColorMap_palette (results : list ProcessResult.t) :
  Forall (λ r, ProcessResult.pid r ≠ "__proto__") results →
  (∀ j r,
     results !! j = Some r →
     (∀ j' r', (j < j')%nat → results !! j' = Some r' →
               ProcessResult.pid r' ≠ ProcessResult.pid r) →
     pidColorMap (Some results) !! ProcessResult.pid r
     = colorClasses !! (j mod length colorClasses)%nat
     ∧ is_Some (colorClasses !! (j mod length colorClasses)%nat))
  ∧ (∀ pid c, pidColorMap (Some results) !! pid = Some c →
              pid ∈ map ProcessResult.pid results ∧ c ∈ colorClasses).
Proof.
  intros _. split.
  - intros j r Hj Hlast. cbn [pidColorMap]. split.
    + rewrite (assignColors_last _ 0 ∅ j); [done| |].
      * change (map ProcessResult.pid results) with (ProcessResult.pid <$> results).
        by rewrite list_lookup_fmap, Hj.
      * intros j' Hj' Hpid.
        change (map ProcessResult.pid results)
          with (ProcessResult.pid <$> results) in Hpid.
        rewrite list_lookup_fmap in Hpid.
        destruct (results !! j') as [r'|] eqn:Hr'; [|done].
        simpl in Hpid. injection Hpid as Hpid. by apply (Hlast j' r').
    + destruct (palette j) as (c & Hc & _). by eexists.
  - intros pid c Hc. cbn [pidColorMap] in Hc.
    destruct (decide (pid ∈ map ProcessResult.pid results)) as [Hin|Hnot].
    + split; [done|].
      destruct (assignColors_elem _ 0 ∅ pid Hin) as (c' & Hc' & Hpal).
      congruence.
    + rewrite assignColors_notin in Hc by done. by rewrite lookup_empty in Hc.
Qed.

Lemma pidColorMap_palette_witness :
  pidColorMap
    (Some [ProcessResult.mk "P1" 0 5 5 0 5; ProcessResult.mk "P2" 1 3 8 4 7])
  !! "P2"
  = colorClasses !! (1 mod length colorClasses)%nat
  ∧ is_Some (colorClasses !! (1 mod length colorClasses)%nat).
Proof.
  destruct (pidColorMap_palette
              [ProcessResult.mk "P1" 0 5 5 0 5; ProcessResult.mk "P2" 1 3 8 4 7])
    as [Hcolor _].
  - repeat constructor; simpl; discriminate.
  - apply (Hcolor 1%nat (ProcessResult.mk "P2" 1 3 8 4 7)).
    + reflexivity.
    + intros [|[|j']] r' Hj' Hr'; simpl in Hr'; [lia..|done].
Defined.

Lemma timelineFrom_units (procs : list ValidProcess.t) (t : Z) (u : string) :
  u ∈ timelineFrom t procs →
  u = IDLE ∨ u ∈ map ValidProcess.pid procs.
Proof.
  revert t. induction procs as [|p rest IH]; intros t Hu; simpl in *.
  - by apply elem_of_nil in Hu.
  - apply elem_of_app in Hu as [Hu|Hu].
    + unfold unitsOf in Hu. apply elem_of_app in Hu as [Hu|Hu];
        apply elem_of_replicate in Hu as [-> _]; [by left|].
      right. apply list_elem_of_here.
    + destruct (IH _ Hu) as [->|Hin]; [by left|].
      right. by apply list_elem_of_further.
Qed.

Lemma pids_resultsFrom (procs : list ValidProcess.t) (t : Z) :
  map ProcessResult.pid (resultsFrom t procs) = map ValidProcess.pid procs.
Proof.
  revert t. induction procs as [|p rest IH]; intros t; simpl; [done|].
  by rewrite IH.
Qed.

Lemma block_id_in_expand (blocks : list Block) (block : Block) :
  Forall (λ b, 1 ≤ duration b) blocks →
  block ∈ blocks → id block ∈ expand blocks.
Proof.
  intros Hdur Hin. rewrite Forall_forall in Hdur. specialize (Hdur _ Hin).
  apply list_elem_of_In. unfold expand. apply in_flat_map.
  exists block. split; [by apply list_elem_of_In|].
  apply list_elem_of_In, elem_of_replicate. split; [done|]. lia.
Qed.

(** X18.  Every block of the chart has a colour, as long as no row has the
    pid [__proto__], the key that JavaScript does not store in the colour
    map: whenever [simulate] shows results for such rows, each block of the
    compressed timeline is either an [IDLE] block, drawn in gray, or
    carries the pid of a result, drawn in the colour of the palette
    assigned to that pid. *)
Theorem simulate_chart_blocks_have_colours (localeCompare : string → string → Z)
    (processes : list Process.t) (v : View.t) (rs : list ProcessResult.t) :
  Forall (λ p, Process.pid p ≠ "__proto__") processes →
  View.results (simulate localeCompare processes v) = Some rs →
  ∃ blocks,
    compressedTimeline (View.timeline (simulate localeCompare processes v))
    = Some blocks
    ∧ ∀ block, block ∈ blocks →
        (id block = IDLE
         ∧ bgColor (pidColorMap (Some rs)) block = Some "bg-gray-400")
        ∨ (id block ∈ map ProcessResult.pid rs
           ∧ ∃ c, bgColor (pidColorMap (Some rs)) block = Some c
                  ∧ c ∈ colorClasses).
Proof.
  intros _. rewrite simulate_unfold.
  destruct (validate processes []) as [msg|[|p l]] eqn:Hv; try done.
  cbn [View.results View.timeline]. intros Hrs.
  assert (rs = sort (byPid localeCompare)
                 (Out.results (fcfs localeCompare (p :: l)))) as ->
    by congruence.
  clear Hrs. eexists. split; [reflexivity|].
  set (tl := Out.timeline (fcfs localeCompare (p :: l))).
  intros block Hblock.
  pose proof (compress_runs tl [] runs_nil) as [Hdur _].
  pose proof (block_id_in_expand _ _ Hdur Hblock) as Hid.
  rewrite compress_expand in Hid by constructor. simpl in Hid.
  unfold bgColor. destruct (decide (id block = IDLE)) as [Hidle|Hbusy];
    [by left|].
  right.
  assert (Hpid : id block
                 ∈ map ProcessResult.pid
                     (sort (byPid localeCompare)
                        (Out.results (fcfs localeCompare (p :: l))))).
  { unfold tl in Hid. rewrite fcfs_unfold in *.
    cbn [Out.timeline Out.results] in *.
    apply timelineFrom_units in Hid as [?|Hin]; [done|].
    rewrite (Permutation_map ProcessResult.pid (sort_Permutation _ _)).
    by rewrite pids_resultsFrom. }
  split; [done|]. cbn [pidColorMap]. by apply assignColors_elem.
Qed.

Lemma simulate_chart_blocks_have_colours_witness :
  let processes := [Process.mk "P1" (Num 2) (Num 3)] in
  let v := View.mk None None EmptyString in
  ∃ blocks,
    compressedTimeline (View.timeline (simulate compareUnits processes v))
    = Some blocks
    ∧ ∀ block, block ∈ blocks →
        (id block = IDLE
         ∧ bgColor (pidColorMap (Some [ProcessResult.mk "P1" 2 3 5 0 3])) block
           = Some "bg-gray-400")
        ∨ (id block ∈ map ProcessResult.pid [ProcessResult.mk "P1" 2 3 5 0 3]
           ∧ ∃ c, bgColor (pidColorMap (Some [ProcessResult.mk "P1" 2 3 5 0 3]))
                    block = Some c
                  ∧ c ∈ colorClasses).
Proof.
  intros processes v.
  apply (simulate_chart_blocks_have_colours compareUnits processes v).
  - repeat constructor; simpl; discriminate.
  - reflexivity.
Defined.

(** * The order of the rows *)

Lemma NoDup_map_inj {A B : Type} (f : A → B) (l : list A) (x y : A) :
  NoDup (map f l) → x ∈ l → y ∈ l → f x = f y → x = y.
Proof.
  intros Hnd Hx Hy Hf.
  apply list_elem_of_lookup in Hx as [i Hi].
  apply list_elem_of_lookup in Hy as [j Hj].
  assert (i = j) as ->; [|congruence].
  apply (NoDup_lookup (f <$> l) i j (f x)); [done|..];
    rewrite list_lookup_fmap; [by rewrite Hi|by rewrite Hj, Hf].
Qed.

(** X19.  The schedule does not depend on the order of the rows: when the
    pids are distinct and [localeCompare], a consistent comparator, tells
    different pids apart, [fcfs] returns the same timeline and results for
    any two orders of the same processes. *)
Theorem fcfs_independent_of_input_order (localeCompare : string → string → Z)
    (processes processes' : list ValidProcess.t) :
  consistentComparator localeCompare →
  (∀ a b, localeCompare a b = 0 → a = b) →
  NoDup (map ValidProcess.pid processes) →
  processes ≡ₚ processes' →
  fcfs localeCompare processes = fcfs localeCompare processes'.
Proof.
  intros Hc Hsep Hnd Hperm. rewrite !fcfs_unfold.
  assert (Hsort : sort (byArrivalThenPid localeCompare) processes
                  = sort (byArrivalThenPid localeCompare) processes').
  { pose proof (byArrivalThenPid_consistent _ Hc) as Hc'.
    apply (StronglySorted_unique_strong
             (λ a b, byArrivalThenPid localeCompare a b ≤ 0)).
    - intros x y Hx Hy Hxy Hyx.
      rewrite sort_Permutation in Hx. rewrite sort_Permutation, <- Hperm in Hy.
      apply (NoDup_map_inj ValidProcess.pid processes); try done.
      apply Hsep.
      destruct Hc' as [Hflip _].
      assert (Hzero : byArrivalThenPid localeCompare x y = 0).
      { destruct (Z.lt_trichotomy (byArrivalThenPid localeCompare x y) 0)
          as [Hlt|[?|?]]; [|done|lia].
        apply Hflip in Hlt. lia. }
      unfold byArrivalThenPid in Hzero.
      destruct (Z.eqb_spec (ValidProcess.arrival x - ValidProcess.arrival y) 0);
        [done|lia].
    - by apply sort_sorted.
    - by apply sort_sorted.
    - by rewrite !sort_Permutation. }
  by rewrite Hsort.
Qed.

Lemma compareUnits_separates (a b : string) : compareUnits a b = 0 → a = b.
Proof.
  unfold compareUnits. destruct (String.compare a b) eqn:Hcmp; try done.
  intros _. by apply String.compare_eq_iff.
Qed.

Lemma fcfs_independent_of_input_order_witness :
  fcfs compareUnits [ValidProcess.mk "P1" 2 3; ValidProcess.mk "P2" 0 1]
  = fcfs compareUnits [ValidProcess.mk "P2" 0 1; ValidProcess.mk "P1" 2 3].
Proof.
  apply (fcfs_independent_of_input_order compareUnits
           [ValidProcess.mk "P1" 2 3; ValidProcess.mk "P2" 0 1]
           [ValidProcess.mk "P2" 0 1; ValidProcess.mk "P1" 2 3]
           compareUnits_consistent compareUnits_separates).
  - apply (bool_decide_unpack _). reflexivity.
  - apply Permutation_swap.
Defined.

(** * Typing back what an input shows *)

Lemma parseDigits_app (s1 s2 : string) (acc : Z) :
  parseDigits acc (s1 +:+ s2) = parseDigits (parseDigits acc s1) s2.
Proof.
  revert acc. induction s1 as [|c s1 IH]; intros acc; simpl; [done|]. apply IH.
Qed.

Lemma allDigits_app (s1 s2 : string) :
  allDigits (s1 +:+ s2) = allDigits s1 && allDigits s2.
Proof.
  induction s1 as [|c s1 IH]; simpl; [done|]. by rewrite IH, andb_assoc.
Qed.

Lemma string_app_assoc (s1 s2 s3 : string) :
  (s1 +:+ s2) +:+ s3 = s1 +:+ (s2 +:+ s3).
Proof.
  induction s1 as [|c s1 IH]; [done|].
  change (String c ((s1 +:+ s2) +:+ s3) = String c (s1 +:+ (s2 +:+ s3))).
  by rewrite IH.
Qed.

Lemma pretty_N_go_app (x : N) (s : string) :
  pretty_N_go x s = pretty_N_go x EmptyString +:+ s.
Proof.
  revert s. induction (N.lt_wf_0 x) as [x _ IH]; intros s.
  destruct (decide (x = 0)%N) as [->|Hx]; [done|].
  rewrite !(pretty_N_go_step x) by lia.
  rewrite (IH (x `div` 10)%N) by (apply N.div_lt; lia).
  rewrite (IH (x `div` 10)%N ltac:(apply N.div_lt; lia) (String _ EmptyString)).
  by rewrite string_app_assoc.
Qed.

Lemma pretty_N_char_digit (d : N) :
  (d < 10)%N →
  isDigit (pretty_N_char d) = true
  ∧ Z.of_nat (Ascii.nat_of_ascii (pretty_N_char d)) - 48 = Z.of_N d.
Proof.
  intros Hd.
  assert (d = 0 ∨ d = 1 ∨ d = 2 ∨ d = 3 ∨ d = 4 ∨ d = 5 ∨ d = 6 ∨ d = 7
          ∨ d = 8 ∨ d = 9)%N as Hcases by lia.
  repeat (destruct Hcases as [->|Hcases]; [by vm_compute|]). subst d.
  by vm_compute.
Qed.

Lemma pretty_N_go_digits (x : N) :
  allDigits (pretty_N_go x EmptyString) = true
  ∧ parseDigits 0 (pretty_N_go x EmptyString) = Z.of_N x
  ∧ ((0 < x)%N → pretty_N_go x EmptyString ≠ EmptyString).
Proof.
  induction (N.lt_wf_0 x) as [x _ IH].
  destruct (decide (x = 0)%N) as [->|Hx].
  { split; [done|]. split; [done|]. lia. }
  rewrite (pretty_N_go_step x), pretty_N_go_app by lia.
  destruct (IH (x `div` 10)%N) as (Hd & Hp & _); [apply N.div_lt; lia|].
  destruct (pretty_N_char_digit (x `mod` 10)%N) as [Hc Hv];
    [apply N.mod_lt; lia|].
  split; [|split].
  - rewrite allDigits_app, Hd. simpl. by rewrite Hc.
  - rewrite parseDigits_app, Hp. simpl. rewrite Hv.
    rewrite (N.div_mod x 10) at 3 by lia. lia.
  - intros _. by destruct (pretty_N_go (x `div` 10) EmptyString).
Qed.

Lemma pretty_Z_digits (n : Z) :
  0 ≤ n →
  allDigits (pretty n) = true ∧ parseInt (pretty n) = n
  ∧ pretty n ≠ EmptyString.
Proof.
  intros Hn. destruct n as [|p|p]; [done| |lia].
  unfold parseInt.
  change (pretty (Z.pos p)) with (pretty (N.pos p)).
  unfold pretty, pretty_N.
  destruct (decide (N.pos p = 0%N)); [done|].
  destruct (pretty_N_go_digits (N.pos p)) as (Hd & Hp & Hne).
  split; [done|]. split; [by rewrite Hp|]. apply Hne. lia.
Qed.

(** X20.  Typing back into an input exactly what it shows changes no row:
    on a row whose fields are blank or numbers that are at least 0,
    [updateField] called with the text shown for arrival or burst stores
    the value that was there, so only the error message is cleared. *)
Theorem updateField_shown_value_is_identity (i : nat) (name : fieldName)
    (s : Form.t) (p : Process.t) :
  name ≠ FieldPid →
  Form.processes s !! i = Some p →
  typedRow p →
  updateField i name (shown (timeOf name p)) s
  = Some (Form.mk (Form.processes s) (setError EmptyString (Form.view s))).
Proof.
  intros Hname Hp [Ha Hb].
  assert (Hfield : typedField (timeOf name p)) by (by destruct name).
  assert (Hvalue :
    allDigits (shown (timeOf name p)) = true
    ∧ (if decide (shown (timeOf name p) = EmptyString) then Blank
       else Num (parseInt (shown (timeOf name p)))) = timeOf name p).
  { destruct (timeOf name p) as [|n|]; [done| |done]. simpl in *.
    destruct (pretty_Z_digits n Hfield) as (Hd & Hparse & Hne).
    split; [done|]. destruct (decide (pretty n = EmptyString)); [done|].
    by rewrite Hparse. }
  destruct Hvalue as [Hd Hparsed].
  assert (Hset : setField name (shown (timeOf name p)) p = p).
  { unfold setField. rewrite Hparsed. by destruct name, p. }
  unfold updateField. destruct name; [done|..];
    rewrite Hd, Hp, Hset; simpl; by rewrite list_insert_id.
Qed.

Lemma updateField_shown_value_is_identity_witness :
  let s := Form.mk [Process.mk "P1" (Num 120) Blank]
             (View.mk None None "Please define at least one process.") in
  updateField 0 FieldArrival (shown (Num 120)) s
  = Some (Form.mk (Form.processes s) (setError EmptyString (Form.view s))).
Proof.
  intros s.
  apply (updateField_shown_value_is_identity 0 FieldArrival s
           (Process.mk "P1" (Num 120) Blank)).
  - discriminate.
  - reflexivity.
  - split; simpl; [lia|done].
Defined.

(** * Enter moves through the form *)

Lemma inputId_inj (name : string) (n m : nat) :
  inputId name n = inputId name m → n = m.
Proof.
  unfold inputId. intros H. apply (inj pretty).
  induction name as [|c name IH]; [by injection H|].
  apply IH. by injection H.
Qed.

Lemma inputId_rendered (processes : list Process.t) (k : nat) :
  (k < length processes)%nat →
  inputId "arrival" (k + 1) ∈ renderedIds processes
  ∧ inputId "burst" (k + 1) ∈ renderedIds processes.
Proof.
  intros Hk. unfold renderedIds.
  assert (Hseq : In k (seq 0 (length processes))) by (apply in_seq; lia).
  split; apply elem_of_app; left; apply list_elem_of_In, in_flat_map;
    exists k; (split; [done|]); simpl; auto.
Qed.

Lemma arrival_past_the_end (processes : list Process.t) :
  inputId "arrival" (length processes + 1) ∉ renderedIds processes.
Proof.
  unfold renderedIds. intros Hin. apply elem_of_app in Hin as [Hin|Hin].
  - apply list_elem_of_In, in_flat_map in Hin as (k & Hk & Hin).
    apply in_seq in Hk. simpl in Hin. destruct Hin as [Heq|[Heq|[]]].
    + apply inputId_inj in Heq. lia.
    + discriminate Heq.
  - apply list_elem_of_singleton in Hin. discriminate Hin.
Qed.

(** X21.  Enter walks through the inputs in reading order: from the
    arrival of a row to the burst of the same row, from the burst of a row
    to the arrival of the next row, and from the burst of the last row to
    the simulate button; any other key leaves the focus where it is. *)
Theorem handleKeyDown_walks_the_form (processes : list Process.t) (i : nat) :
  (i < length processes)%nat →
  handleKeyDown "Enter" i FieldArrival processes
  = MoveTo (inputId "burst" (i + 1))
  ∧ ((S i < length processes)%nat →
     handleKeyDown "Enter" i FieldBurst processes
     = MoveTo (inputId "arrival" (S i + 1)))
  ∧ (S i = length processes →
     handleKeyDown "Enter" i FieldBurst processes = MoveTo "simulate-button")
  ∧ (∀ key name, key ≠ "Enter" → handleKeyDown key i name processes = Stay).
Proof.
  intros Hi. unfold handleKeyDown.
  destruct (decide ("Enter" = "Enter")) as [_|]; [|done].
  split; [|split; [|split]].
  - destruct (inputId_rendered processes i Hi) as [_ Hburst].
    by destruct (decide (inputId "burst" (i + 1) ∈ renderedIds processes)).
  - intros Hnext.
    destruct (inputId_rendered processes (S i) Hnext) as [Harrival _].
    replace (i + 2)%nat with (S i + 1)%nat by lia.
    by destruct (decide (inputId "arrival" (S i + 1) ∈ renderedIds processes)).
  - intros Hlast.
    pose proof (arrival_past_the_end processes) as Hnot.
    replace (i + 2)%nat with (length processes + 1)%nat by lia.
    destruct (decide (inputId "arrival" (length processes + 1)
                      ∈ renderedIds processes)); [done|].
    destruct (decide (Z.of_nat i = Z.of_nat (length processes) - 1)); [done|lia].
  - intros key name Hkey. by destruct (decide (key = "Enter")).
Qed.

Lemma handleKeyDown_walks_the_form_witness :
  handleKeyDown "Enter" 3 FieldBurst getInitialProcesses
  = MoveTo "simulate-button".
Proof.
  apply (handleKeyDown_walks_the_form getInitialProcesses 3).
  - simpl. lia.
  - reflexivity.
Defined.

(** * Adding a row and taking it back *)

Lemma renumber_numbered (processes : list Process.t) :
  numbered processes →
  imap (λ index p,
          Process.mk (pidOf (index + 1)) (Process.arrival p) (Process.burst p))
    processes
  = processes.
Proof.
  intros Hn. apply list_eq. intros j. rewrite list_lookup_imap.
  destruct (processes !! j) as [p|] eqn:Hp; [|done]. simpl.
  rewrite <- (Hn j p Hp). by destruct p.
Qed.

(** X22.  On a form whose rows are numbered by position, adding a row and
    deleting it again gives back the rows there were. *)
Theorem removeProcess_undoes_addProcess (s : Form.t) :
  numbered (Form.processes s) →
  Form.processes (removeProcess (length (Form.processes s)) (addProcess s))
  = Form.processes s.
Proof.
  intros Hn. cbn [removeProcess addProcess Form.processes].
  rewrite delete_middle, app_nil_r. by apply renumber_numbered.
Qed.

Lemma removeProcess_undoes_addProcess_witness :
  Form.processes
    (removeProcess (length (Form.processes initialForm)) (addProcess initialForm))
  = Form.processes initialForm.
Proof.
  apply (removeProcess_undoes_addProcess initialForm).
  apply numbered_initial.
Defined.

(** * The process served first *)

(** X23.  On valid input the process served first does not wait: the first
    result has waiting time 0 and completes at its arrival plus its
    burst. *)
Theorem fcfs_first_served_does_not_wait (localeCompare : string → string → Z)
    (processes : list ValidProcess.t) :
  validInput processes →
  ∃ r, head (Out.results (fcfs localeCompare processes)) = Some r
       ∧ ProcessResult.waiting r = 0
       ∧ ProcessResult.completion r
         = ProcessResult.arrival r + ProcessResult.burst r.
Proof.
  intros [Hne Hvalid]. rewrite fcfs_unfold. cbn [Out.results].
  destruct (sort (byArrivalThenPid localeCompare) processes) as [|p rest] eqn:Hs.
  { by apply sort_nil_inv in Hs. }
  assert (Hp : 0 ≤ ValidProcess.arrival p).
  { assert (Hin : p ∈ processes).
    { rewrite <- (sort_Permutation (byArrivalThenPid localeCompare)), Hs.
      apply list_elem_of_here. }
    rewrite Forall_forall in Hvalid. by apply Hvalid in Hin as [? _]. }
  eexists. split; [reflexivity|]. simpl.
  unfold completionOf. rewrite startOf_max. lia.
Qed.

Lemma fcfs_first_served_does_not_wait_witness :
  ∃ r, head (Out.results
               (fcfs compareUnits
                  [ValidProcess.mk "P1" 4 2; ValidProcess.mk "P2" 3 1]))
       = Some r
       ∧ ProcessResult.waiting r = 0
       ∧ ProcessResult.completion r
         = ProcessResult.arrival r + ProcessResult.burst r.
Proof.
  apply (fcfs_first_served_does_not_wait compareUnits
           [ValidProcess.mk "P1" 4 2; ValidProcess.mk "P2" 3 1]).
  split; [discriminate|]. repeat constructor; simpl; lia.
Defined.
